(** * api-dispatcher: the request executor and the dispatch engine

    A shallow embedding of [dispatcher.go].  The file follows the Go source:

    - [RequestConfig], [Config]: the decoded batch ([dispatcher.go], 18-27);
    - [sendRequest]: the request executor (35-73), written in a small
      state-and-log monad over the Go heap of maps, so that every library
      call it makes and every channel operation it performs is visible;
    - [step]: the goroutines of [handleAPIRequest] (93-109) as an
      interleaving step relation over a [state]: the loop that spawns the
      workers, the [sync.WaitGroup], the unbuffered [results] channel and
      the goroutine that drains it;
    - [handleAPIRequest]: the guards in front of the dispatch (75-91);
    - [loadConfigFromBody]: what [json.Unmarshal] does on the two struct
      types, on parsed JSON values;
    - [main]: the command (111-188): the calls of the calling goroutine as
      a function of the parsed flags and of what the file system answers,
      and for [-http3] the step relation [pstep] of that goroutine and the
      goroutine of the HTTP/1.1 server.

    The Go standard library is not part of the repository.  The calls the
    source makes into it are modelled by what they are documented to do
    ([http.Header.Set], [http.NewRequest], [json.Unmarshal] on structs,
    [json.Marshal] on a map of ASCII strings) or are left as parameters of
    a section (the network, the validation done by [http.NewRequest], the
    order in which [range] visits a map, the servers). *)

From Stdlib Require Import Ascii.
From stdpp Require Import gmap strings list fin_maps.

(** ** Go values *)

(** Go maps are references.  A [map[string]string] or an [http.Header] lives
    in a heap cell; a descriptor holds the address (or [nil]). *)
Abbreviation loc := positive.

Inductive cell :=
| CStrMap (m : gmap string string)
| CHeader (hd : gmap string (list string)).

Abbreviation heap := (gmap loc cell).

(** [type RequestConfig struct] *)
Record RequestConfig := {
  URL : string;
  Method : string;
  Headers : option loc;   (* map[string]string, [None] is the nil map *)
  Body : option loc       (* map[string]string, [None] is the nil map *)
}.

(** [type Config struct] *)
Record Config := { Requests : list RequestConfig }.

(** Reading through a map reference.  A nil map reads as the empty map. *)
Definition strmap_at (h : heap) (r : option loc) : gmap string string :=
  match r with
  | None => ∅
  | Some l => match h !! l with Some (CStrMap m) => m | _ => ∅ end
  end.

Definition header_at (h : heap) (l : loc) : gmap string (list string) :=
  match h !! l with Some (CHeader hd) => hd | _ => ∅ end.

(** ** net/textproto: canonical header keys

    [http.Header.Set(key, value)] stores [[]string{value}] under
    [textproto.CanonicalMIMEHeaderKey(key)]: a key made of header-field
    bytes only gets its first letter and every letter after a hyphen in
    upper case and all others in lower case; any other key is kept as is. *)
Module textproto.

Definition isLower (c : ascii) : bool :=
  let n := nat_of_ascii c in (97 <=? n)%nat && (n <=? 122)%nat.
Definition isUpper (c : ascii) : bool :=
  let n := nat_of_ascii c in (65 <=? n)%nat && (n <=? 90)%nat.
Definition isDigit (c : ascii) : bool :=
  let n := nat_of_ascii c in (48 <=? n)%nat && (n <=? 57)%nat.

Definition toUpper (c : ascii) : ascii :=
  if isLower c then ascii_of_nat (nat_of_ascii c - 32) else c.
Definition toLower (c : ascii) : ascii :=
  if isUpper c then ascii_of_nat (nat_of_ascii c + 32) else c.

(** The token characters of RFC 7230. *)
Definition validHeaderFieldByte (c : ascii) : bool :=
  isLower c || isUpper c || isDigit c ||
  bool_decide (c ∈ ["!"; "#"; "$"; "%"; "&"; "'"; "*"; "+"; "-"; ".";
                    "^"; "_"; "`"; "|"; "~"]%char).

Fixpoint allValid (s : string) : bool :=
  match s with
  | EmptyString => true
  | String c s' => validHeaderFieldByte c && allValid s'
  end.

Fixpoint canon (upper : bool) (s : string) : string :=
  match s with
  | EmptyString => EmptyString
  | String c s' =>
      let c' := if upper then toUpper c else toLower c in
      String c' (canon (Ascii.eqb c' "-") s')
  end.

Definition CanonicalMIMEHeaderKey (s : string) : string :=
  if allValid s then canon true s else s.

End textproto.

(** ** The calls a run of the executor makes

    The log of one call of [sendRequest]: each library call with its
    arguments, each channel send, each deferred call when it runs. *)

(** What [client.Do] is handed: the request as it stands at that moment. *)
Record Wire := {
  wMethod : string;
  wURL : string;
  wHeader : gmap string (list string);
  wBody : option string       (* [None]: no payload (a nil [io.Reader]) *)
}.

(** [*http.Request], as far as the executor touches it. *)
Record Request := {
  reqMethod : string;
  reqURL : string;
  reqHeader : loc;            (* [req.Header], made by [http.NewRequest] *)
  reqBody : option string
}.

Inductive event :=
| EvNewRequest (method url : string) (payload : option string)
| EvHeaderSet (key value : string)
| EvDo (w : Wire)                   (* [client.Do(req)]: the round trip *)
| EvReadAll                         (* [ioutil.ReadAll(resp.Body)] *)
| EvBodyClose                       (* deferred [resp.Body.Close()] *)
| EvSend (line : string)            (* [results <- line] *)
| EvWgDone.                         (* deferred [wg.Done()] *)

(** The lines a log sends, and the round trips it makes. *)
Definition sends (log : list event) : list string :=
  omap (λ e, match e with EvSend line => Some line | _ => None end) log.

Definition wires (log : list event) : list Wire :=
  omap (λ e, match e with EvDo w => Some w | _ => None end) log.

Definition headerSets (log : list event) : list (string * string) :=
  omap (λ e, match e with EvHeaderSet k v => Some (k, v) | _ => None end) log.

(** The reads of a response body and the closes of one, in a log. *)
Definition readAlls (log : list event) : list unit :=
  omap (λ e, match e with EvReadAll => Some tt | _ => None end) log.

Definition bodyCloses (log : list event) : list unit :=
  omap (λ e, match e with EvBodyClose => Some tt | _ => None end) log.

(** ** A state-and-log monad over the heap *)

Definition M (A : Type) : Type := heap → A * heap * list event.

Definition ret {A} (a : A) : M A := λ h, (a, h, []).

Definition bind {A B} (m : M A) (f : A → M B) : M B :=
  λ h, let '(a, h1, t1) := m h in
       let '(b, h2, t2) := f a h1 in
       (b, h2, t1 ++ t2).

Notation "x <~ c ;; k" := (bind c (λ x, k))
  (at level 100, c at next level, right associativity).
Notation "c ;;; k" := (bind c (λ _, k))
  (at level 100, right associativity).

Definition emit (e : event) : M unit := λ h, (tt, h, [e]).

(** [make(...)]: a new cell at an address not in use. *)
Definition alloc (c : cell) : M loc :=
  λ h, let l := fresh (dom h) in (l, <[l := c]> h, []).

Definition read_strmap (r : option loc) : M (gmap string string) :=
  λ h, (strmap_at h r, h, []).

Definition read_header (l : loc) : M (gmap string (list string)) :=
  λ h, (header_at h l, h, []).

Fixpoint forEach {A} (xs : list A) (f : A → M unit) : M unit :=
  match xs with
  | [] => ret tt
  | x :: xs' => f x ;;; forEach xs' f
  end.

Definition heap_of {A} (r : A * heap * list event) : heap := r.1.2.
Definition log_of {A} (r : A * heap * list event) : list event := r.2.
Definition val_of {A} (r : A * heap * list event) : A := r.1.1.

(** ** encoding/json: decoding into the two struct types

    [json.Unmarshal(body, &config)] checks the syntax of [body] and stores
    the JSON value into [config] by the rules of the package, which the
    struct tags of lines 18-27 drive.  The rules, on parsed values:

    - an object is stored into a struct key by key, in order; a key selects
      the field whose tag it equals, else the field whose tag it equals up
      to case; a key that selects no field is skipped with its value;
    - [null] leaves a string or a struct as it is and sets a map or a slice
      to nil;
    - an array is stored into a slice element by element, each into the
      element that the backing array of the slice holds at that index, a
      zero element where it holds none; the slice then has the length of
      the array;
    - an object is stored into a map entry by entry, the map made first if
      it is nil;
    - a value of any other kind is a type error: the field (or entry) keeps
      what it has, decoding goes on, and the first such error is returned
      at the end. *)
Module json.

#[warnings="-register-all"]
Inductive value :=
| Null
| Bool (b : bool)
| Number (literal : string)
| String (s : string)
| Array (elems : list value)
| Object (members : list (string * value)).

(** [*json.UnmarshalTypeError] and [*json.SyntaxError] *)
Inductive error :=
| SyntaxError
| UnmarshalTypeError (v : value) (goType : string).

(** [foldName]: ASCII letters in upper case; the two letters outside
    ASCII that fold to ASCII letters, U+017F (long s) and U+212A (Kelvin
    sign), as [S] and [K]. *)
Fixpoint foldName (s : string) : string :=
  match s with
  | String.String "197" (String.String "191" rest) =>
      String.String "S" (foldName rest)
  | String.String "226" (String.String "132" (String.String "170" rest)) =>
      String.String "K" (foldName rest)
  | String.String c rest => String.String (textproto.toUpper c) (foldName rest)
  | EmptyString => EmptyString
  end.

(** The field a key selects, among the tags [names] of a struct. *)
Definition lookupField (names : list string) (key : string)
  : option string :=
  match List.find (String.eqb key) names with
  | Some n => Some n
  | None =>
      List.find (λ n, String.eqb (foldName n) (foldName key)) names
  end.

(** The first error is the one kept ([d.saveError]). *)
Definition saveError (old new : option error) : option error :=
  match old with Some e => Some e | None => new end.

End json.

(** The tags of [RequestConfig] and of [Config]. *)
Definition RequestConfig_tags : list string :=
  ["url"; "method"; "headers"; "body"].
Definition Config_tags : list string := ["requests"].

(** The zero values. *)
Definition RequestConfig_zero : RequestConfig :=
  {| URL := ""; Method := ""; Headers := None; Body := None |}.
Definition Config_zero : Config := {| Requests := [] |}.

(** Into a [string]. *)
Definition decodeString (v : json.value) (cur : string)
  : string * option json.error :=
  match v with
  | json.String s => (s, None)
  | json.Null => (cur, None)
  | _ => (cur, Some (json.UnmarshalTypeError v "string"))
  end.

(** Into a [map[string]string]. *)
Definition decodeEntry (l : loc) (kv : string * json.value)
  : M (option json.error) :=
  λ h, let '(s, err) := decodeString kv.2 "" in
       (err, <[l := CStrMap (<[kv.1 := s]> (strmap_at h (Some l)))]> h, []).

Fixpoint decodeEntries (l : loc) (kvs : list (string * json.value))
  : M (option json.error) :=
  match kvs with
  | [] => ret None
  | kv :: kvs' =>
      e1 <~ decodeEntry l kv ;;
      e2 <~ decodeEntries l kvs' ;;
      ret (json.saveError e1 e2)
  end.

Definition decodeStringMap (v : json.value) (cur : option loc)
  : M (option loc * option json.error) :=
  match v with
  | json.Null => ret (None, None)
  | json.Object members =>
      l <~ match cur with
           | Some l => ret l
           | None => alloc (CStrMap ∅)
           end ;;
      err <~ decodeEntries l members ;;
      ret (Some l, err)
  | _ => ret (cur, Some (json.UnmarshalTypeError v "map[string]string"))
  end.

(** Into a [RequestConfig]: one member of the object. *)
Definition decodeRequestField (cur : RequestConfig)
    (kv : string * json.value) : M (RequestConfig * option json.error) :=
  match json.lookupField RequestConfig_tags kv.1 with
  | None => ret (cur, None)
  | Some tag =>
      if String.eqb tag "url" then
        let '(s, err) := decodeString kv.2 (URL cur) in
        ret ({| URL := s; Method := Method cur; Headers := Headers cur;
                Body := Body cur |}, err)
      else if String.eqb tag "method" then
        let '(s, err) := decodeString kv.2 (Method cur) in
        ret ({| URL := URL cur; Method := s; Headers := Headers cur;
                Body := Body cur |}, err)
      else if String.eqb tag "headers" then
        r <~ decodeStringMap kv.2 (Headers cur) ;;
        ret ({| URL := URL cur; Method := Method cur; Headers := r.1;
                Body := Body cur |}, r.2)
      else (* "body" *)
        r <~ decodeStringMap kv.2 (Body cur) ;;
        ret ({| URL := URL cur; Method := Method cur;
                Headers := Headers cur; Body := r.1 |}, r.2)
  end.

Fixpoint decodeRequestFields (cur : RequestConfig)
    (kvs : list (string * json.value))
  : M (RequestConfig * option json.error) :=
  match kvs with
  | [] => ret (cur, None)
  | kv :: kvs' =>
      r1 <~ decodeRequestField cur kv ;;
      r2 <~ decodeRequestFields r1.1 kvs' ;;
      ret (r2.1, json.saveError r1.2 r2.2)
  end.

Definition decodeRequestConfig (v : json.value) (cur : RequestConfig)
  : M (RequestConfig * option json.error) :=
  match v with
  | json.Object members => decodeRequestFields cur members
  | json.Null => ret (cur, None)
  | _ => ret (cur, Some (json.UnmarshalTypeError v "RequestConfig"))
  end.

(** Into a [[]RequestConfig].  The decoder stores the element at index
    [i] into the element that the backing array of the slice holds at [i]:
    an element of the slice as it is, or one that an earlier array of the
    same object left behind beyond the length of the slice; only where the
    backing array has never held an element is it a zero element.  [old]
    is what the backing array holds from the index of the first element
    on. *)
Fixpoint decodeElems (elems : list json.value) (old : list RequestConfig)
  : M (list RequestConfig * option json.error) :=
  match elems with
  | [] => ret ([], None)
  | v :: elems' =>
      r1 <~ decodeRequestConfig v (default RequestConfig_zero (head old)) ;;
      r2 <~ decodeElems elems' (tail old) ;;
      ret (r1.1 :: r2.1, json.saveError r1.2 r2.2)
  end.

(** [cur] is the slice, [spare] the elements of its backing array beyond
    its length.  An array of [n] elements leaves a slice of length [n] on
    the same backing array, whose elements from [n] on stay as they are;
    the empty array and [null] leave a slice with no backing array. *)
Definition decodeRequests (v : json.value) (cur spare : list RequestConfig)
  : M ((list RequestConfig * list RequestConfig) * option json.error) :=
  match v with
  | json.Array [] => ret (([], []), None)
  | json.Array elems =>
      r <~ decodeElems elems (cur ++ spare) ;;
      ret ((r.1, drop (length elems) (cur ++ spare)), r.2)
  | json.Null => ret (([], []), None)
  | _ => ret ((cur, spare),
              Some (json.UnmarshalTypeError v "[]RequestConfig"))
  end.

(** Into a [Config]; [spare] as above, for the field [Requests]. *)
Definition decodeConfigField (cur : Config) (spare : list RequestConfig)
    (kv : string * json.value)
  : M ((Config * list RequestConfig) * option json.error) :=
  match json.lookupField Config_tags kv.1 with
  | Some _ =>
      r <~ decodeRequests kv.2 (Requests cur) spare ;;
      ret (({| Requests := r.1.1 |}, r.1.2), r.2)
  | None => ret ((cur, spare), None)
  end.

Fixpoint decodeConfigFields (cur : Config) (spare : list RequestConfig)
    (kvs : list (string * json.value))
  : M ((Config * list RequestConfig) * option json.error) :=
  match kvs with
  | [] => ret ((cur, spare), None)
  | kv :: kvs' =>
      r1 <~ decodeConfigField cur spare kv ;;
      r2 <~ decodeConfigFields r1.1.1 r1.1.2 kvs' ;;
      ret (r2.1, json.saveError r1.2 r2.2)
  end.

(** The slice of [cur] is taken to fill its backing array, as the nil
    slice of [var config Config] does. *)
Definition decodeConfig (v : json.value) (cur : Config)
  : M (Config * option json.error) :=
  match v with
  | json.Object members =>
      r <~ decodeConfigFields cur [] members ;;
      ret (r.1.1, r.2)
  | json.Null => ret (cur, None)
  | _ => ret (cur, Some (json.UnmarshalTypeError v "Config"))
  end.

(** A field of [RequestConfig] that no member selects keeps its value. *)
Definition keeps {A} (proj : RequestConfig → A) (tag : string) : Prop :=
  ∀ members cur (h : heap),
    Forall (λ kv, json.lookupField RequestConfig_tags kv.1 ≠ Some tag)
           members →
    proj (val_of (decodeRequestFields cur members h)).1 = proj cur.

(** [strings.HasSuffix] *)
Fixpoint hasSuffix (s suffix : string) : bool :=
  String.eqb s suffix ||
  match s with
  | "" => false
  | String.String _ s' => hasSuffix s' suffix
  end.

(** *** Values that decode without error

    The kinds of JSON values that the rules above store without a type
    error, level by level: a string field takes a string or [null], a map
    field an object of such or [null], a descriptor an object or [null],
    the batch an array or [null]. *)
Definition isStringOrNull (v : json.value) : bool :=
  match v with json.String _ | json.Null => true | _ => false end.

Definition mapOK (v : json.value) : bool :=
  match v with
  | json.Null => true
  | json.Object members => forallb (λ kv, isStringOrNull kv.2) members
  | _ => false
  end.

Definition fieldOK (kv : string * json.value) : bool :=
  match json.lookupField RequestConfig_tags kv.1 with
  | None => true
  | Some tag =>
      if String.eqb tag "url" || String.eqb tag "method"
      then isStringOrNull kv.2 else mapOK kv.2
  end.

Definition descOK (v : json.value) : bool :=
  match v with
  | json.Null => true
  | json.Object members => forallb fieldOK members
  | _ => false
  end.

Definition requestsOK (v : json.value) : bool :=
  match v with
  | json.Null => true
  | json.Array elems => forallb descOK elems
  | _ => false
  end.

Definition configFieldOK (kv : string * json.value) : bool :=
  match json.lookupField Config_tags kv.1 with
  | None => true
  | Some _ => requestsOK kv.2
  end.

Definition configOK (v : json.value) : bool :=
  match v with
  | json.Null => true
  | json.Object members => forallb configFieldOK members
  | _ => false
  end.

(** ** The command: flags, files, what [main] does

    [main] as a function of the parsed flags and of what the file system
    answers; its calls are logged like those of the executor. *)
Record Flags := {
  useHTTP3 : bool;        (* -http3, false by default *)
  addr : string;          (* -addr, ":8080" by default *)
  http3Addr : string;     (* -http3-addr, ":8443" by default *)
  configFile : string     (* -config, empty by default *)
}.

Definition Flags_default : Flags :=
  {| useHTTP3 := false; addr := ":8080"; http3Addr := ":8443";
     configFile := "" |}.

(** The error of [os.Stat], as far as [os.IsNotExist] tells errors apart. *)
Inductive oserror :=
| ErrNotExist
| ErrOther (msg : string).

Definition os_IsNotExist (err : option oserror) : bool :=
  match err with Some ErrNotExist => true | _ => false end.

Inductive action :=
| APrintln (line : string)               (* [fmt.Println] *)
| ALogPrintf (line : string)             (* [log.Printf] *)
| AStat (path : string)                  (* [os.Stat] *)
| AGoServe (addr certPath keyPath : string)
    (* [go func() { ... }()], lines 135-142: the goroutine is started *)
| AListenAndServeTLS (addr certPath keyPath : string)
    (* [server.ListenAndServeTLS(...)], in that goroutine *)
| ALoadKeyPair (certPath keyPath : string)   (* [tls.LoadX509KeyPair] *)
| AServeHTTP3 (addr certPath keyPath : string)
    (* [quicServer.ListenAndServeTLS(...)] *)
| AReadFile (path : string)              (* [ioutil.ReadFile] *)
| ALoadConfig (data : string)            (* [loadConfigFromBody] *)
| AFatal (msg : string).                 (* [log.Fatalf], [log.Fatal] *)

Definition certPath : string := "cert.pem".
Definition keyPath : string := "key.pem".

(** A log followed by the rest of a path. *)
Definition andThen {R} (l : list action) (k : list action * R)
  : list action * R := (l ++ k.1, k.2).

Definition fatals (log : list action) : list string :=
  omap (λ a, match a with AFatal msg => Some msg | _ => None end) log.

Definition isServe (a : action) : bool :=
  match a with
  | AGoServe _ _ _ | AListenAndServeTLS _ _ _ | AServeHTTP3 _ _ _ => true
  | _ => false
  end.

Definition isFatal (a : action) : bool :=
  match a with AFatal _ => true | _ => false end.

Definition isConfigRead (a : action) : bool :=
  match a with AReadFile _ | ALoadConfig _ => true | _ => false end.

(** A string of bytes below 128. *)
Fixpoint isASCII (s : string) : bool :=
  match s with
  | "" => true
  | String.String c r => (nat_of_ascii c <? 128)%nat && isASCII r
  end.

(** ** A test double

    A world to run the program in: the two targets of the scenario of the
    specification ([/ok] answers [hello], [/down] refuses the connection),
    a target whose body cannot be read and one that echoes the payload; a
    JSON writer and a JSON reader for texts whose strings are ASCII. *)
Module TestDouble.

Definition dq : ascii := "034".
Definition backslash : ascii := "092".

Definition quoted (s : string) : string :=
  String.String dq (s +:+ String.String dq "").

Fixpoint hasCTL (s : string) : bool :=
  match s with
  | "" => false
  | String.String c r =>
      (nat_of_ascii c <? 32)%nat || (nat_of_ascii c =? 127)%nat || hasCTL r
  end.

(** [http.NewRequest] refuses a method that is not a token and a target
    with a control character; the texts of the errors are the double's
    own. *)
Definition NewRequest_error (method url : string) : option string :=
  if negb (textproto.allValid method) then Some "invalid method"
  else if hasCTL url then Some "invalid control character in URL"
  else None.

(** A response is its body, or the error that reading it runs into. *)
Definition Response : Type := string + string.

Definition client_Do (w : Wire) : string + Response :=
  if String.eqb (wURL w) "https://example.test/ok" then inr (inr "hello")
  else if String.eqb (wURL w) "https://example.test/down" then
    inl "connection refused"
  else if String.eqb (wURL w) "https://example.test/cut" then
    inr (inl "unexpected EOF")
  else inr (inr (default "" (wBody w))).

Definition ioutil_ReadAll (resp : Response) : string + string := resp.

Definition rangeOrder (m : gmap string string) : list (string * string) :=
  map_to_list m.

(** *** Writing JSON

    What [json.Marshal] writes for a [map[string]string] whose keys and
    values are ASCII: the members by key, no space; in a string a
    backslash before the quote and the backslash, the short escapes for
    backspace, form feed, line feed, carriage return and tab (Go before
    1.22 writes [u0008] and [u000c] for the first two), and the escape
    with four hexadecimal digits for the other control characters and for
    the three characters that matter in HTML.  Bytes from 128 on are
    written as they are, which is what [json.Marshal] does inside valid
    UTF-8 only. *)

Definition hexDigit (n : nat) : ascii :=
  if (n <? 10)%nat then ascii_of_nat (48 + n) else ascii_of_nat (87 + n).

Definition escapeByte (c : ascii) : string :=
  let n := nat_of_ascii c in
  if Ascii.eqb c dq then String.String backslash (String.String dq "")
  else if Ascii.eqb c backslash then
    String.String backslash (String.String backslash "")
  else if (n =? 8)%nat then String.String backslash "b"
  else if (n =? 12)%nat then String.String backslash "f"
  else if (n =? 10)%nat then String.String backslash "n"
  else if (n =? 13)%nat then String.String backslash "r"
  else if (n =? 9)%nat then String.String backslash "t"
  else if (n <? 32)%nat || bool_decide (c ∈ ["<"; ">"; "&"]%char) then
    String.String backslash
      (String.String "u" (String.String "0" (String.String "0"
         (String.String (hexDigit (n / 16))
            (String.String (hexDigit (n mod 16)) "")))))
  else String.String c "".

Fixpoint escape (s : string) : string :=
  match s with
  | "" => ""
  | String.String c r => escapeByte c +:+ escape r
  end.

Definition encodeString (s : string) : string := quoted (escape s).

Fixpoint insertEntry (kv : string * string) (l : list (string * string))
  : list (string * string) :=
  match l with
  | [] => [kv]
  | x :: l' =>
      if String.leb kv.1 x.1 then kv :: l else x :: insertEntry kv l'
  end.

(** The entries by key, as [json.Marshal] writes a map. *)
Definition sortEntries (l : list (string * string))
  : list (string * string) := foldr insertEntry [] l.

Fixpoint joinMembers (l : list (string * string)) : string :=
  match l with
  | [] => ""
  | [kv] => encodeString kv.1 +:+ ":" +:+ encodeString kv.2
  | kv :: l' =>
      encodeString kv.1 +:+ ":" +:+ encodeString kv.2 +:+ ","
      +:+ joinMembers l'
  end.

Definition json_Marshal (m : gmap string string) : string :=
  "{" +:+ joinMembers (sortEntries (map_to_list m)) +:+ "}".

(** The text after a member: the members that follow, each after its
    comma, and the closing brace. *)
Fixpoint membersTail (l : list (string * string)) : string :=
  match l with
  | [] => "}"
  | kv :: l' =>
      "," +:+ encodeString kv.1 +:+ ":" +:+ encodeString kv.2
      +:+ membersTail l'
  end.

(** *** Reading JSON *)

Definition isWS (c : ascii) : bool :=
  bool_decide (c ∈ [" "; "009"; "010"; "013"]%char).

Fixpoint skipWS (s : string) : string :=
  match s with
  | String.String c r => if isWS c then skipWS r else s
  | "" => ""
  end.

Definition hexVal (c : ascii) : option nat :=
  let n := nat_of_ascii c in
  if textproto.isDigit c then Some (n - 48)
  else if (97 <=? n)%nat && (n <=? 102)%nat then Some (n - 87)
  else if (65 <=? n)%nat && (n <=? 70)%nat then Some (n - 55)
  else None.

Definition hex4 (a b c d : ascii) : option nat :=
  match hexVal a, hexVal b, hexVal c, hexVal d with
  | Some x, Some y, Some z, Some w => Some (((x * 16 + y) * 16 + z) * 16 + w)
  | _, _, _, _ => None
  end.

(** UTF-8 of a code point of the basic plane. *)
Definition utf8 (n : nat) : string :=
  if (n <? 128)%nat then String.String (ascii_of_nat n) ""
  else if (n <? 2048)%nat then
    String.String (ascii_of_nat (192 + n / 64))
      (String.String (ascii_of_nat (128 + n mod 64)) "")
  else
    String.String (ascii_of_nat (224 + n / 4096))
      (String.String (ascii_of_nat (128 + (n / 64) mod 64))
         (String.String (ascii_of_nat (128 + n mod 64)) "")).

Definition unescape (e : ascii) : option ascii :=
  if Ascii.eqb e dq then Some dq
  else if Ascii.eqb e backslash then Some backslash
  else if Ascii.eqb e "/" then Some "/"%char
  else if Ascii.eqb e "b" then Some "008"%char
  else if Ascii.eqb e "f" then Some "012"%char
  else if Ascii.eqb e "n" then Some "010"%char
  else if Ascii.eqb e "r" then Some "013"%char
  else if Ascii.eqb e "t" then Some "009"%char
  else None.

(** The code points from U+D800 to U+DFFF. *)
Definition isSurrogate (n : nat) : bool := (n / 2048 =? 27)%nat.

(** After the opening quote: the string, and the text after it.  An
    escaped surrogate is not read. *)
Fixpoint parseChars (s : string) : option (string * string) :=
  match s with
  | "" => None
  | String.String c r =>
      if Ascii.eqb c dq then Some ("", r)
      else if Ascii.eqb c backslash then
        match r with
        | String.String "u"
            (String.String x1 (String.String x2
               (String.String x3 (String.String x4 r')))) =>
            match hex4 x1 x2 x3 x4 with
            | Some n =>
                if isSurrogate n then None
                else prod_map (λ t, utf8 n +:+ t) id <$> parseChars r'
            | None => None
            end
        | String.String e r' =>
            match unescape e with
            | Some ch => prod_map (String.String ch) id <$> parseChars r'
            | None => None
            end
        | "" => None
        end
      else if (nat_of_ascii c <? 32)%nat then None
      else prod_map (String.String c) id <$> parseChars r
  end.

(** Numbers: an optional minus; a zero, or digits that do not start with
    a zero; an optional fraction; an optional exponent. *)
Fixpoint skipDigits (s : string) : string :=
  match s with
  | String.String c r => if textproto.isDigit c then skipDigits r else s
  | "" => ""
  end.

Definition digits1 (s : string) : option string :=
  match s with
  | String.String c r =>
      if textproto.isDigit c then Some (skipDigits r) else None
  | "" => None
  end.

Definition afterExp (s : string) : option string :=
  match s with
  | String.String c r =>
      if Ascii.eqb c "e" || Ascii.eqb c "E" then
        match r with
        | String.String g r' =>
            if Ascii.eqb g "+" || Ascii.eqb g "-" then digits1 r'
            else digits1 r
        | "" => None
        end
      else Some s
  | "" => Some s
  end.

Definition afterFrac (s : string) : option string :=
  match s with
  | String.String "." r =>
      match digits1 r with Some r' => afterExp r' | None => None end
  | _ => afterExp s
  end.

Definition afterInt (s : string) : option string :=
  match s with
  | String.String "0" r => afterFrac r
  | String.String c r =>
      if textproto.isDigit c then afterFrac (skipDigits r) else None
  | "" => None
  end.

Definition afterNumber (s : string) : option string :=
  match s with
  | String.String "-" r => afterInt r
  | _ => afterInt s
  end.

Fixpoint stripPrefix (p s : string) : option string :=
  match p, s with
  | "", _ => Some s
  | String.String a p', String.String b s' =>
      if Ascii.eqb a b then stripPrefix p' s' else None
  | _, "" => None
  end.

Definition taken (s rest : string) : string :=
  String.substring 0 (String.length s - String.length rest) s.

(** The elements of an array after the first, up to the bracket. *)
Fixpoint parseElems (pv : string → option (json.value * string))
    (n : nat) (s : string) : option (list json.value * string) :=
  match n with
  | 0 => None
  | S n' =>
      match skipWS s with
      | String.String "]" rest => Some ([], rest)
      | String.String "," rest =>
          match pv rest with
          | Some (v, rest') =>
              prod_map (cons v) id <$> parseElems pv n' rest'
          | None => None
          end
      | _ => None
      end
  end.

Definition parseMember (pv : string → option (json.value * string))
    (s : string) : option ((string * json.value) * string) :=
  match skipWS s with
  | String.String c r =>
      if Ascii.eqb c dq then
        match parseChars r with
        | Some (k, rest) =>
            match skipWS rest with
            | String.String ":" rest' =>
                prod_map (pair k) id <$> pv rest'
            | _ => None
            end
        | None => None
        end
      else None
  | "" => None
  end.

Fixpoint parseMembers (pv : string → option (json.value * string))
    (n : nat) (s : string)
  : option (list (string * json.value) * string) :=
  match n with
  | 0 => None
  | S n' =>
      match skipWS s with
      | String.String "}" rest => Some ([], rest)
      | String.String "," rest =>
          match parseMember pv rest with
          | Some (kv, rest') =>
              prod_map (cons kv) id <$> parseMembers pv n' rest'
          | None => None
          end
      | _ => None
      end
  end.

Fixpoint parseValue (fuel : nat) (s : string)
  : option (json.value * string) :=
  match fuel with
  | 0 => None
  | S fuel' =>
      let pv := parseValue fuel' in
      let s := skipWS s in
      match s with
      | "" => None
      | String.String c r =>
          if Ascii.eqb c dq then
            prod_map json.String id <$> parseChars r
          else if Ascii.eqb c "[" then
            match skipWS r with
            | String.String "]" rest => Some (json.Array [], rest)
            | _ =>
                match pv r with
                | Some (v, rest) =>
                    prod_map (λ vs, json.Array (v :: vs)) id
                      <$> parseElems pv (String.length rest) rest
                | None => None
                end
            end
          else if Ascii.eqb c "{" then
            match skipWS r with
            | String.String "}" rest => Some (json.Object [], rest)
            | _ =>
                match parseMember pv r with
                | Some (kv, rest) =>
                    prod_map (λ kvs, json.Object (kv :: kvs)) id
                      <$> parseMembers pv (String.length rest) rest
                | None => None
                end
            end
          else
            match stripPrefix "null" s, stripPrefix "true" s,
                  stripPrefix "false" s with
            | Some rest, _, _ => Some (json.Null, rest)
            | _, Some rest, _ => Some (json.Bool true, rest)
            | _, _, Some rest => Some (json.Bool false, rest)
            | _, _, _ =>
                match afterNumber s with
                | Some rest => Some (json.Number (taken s rest), rest)
                | None => None
                end
            end
      end
  end.

Definition json_parse (s : string) : option json.value :=
  match parseValue (S (String.length s)) s with
  | Some (v, rest) =>
      match skipWS rest with "" => Some v | _ => None end
  | None => None
  end.

(** *** Files *)

(** A directory with a certificate, its key and one configuration
    file. *)
Definition os_Stat (path : string) : option oserror :=
  if String.eqb path "cert.pem" || String.eqb path "key.pem" then None
  else Some ErrNotExist.

Definition tls_LoadX509KeyPair (certFile keyFile : string) : option string :=
  if String.eqb certFile "cert.pem" && String.eqb keyFile "key.pem" then None
  else Some "no such file".

Definition ioutil_ReadFile (path : string) : string + string :=
  if String.eqb path "config.json" then inr "{}"
  else inl "no such file".

(** Port 8080 is taken; the HTTP/3 server, once started, serves on. *)
Definition server_ListenAndServeTLS (addr certFile keyFile : string)
  : option string :=
  if String.eqb addr ":8080" then Some "address already in use" else None.

Definition quic_ListenAndServeTLS (addr certFile keyFile : string)
  : option string := None.

Definition json_errorText (e : json.error) : string :=
  match e with
  | json.SyntaxError => "syntax error"
  | json.UnmarshalTypeError _ goType => "cannot unmarshal into " +:+ goType
  end.

(** *** Descriptors to run *)

(** The caller's heap: a header map with two keys that differ in case
    only, a body map, a header map with keys of their own. *)
Definition heap0 : heap :=
  <[1%positive := CStrMap (<["x-a" := "1"]> (<["X-A" := "2"]> ∅))]>
    (<[2%positive := CStrMap (<["title" := "foo"]> ∅)]>
       (<[3%positive := CStrMap (<["accept" := "application/json"]>
                                   (<["x-token" := "abc"]> ∅))]> ∅)).

Definition okGet : RequestConfig :=
  {| URL := "https://example.test/ok"; Method := "GET";
     Headers := None; Body := None |}.

Definition downGet : RequestConfig :=
  {| URL := "https://example.test/down"; Method := "GET";
     Headers := None; Body := None |}.

Definition echoPost : RequestConfig :=
  {| URL := "https://example.test/echo"; Method := "POST";
     Headers := Some 3%positive; Body := Some 2%positive |}.

Definition echoPut : RequestConfig :=
  {| URL := "https://example.test/echo"; Method := "PUT";
     Headers := None; Body := Some 2%positive |}.

Definition okCollide : RequestConfig :=
  {| URL := "https://example.test/ok"; Method := "GET";
     Headers := Some 1%positive; Body := None |}.

(** Two command lines: [-http3 -config=config.json] and
    [-config=config.json]. *)
Definition flags_http3 : Flags :=
  {| useHTTP3 := true; addr := ":8080"; http3Addr := ":8443";
     configFile := "config.json" |}.

Definition flags_config : Flags :=
  {| useHTTP3 := false; addr := ":8080"; http3Addr := ":8443";
     configFile := "config.json" |}.

(** A second network, on which [/down] is up. *)
Definition client_Do_up (w : Wire) : string + Response :=
  if String.eqb (wURL w) "https://example.test/down" then inr (inr "back")
  else client_Do w.

End TestDouble.

(** ** The request executor *)

Section Dispatcher.

(** The world outside the program. *)

(** [http.NewRequest] refuses some methods and targets; [Some msg] is the
    text of the error it returns for [method] and [url]. *)
Variable NewRequest_error : string → string → option string.

(** The network: what [client.Do] answers to a request, and what reading
    the body of that answer gives.  [inl msg] is an error. *)
Variable Response : Type.
Variable client_Do : Wire → string + Response.
Variable ioutil_ReadAll : Response → string + string.

(** [json.Marshal] on a [map[string]string] (it has no error there). *)
Variable json_Marshal : gmap string string → string.

(** The syntax of JSON: the value a text stands for, [None] for a text
    that is not valid JSON. *)
Variable json_parse : string → option json.value.

(** The order in which [range] visits the entries of a map: some order,
    every entry once.  It is taken as one function of the map; Go may
    visit the same map in another order the next time, which shows only on
    a header map with two keys of one canonical form. *)
Variable rangeOrder : gmap string string → list (string * string).

(** [http.NewRequest(method, url, body)] *)
Definition http_NewRequest (method url : string) (body : option string)
  : M (string + Request) :=
  emit (EvNewRequest method url body) ;;;
  match NewRequest_error method url with
  | Some err => ret (inl err)
  | None =>
      hl <~ alloc (CHeader ∅) ;;
      ret (inr {| reqMethod := if String.eqb method "" then "GET" else method;
                  reqURL := url; reqHeader := hl; reqBody := body |})
  end.

(** [req.Header.Set(key, value)] *)
Definition Header_Set (req : Request) (key value : string) : M unit :=
  λ h, (tt,
        <[reqHeader req :=
            CHeader (<[textproto.CanonicalMIMEHeaderKey key := [value]]>
                       (header_at h (reqHeader req)))]> h,
        [EvHeaderSet key value]).

(** [client.Do(req)] *)
Definition Do (req : Request) : M (string + Response) :=
  hd <~ read_header (reqHeader req) ;;
  let w := {| wMethod := reqMethod req; wURL := reqURL req;
              wHeader := hd; wBody := reqBody req |} in
  emit (EvDo w) ;;;
  ret (client_Do w).

Definition ReadAll (resp : Response) : M (string + string) :=
  emit EvReadAll ;;; ret (ioutil_ReadAll resp).

(** [results <- line] *)
Definition send (line : string) : M unit := emit (EvSend line).

(** The lines, as [fmt.Sprintf] builds them. *)
Definition line_creating (url err : string) : string :=
  "Error creating request for " +:+ url +:+ ": " +:+ err.
Definition line_sending (url err : string) : string :=
  "Error sending request to " +:+ url +:+ ": " +:+ err.
Definition line_reading (url err : string) : string :=
  "Error reading response from " +:+ url +:+ ": " +:+ err.
Definition line_response (url body : string) : string :=
  "Response from " +:+ url +:+ ": " +:+ body.

(** The test of line 42: [config.Method == "POST" && config.Body != nil]. *)
Definition sendsBody (config : RequestConfig) : bool :=
  String.eqb (Method config) "POST" && bool_decide (Body config ≠ None).

(** Lines 38-72: the body of [sendRequest], without its first [defer]. *)
Definition sendRequest_body (config : RequestConfig) : M unit :=
  r <~ (if sendsBody config then
          m <~ read_strmap (Body config) ;;
          let bodyData := json_Marshal m in
          http_NewRequest (Method config) (URL config) (Some bodyData)
        else
          http_NewRequest (Method config) (URL config) None) ;;
  match r with
  | inl err => send (line_creating (URL config) err)
  | inr req =>
      hs <~ read_strmap (Headers config) ;;
      forEach (rangeOrder hs) (λ kv, Header_Set req kv.1 kv.2) ;;;
      resp <~ Do req ;;
      match resp with
      | inl err => send (line_sending (URL config) err)
      | inr resp =>
          (* defer resp.Body.Close() *)
          (body <~ ReadAll resp ;;
           match body with
           | inl err => send (line_reading (URL config) err)
           | inr body => send (line_response (URL config) body)
           end) ;;;
          emit EvBodyClose
      end
  end.

(** [func sendRequest(config RequestConfig, wg *sync.WaitGroup,
    results chan<- string)]: [defer wg.Done()] runs last on every path. *)
Definition sendRequest (config : RequestConfig) : M unit :=
  sendRequest_body config ;;; emit EvWgDone.

(** *** What a run amounts to

    The functions below are read off the code path by path; the lemma
    [sendRequest_run] proves that they describe [sendRequest]. *)

(** The headers on the request after the loop of lines 54-56. *)
Definition applyHeaders (kvs : list (string * string))
    (hd : gmap string (list string)) : gmap string (list string) :=
  foldl (λ hd kv, <[textproto.CanonicalMIMEHeaderKey kv.1 := [kv.2]]> hd)
        hd kvs.

Definition payloadOf (h : heap) (config : RequestConfig) : option string :=
  if sendsBody config then Some (json_Marshal (strmap_at h (Body config)))
  else None.

Definition wireOf (h : heap) (config : RequestConfig) : Wire :=
  {| wMethod := if String.eqb (Method config) "" then "GET"
                else Method config;
     wURL := URL config;
     wHeader := applyHeaders (rangeOrder (strmap_at h (Headers config))) ∅;
     wBody := payloadOf h config |}.

(** The line that is sent. *)
Definition resultLine (h : heap) (config : RequestConfig) : string :=
  match NewRequest_error (Method config) (URL config) with
  | Some err => line_creating (URL config) err
  | None =>
      match client_Do (wireOf h config) with
      | inl err => line_sending (URL config) err
      | inr resp =>
          match ioutil_ReadAll resp with
          | inl err => line_reading (URL config) err
          | inr body => line_response (URL config) body
          end
      end
  end.

(** The calls that are made. *)
Definition resultLog (h : heap) (config : RequestConfig) : list event :=
  EvNewRequest (Method config) (URL config) (payloadOf h config) ::
  match NewRequest_error (Method config) (URL config) with
  | Some err => [EvSend (resultLine h config)]
  | None =>
      map (λ kv, EvHeaderSet kv.1 kv.2)
          (rangeOrder (strmap_at h (Headers config))) ++
      EvDo (wireOf h config) ::
      match client_Do (wireOf h config) with
      | inl err => [EvSend (resultLine h config)]
      | inr resp => [EvReadAll; EvSend (resultLine h config); EvBodyClose]
      end
  end ++ [EvWgDone].

(** The heap afterwards: one new cell, the header of the request, when a
    request was constructed. *)
Definition resultHeap (h : heap) (config : RequestConfig) : heap :=
  match NewRequest_error (Method config) (URL config) with
  | Some err => h
  | None => <[fresh (dom h) := CHeader (wHeader (wireOf h config))]> h
  end.

(** ** The dispatch engine

    Lines 93-108 of [handleAPIRequest] (and 169-184 of [main], the same
    code with [fmt.Println] for [fmt.Fprintln(w, ...)]):

    - the calling goroutine adds one to the wait group and starts one
      [sendRequest] goroutine per element of [config.Requests], waits for
      the group and closes [results];
    - a goroutine ranges over [results] and prints each line it receives;
    - [results] is unbuffered: a send completes when the receiver takes
      the value.

    A state of the program holds the position of each goroutine; [step]
    is one move of one of them. *)

(** The calling goroutine. *)
Inductive mainpc :=
| MLoop (i : nat)                        (* [for _, reqConfig := range], at index i *)
| MGo (reqConfig : RequestConfig) (i : nat)
                                         (* after [wg.Add(1)], before [go] *)
| MWait                                  (* at [wg.Wait()] *)
| MClose                                 (* at [close(results)] *)
| MDone.                                 (* returned *)

(** A [sendRequest] goroutine: not yet run, or with calls left to make.
    The calls before the send work on the request of this goroutine and
    read the maps of its descriptor; they are taken in one step
    ([worker_start]), and the log then plays out call by call. *)
Inductive worker :=
| WStart (config : RequestConfig)
| WRun (config : RequestConfig) (todo : list event).

(** The goroutine of lines 96-100. *)
Inductive consumer :=
| CRecv                                  (* blocked in [range results] *)
| CPrint (result : string)               (* at [fmt.Fprintln(w, result)] *)
| CExit.                                 (* the range loop has ended *)

Record state := {
  batchS : list RequestConfig;           (* [config.Requests], the caller's slice *)
  heapS : heap;
  mainS : mainpc;
  wgS : nat;                             (* counter of [wg] *)
  workersS : list worker;
  closedS : bool;                        (* [results] is closed *)
  consumerS : consumer;
  deliveredS : list string;              (* values received from [results], in order *)
  sinkS : list string;                   (* lines written to [w] *)
  panicS : bool                          (* a goroutine has panicked *)
}.

Definition set_main (pc : mainpc) (s : state) : state :=
  {| batchS := batchS s; heapS := heapS s; mainS := pc; wgS := wgS s;
     workersS := workersS s; closedS := closedS s;
     consumerS := consumerS s; deliveredS := deliveredS s;
     sinkS := sinkS s; panicS := panicS s |}.
Definition set_wg (n : nat) (s : state) : state :=
  {| batchS := batchS s; heapS := heapS s; mainS := mainS s; wgS := n;
     workersS := workersS s; closedS := closedS s;
     consumerS := consumerS s; deliveredS := deliveredS s;
     sinkS := sinkS s; panicS := panicS s |}.
Definition set_workers (ws : list worker) (s : state) : state :=
  {| batchS := batchS s; heapS := heapS s; mainS := mainS s; wgS := wgS s;
     workersS := ws; closedS := closedS s;
     consumerS := consumerS s; deliveredS := deliveredS s;
     sinkS := sinkS s; panicS := panicS s |}.
Definition set_heap (h : heap) (s : state) : state :=
  {| batchS := batchS s; heapS := h; mainS := mainS s; wgS := wgS s;
     workersS := workersS s; closedS := closedS s;
     consumerS := consumerS s; deliveredS := deliveredS s;
     sinkS := sinkS s; panicS := panicS s |}.
Definition set_closed (s : state) : state :=
  {| batchS := batchS s; heapS := heapS s; mainS := mainS s; wgS := wgS s;
     workersS := workersS s; closedS := true;
     consumerS := consumerS s; deliveredS := deliveredS s;
     sinkS := sinkS s; panicS := panicS s |}.
Definition set_consumer (c : consumer) (s : state) : state :=
  {| batchS := batchS s; heapS := heapS s; mainS := mainS s; wgS := wgS s;
     workersS := workersS s; closedS := closedS s;
     consumerS := c; deliveredS := deliveredS s;
     sinkS := sinkS s; panicS := panicS s |}.
Definition deliver (line : string) (s : state) : state :=
  {| batchS := batchS s; heapS := heapS s; mainS := mainS s; wgS := wgS s;
     workersS := workersS s; closedS := closedS s;
     consumerS := CPrint line; deliveredS := deliveredS s ++ [line];
     sinkS := sinkS s; panicS := panicS s |}.
Definition print (line : string) (s : state) : state :=
  {| batchS := batchS s; heapS := heapS s; mainS := mainS s; wgS := wgS s;
     workersS := workersS s; closedS := closedS s;
     consumerS := CRecv; deliveredS := deliveredS s;
     sinkS := sinkS s ++ [line]; panicS := panicS s |}.
Definition set_panic (s : state) : state :=
  {| batchS := batchS s; heapS := heapS s; mainS := mainS s; wgS := wgS s;
     workersS := workersS s; closedS := closedS s;
     consumerS := consumerS s; deliveredS := deliveredS s;
     sinkS := sinkS s; panicS := true |}.

(** The state at line 102: the wait group at zero, the channel open, the
    printing goroutine started. *)
Definition init (batch : list RequestConfig) (h : heap) : state :=
  {| batchS := batch; heapS := h; mainS := MLoop 0; wgS := 0;
     workersS := []; closedS := false; consumerS := CRecv;
     deliveredS := []; sinkS := []; panicS := false |}.

(** A call that involves no other goroutine. *)
Definition isLocal (e : event) : bool :=
  match e with EvSend _ | EvWgDone => false | _ => true end.

Inductive step : state → state → Prop :=
(* the calling goroutine *)
| main_add s i reqConfig :
    panicS s = false → mainS s = MLoop i →
    batchS s !! i = Some reqConfig →
    step s (set_main (MGo reqConfig (S i)) (set_wg (S (wgS s)) s))
| main_go s i reqConfig :
    panicS s = false → mainS s = MGo reqConfig i →
    step s (set_main (MLoop i)
              (set_workers (workersS s ++ [WStart reqConfig]) s))
| main_loop_end s i :
    panicS s = false → mainS s = MLoop i → batchS s !! i = None →
    step s (set_main MWait s)
| main_wait s :
    panicS s = false → mainS s = MWait → wgS s = 0 →
    step s (set_main MClose s)
| main_close s :
    panicS s = false → mainS s = MClose →
    step s (set_main MDone (set_closed s))
(* a [sendRequest] goroutine *)
| worker_start s k config :
    panicS s = false → workersS s !! k = Some (WStart config) →
    step s (set_workers
              (<[k := WRun config (log_of (sendRequest config (heapS s)))]>
                 (workersS s))
              (set_heap (heap_of (sendRequest config (heapS s))) s))
| worker_local s k c e todo :
    panicS s = false → workersS s !! k = Some (WRun c (e :: todo)) →
    isLocal e = true →
    step s (set_workers (<[k := WRun c todo]> (workersS s)) s)
| worker_send s k c line todo :
    panicS s = false →
    workersS s !! k = Some (WRun c (EvSend line :: todo)) →
    closedS s = false → consumerS s = CRecv →
    step s (set_workers (<[k := WRun c todo]> (workersS s))
              (deliver line s))
| worker_send_closed s k c line todo : (* send on a closed channel *)
    panicS s = false →
    workersS s !! k = Some (WRun c (EvSend line :: todo)) →
    closedS s = true →
    step s (set_panic s)
| worker_done s k c todo n :
    panicS s = false →
    workersS s !! k = Some (WRun c (EvWgDone :: todo)) → wgS s = S n →
    step s (set_workers (<[k := WRun c todo]> (workersS s)) (set_wg n s))
| worker_done_negative s k c todo :    (* negative WaitGroup counter *)
    panicS s = false →
    workersS s !! k = Some (WRun c (EvWgDone :: todo)) → wgS s = 0 →
    step s (set_panic s)
(* the printing goroutine; a write that comes after the caller has
   returned is a move like any other: what [w] does with it then is not
   in the source *)
| consumer_print s line :
    panicS s = false → consumerS s = CPrint line →
    step s (print line s)
| consumer_exit s :
    panicS s = false → consumerS s = CRecv → closedS s = true →
    step s (set_consumer CExit s).

(** Runs of the program. *)
Inductive steps : nat → state → state → Prop :=
| steps_O s : steps 0 s s
| steps_S n s1 s2 s3 : step s1 s2 → steps n s2 s3 → steps (S n) s1 s3.

Definition reachable (batch : list RequestConfig) (h : heap) (s : state)
  : Prop := ∃ n, steps n (init batch h) s.

(** Every goroutine has run to its end. *)
Definition finished (w : worker) : bool :=
  match w with WRun _ [] => true | _ => false end.

Definition final (s : state) : Prop :=
  mainS s = MDone ∧ consumerS s = CExit ∧
  Forall (λ w, finished w = true) (workersS s).

(** *** Running a schedule

    The same moves as a function: which goroutine moves next is given, what
    the move does is computed.  [None]: that goroutine is blocked, has
    ended, or the program has panicked. *)
Inductive move :=
| MvMain
| MvWorker (k : nat)
| MvConsumer.

Definition exec_main (s : state) : option state :=
  match mainS s with
  | MLoop i =>
      match batchS s !! i with
      | Some reqConfig =>
          Some (set_main (MGo reqConfig (S i)) (set_wg (S (wgS s)) s))
      | None => Some (set_main MWait s)
      end
  | MGo reqConfig i =>
      Some (set_main (MLoop i)
              (set_workers (workersS s ++ [WStart reqConfig]) s))
  | MWait =>
      match wgS s with
      | 0 => Some (set_main MClose s)
      | S _ => None
      end
  | MClose => Some (set_main MDone (set_closed s))
  | MDone => None
  end.

Definition exec_worker (k : nat) (s : state) : option state :=
  match workersS s !! k with
  | Some (WStart config) =>
      Some (set_workers
              (<[k := WRun config (log_of (sendRequest config (heapS s)))]>
                 (workersS s))
              (set_heap (heap_of (sendRequest config (heapS s))) s))
  | Some (WRun c (EvSend line :: todo)) =>
      if closedS s then Some (set_panic s)
      else match consumerS s with
           | CRecv =>
               Some (set_workers (<[k := WRun c todo]> (workersS s))
                       (deliver line s))
           | _ => None
           end
  | Some (WRun c (EvWgDone :: todo)) =>
      match wgS s with
      | S n =>
          Some (set_workers (<[k := WRun c todo]> (workersS s)) (set_wg n s))
      | 0 => Some (set_panic s)
      end
  | Some (WRun c (_ :: todo)) =>
      Some (set_workers (<[k := WRun c todo]> (workersS s)) s)
  | Some (WRun _ []) | None => None
  end.

Definition exec_consumer (s : state) : option state :=
  match consumerS s with
  | CPrint line => Some (print line s)
  | CRecv => if closedS s then Some (set_consumer CExit s) else None
  | CExit => None
  end.

Definition exec (m : move) (s : state) : option state :=
  if panicS s then None
  else match m with
       | MvMain => exec_main s
       | MvWorker k => exec_worker k s
       | MvConsumer => exec_consumer s
       end.

Fixpoint run (ms : list move) (s : state) : option state :=
  match ms with
  | [] => Some s
  | m :: ms' =>
      match exec m s with
      | Some s' => run ms' s'
      | None => None
      end
  end.

(** *** The invariant of the engine *)

(** Where a goroutine stands in its log: the send and the deferred
    [wg.Done()] still to come, or only the latter. *)
Fixpoint afterSend (todo : list event) : bool :=
  match todo with
  | [] => false
  | EvWgDone :: t => match t with [] => true | _ => false end
  | EvSend _ :: _ => false
  | _ :: t => afterSend t
  end.

Fixpoint beforeSend (line : string) (todo : list event) : bool :=
  match todo with
  | [] => false
  | EvSend l :: t => String.eqb l line && afterSend t
  | EvWgDone :: _ => false
  | _ :: t => beforeSend line t
  end.

Definition config_of (w : worker) : RequestConfig :=
  match w with WStart c => c | WRun c _ => c end.

Section Invariant.
Variable batch : list RequestConfig.
Variable h0 : heap.

Definition needsSend (w : worker) : bool :=
  match w with
  | WStart _ => true
  | WRun c todo => beforeSend (resultLine h0 c) todo
  end.

Definition needsDone (w : worker) : bool := negb (finished w).

Definition worker_ok (w : worker) : Prop :=
  match w with
  | WStart _ => True
  | WRun c todo =>
      beforeSend (resultLine h0 c) todo || afterSend todo
      || finished w = true
  end.

(** The lines of the goroutines that have completed their send. *)
Definition sentLines (ws : list worker) : list string :=
  omap (λ w, if needsSend w then None
             else Some (resultLine h0 (config_of w))) ws.

Definition doneCount (ws : list worker) : nat :=
  length (filter (λ w, needsDone w = true) ws).

(** The cells of [h0] are as they were; a cell that was not in [h0] is
    the header of some request. *)
Definition heap_ext (h : heap) : Prop :=
  ∀ l, h !! l = h0 !! l ∨
       (h0 !! l = None ∧ ∃ hd, h !! l = Some (CHeader hd)).

Definition main_ok (s : state) : Prop :=
  match mainS s with
  | MLoop i =>
      config_of <$> workersS s = take i batch ∧ i ≤ length batch ∧
      wgS s = doneCount (workersS s)
  | MGo c i =>
      (config_of <$> workersS s) ++ [c] = take i batch ∧
      i ≤ length batch ∧ wgS s = S (doneCount (workersS s))
  | MWait =>
      config_of <$> workersS s = batch ∧
      wgS s = doneCount (workersS s)
  | MClose | MDone =>
      config_of <$> workersS s = batch ∧ wgS s = 0 ∧
      Forall (λ w, finished w = true) (workersS s)
  end.

Definition consumer_ok (s : state) : Prop :=
  match consumerS s with
  | CRecv => deliveredS s = sinkS s
  | CPrint line => deliveredS s = sinkS s ++ [line]
  | CExit => deliveredS s = sinkS s ∧ closedS s = true
  end.

Record inv (s : state) : Prop := {
  inv_batch : batchS s = batch;
  inv_panic : panicS s = false;
  inv_heap : heap_ext (heapS s);
  inv_workers : Forall worker_ok (workersS s);
  inv_main : main_ok s;
  inv_closed : closedS s = true ↔ mainS s = MDone;
  inv_delivered : deliveredS s ≡ₚ sentLines (workersS s);
  inv_consumer : consumer_ok s
}.

(** *** A bound on the length of a run *)

Definition startWeight (c : RequestConfig) : nat :=
  2 * length (resultLog h0 c) + 1.

Definition workerWeight (w : worker) : nat :=
  match w with
  | WStart c => startWeight c
  | WRun _ todo => 2 * length todo
  end.

Definition mainWeight (pc : mainpc) : nat :=
  match pc with
  | MLoop i => sum_list_with (λ c, startWeight c + 2) (drop i batch) + 3
  | MGo c i =>
      startWeight c + 1 +
      sum_list_with (λ c, startWeight c + 2) (drop i batch) + 3
  | MWait => 2
  | MClose => 1
  | MDone => 0
  end.

Definition consumerWeight (c : consumer) : nat :=
  match c with CRecv => 1 | CPrint _ => 2 | CExit => 0 end.

Definition weight (s : state) : nat :=
  (if panicS s then 0 else 1) + mainWeight (mainS s) +
  sum_list_with workerWeight (workersS s) + consumerWeight (consumerS s).

End Invariant.

(** The members of a JSON object of strings. *)
Definition stringEntries (kvs : list (string * string))
  : list (string * json.value) :=
  (λ kv, (kv.1, json.String kv.2)) <$> kvs.

(** What a receiver gets back from a payload with
    [var m map[string]string; err := json.Unmarshal(payload, &m)]. *)
Definition Unmarshal_map (payload : string)
  : gmap string string * option json.error :=
  match json_parse payload with
  | None => (∅, Some json.SyntaxError)
  | Some v =>
      let res := decodeStringMap v None ∅ in
      (strmap_at (heap_of res) (val_of res).1, (val_of res).2)
  end.

(** [req.Header.Get(key)] on the headers handed to [client.Do]. *)
Definition Header_Get (hd : gmap string (list string)) (key : string)
  : string :=
  match hd !! textproto.CanonicalMIMEHeaderKey key with
  | Some (v :: _) => v
  | _ => ""
  end.

(** ** The server path *)

(** [func loadConfigFromBody(body []byte) (Config, error)] *)
Definition loadConfigFromBody (body : string)
  : M (Config * option json.error) :=
  match json_parse body with
  | None => ret (Config_zero, Some json.SyntaxError)
  | Some v => decodeConfig v Config_zero
  end.

(** The inbound request, as far as the handler reads it: the method, and
    what [ioutil.ReadAll(r.Body)] gives ([inl] is an error). *)
Record Inbound := {
  inMethod : string;
  inBody : string + string
}.

(** What the handler does before the dispatch. *)
Inductive hevent :=
| HReadAll                               (* [ioutil.ReadAll(r.Body)] *)
| HLoadConfig (body : string)            (* [loadConfigFromBody(body)] *)
| HError (msg : string) (code : nat).    (* [http.Error(w, msg, code)] *)

Inductive handled :=
| Refused                                (* returned after [http.Error] *)
| Dispatching (s : state).               (* at line 102 *)

Definition StatusMethodNotAllowed : nat := 405.
Definition StatusBadRequest : nat := 400.

(** Lines 75-94 of [handleAPIRequest]. *)
Definition handleAPIRequest (r : Inbound) (h : heap)
  : list hevent * handled :=
  if negb (String.eqb (inMethod r) "POST") then
    ([HError "Only POST method is supported" StatusMethodNotAllowed],
     Refused)
  else
    match inBody r with
    | inl err =>
        ([HReadAll; HError "Failed to read request body" StatusBadRequest],
         Refused)
    | inr body =>
        let res := loadConfigFromBody body h in
        match (val_of res).2 with
        | Some err =>
            ([HReadAll; HLoadConfig body;
              HError "Failed to parse request body" StatusBadRequest],
             Refused)
        | None =>
            ([HReadAll; HLoadConfig body],
             Dispatching (init (Requests (val_of res).1) (heap_of res)))
        end
    end.

(** *** A batch as a configuration file writes it

    The format of the README: [url], [method], [headers] and, for some
    descriptors, [body]. *)
Record Written := {
  wrURL : string;
  wrMethod : string;
  wrHeaders : list (string * string);
  wrBody : option (list (string * string))
}.

Definition writtenJSON (d : Written) : json.value :=
  json.Object
    ([("url", json.String (wrURL d)); ("method", json.String (wrMethod d));
      ("headers", json.Object (stringEntries (wrHeaders d)))] ++
     match wrBody d with
     | Some b => [("body", json.Object (stringEntries b))]
     | None => []
     end).

Definition batchJSON (ds : list Written) : json.value :=
  json.Object [("requests", json.Array (writtenJSON <$> ds))].

(** The map that a list of entries fills, the later entry winning. *)
Definition filled (kvs : list (string * string)) : gmap string string :=
  foldl (λ m kv, <[kv.1 := kv.2]> m) ∅ kvs.

(** The maps a descriptor refers to; a cell that holds a
    [map[string]string]; a descriptor whose maps are cells made after
    [h0]. *)
Definition mapLocs (c : RequestConfig) : list loc :=
  option_list (Headers c) ++ option_list (Body c).

Definition isStrMap (h : heap) (l : loc) : Prop :=
  ∃ m, h !! l = Some (CStrMap m).

Definition madeAfter (h0 h : heap) (r : option loc) : Prop :=
  ∀ l, r = Some l → h0 !! l = None ∧ isStrMap h l.

Definition madeBy (h0 h : heap) (c : RequestConfig) : Prop :=
  madeAfter h0 h (Headers c) ∧ madeAfter h0 h (Body c).

(** A decoded descriptor holds what was written: a map that is not nil
    and holds the entries, or for an absent body the nil map. *)
Definition holds (h : heap) (r : option loc) (kvs : list (string * string))
  : Prop :=
  ∃ l, r = Some l ∧ h !! l = Some (CStrMap (filled kvs)).

Definition reads (h : heap) (d : Written) (c : RequestConfig) : Prop :=
  URL c = wrURL d ∧ Method c = wrMethod d ∧
  holds h (Headers c) (wrHeaders d) ∧
  match wrBody d with
  | Some b => holds h (Body c) b
  | None => Body c = None
  end.

(** The request that lines 38-58 build for a written descriptor. *)
Definition wireWritten (d : Written) : Wire :=
  {| wMethod := if String.eqb (wrMethod d) "" then "GET" else wrMethod d;
     wURL := wrURL d;
     wHeader := applyHeaders (rangeOrder (filled (wrHeaders d))) ∅;
     wBody := match wrBody d with
              | Some b =>
                  if String.eqb (wrMethod d) "POST"
                  then Some (json_Marshal (filled b)) else None
              | None => None
              end |}.

(** ** The command *)

(** The file system and the key loader. *)
Variable os_Stat : string → option oserror.
Variable tls_LoadX509KeyPair : string → string → option string.
Variable ioutil_ReadFile : string → string + string.

(** What a call of [ListenAndServeTLS] comes to, on the HTTP/1.1 server
    and on the HTTP/3 server: the error it returns with, or [None] when it
    serves without end. *)
Variable server_ListenAndServeTLS : string → string → string → option string.
Variable quic_ListenAndServeTLS : string → string → string → option string.

(** [err.Error()] of an error of [json.Unmarshal]. *)
Variable json_errorText : json.error → string.

(** How the calling goroutine of [main] ends. *)
Inductive mainResult :=
| Exited                                 (* after [log.Fatal]: exit status 1 *)
| Serving                                (* in [quicServer.ListenAndServeTLS],
                                            which does not return *)
| DispatchingCLI (s : state).            (* at line 178 *)

(** Lines 121-156, the branch of [-http3]: the calls of the calling
    goroutine.  [log.Fatalf] and [log.Fatal] end the program. *)
Definition main_http3 (flags : Flags) : list action * mainResult :=
  andThen [APrintln ("Using cert.pem path:" +:+ " " +:+ certPath);
           APrintln ("Using key.pem path:" +:+ " " +:+ keyPath);
           AStat certPath]
    (if os_IsNotExist (os_Stat certPath) then
       ([AFatal ("cert.pem file does not exist at: " +:+ certPath)], Exited)
     else
       andThen [AStat keyPath]
         (if os_IsNotExist (os_Stat keyPath) then
            ([AFatal ("key.pem file does not exist at: " +:+ keyPath)],
             Exited)
          else
            andThen [AGoServe (addr flags) certPath keyPath;
                     ALoadKeyPair certPath keyPath]
              (match tls_LoadX509KeyPair certPath keyPath with
               | Some err =>
                   ([AFatal ("Failed to load TLS certificates: " +:+ err)],
                    Exited)
               | None =>
                   andThen
                     [ALogPrintf ("Starting HTTP/3 server on "
                                  +:+ http3Addr flags);
                      AServeHTTP3 (http3Addr flags) certPath keyPath]
                     (match quic_ListenAndServeTLS (http3Addr flags)
                              certPath keyPath with
                      | Some err => ([AFatal err], Exited)
                      | None => ([], Serving)
                      end)
               end))).

(** Lines 135-142: the calls of the goroutine of the HTTP/1.1 server. *)
Definition http1_goroutine (flags : Flags) : list action :=
  [ALogPrintf ("Starting HTTP/1.1 and HTTP/2 server on " +:+ addr flags);
   AListenAndServeTLS (addr flags) certPath keyPath] ++
  match server_ListenAndServeTLS (addr flags) certPath keyPath with
  | Some err => [AFatal err]
  | None => []
  end.

(** The program under [-http3]: the calls that the calling goroutine and
    the goroutine of the HTTP/1.1 server have still to make, the calls
    made so far in the order made, and whether the program has exited.  A
    goroutine with no call left is in a [ListenAndServeTLS] that does not
    return. *)
Record proc := {
  mainT : list action;
  goT : option (list action);            (* [None]: not started *)
  traceP : list action;
  exitedP : bool
}.

Definition proc_init (flags : Flags) : proc :=
  {| mainT := (main_http3 flags).1; goT := None; traceP := [];
     exitedP := false |}.

(** One call of one of the two goroutines; [log.Fatal] in either ends the
    program.  A call is taken as one move. *)
Inductive pstep (flags : Flags) : proc → proc → Prop :=
| p_main p a rest :
    exitedP p = false → mainT p = a :: rest →
    pstep flags p
      {| mainT := rest;
         goT := match a with
                | AGoServe _ _ _ => Some (http1_goroutine flags)
                | _ => goT p
                end;
         traceP := traceP p ++ [a]; exitedP := isFatal a |}
| p_go p a rest :
    exitedP p = false → goT p = Some (a :: rest) →
    pstep flags p
      {| mainT := mainT p; goT := Some rest;
         traceP := traceP p ++ [a]; exitedP := isFatal a |}.

Definition preachable (flags : Flags) (p : proc) : Prop :=
  rtc (pstep flags) (proc_init flags) p.

(** The same as a function: [true] moves the calling goroutine, [false]
    the goroutine of the HTTP/1.1 server. *)
Definition pexec (flags : Flags) (who : bool) (p : proc) : option proc :=
  if exitedP p then None
  else if who then
    match mainT p with
    | a :: rest =>
        Some {| mainT := rest;
                goT := match a with
                       | AGoServe _ _ _ => Some (http1_goroutine flags)
                       | _ => goT p
                       end;
                traceP := traceP p ++ [a]; exitedP := isFatal a |}
    | [] => None
    end
  else
    match goT p with
    | Some (a :: rest) =>
        Some {| mainT := mainT p; goT := Some rest;
                traceP := traceP p ++ [a]; exitedP := isFatal a |}
    | _ => None
    end.

Fixpoint prun (flags : Flags) (sched : list bool) (p : proc) : option proc :=
  match sched with
  | [] => Some p
  | who :: sched' =>
      match pexec flags who p with
      | Some p' => prun flags sched' p'
      | None => None
      end
  end.

(** Lines 157-177: the branch of [-config], up to the dispatch. *)
Definition main_cli (flags : Flags) (h : heap) : list action * mainResult :=
  andThen [AReadFile (configFile flags)]
    (match ioutil_ReadFile (configFile flags) with
     | inl err => ([AFatal ("Error reading config file: " +:+ err)], Exited)
     | inr configData =>
         andThen [ALoadConfig configData]
           (let res := loadConfigFromBody configData h in
            match (val_of res).2 with
            | Some err =>
                ([AFatal ("Error loading config: " +:+ json_errorText err)],
                 Exited)
            | None =>
                ([], DispatchingCLI
                       (init (Requests (val_of res).1) (heap_of res)))
            end)
     end).

(** [func main()], after [flag.Parse()]. *)
Definition main (flags : Flags) (h : heap) : list action * mainResult :=
  if useHTTP3 flags then main_http3 flags
  else if negb (String.eqb (configFile flags) "") then main_cli flags h
  else
    ([AFatal
        "Usage: api-dispatcher -config=<config-file> or api-dispatcher -http3"],
     Exited).

(** ** Proofs: the executor *)

Lemma forEach_Header_Set req kvs h hd0 :
  h !! reqHeader req = Some (CHeader hd0) →
  forEach kvs (λ kv, Header_Set req kv.1 kv.2) h =
    (tt, <[reqHeader req := CHeader (applyHeaders kvs hd0)]> h,
     map (λ kv, EvHeaderSet kv.1 kv.2) kvs).
Proof.
  revert h hd0. induction kvs as [|[k v] kvs IH]; intros h hd0 Hh; simpl.
  - unfold ret. by rewrite insert_id.
  - unfold bind, Header_Set at 1. simpl.
    unfold header_at at 1. rewrite Hh.
    erewrite IH by apply lookup_insert_eq.
    by rewrite insert_insert_eq.
Qed.

Lemma fresh_dom_None (h : heap) : h !! fresh (dom h) = None.
Proof. apply not_elem_of_dom, is_fresh. Qed.

Lemma sendRequest_run config h :
  sendRequest config h = (tt, resultHeap h config, resultLog h config).
Proof.
  unfold sendRequest, sendRequest_body, resultHeap, resultLog, resultLine.
  set (hs := rangeOrder (strmap_at h (Headers config))).
  assert (Hnew : ∀ p,
    http_NewRequest (Method config) (URL config) p h =
    match NewRequest_error (Method config) (URL config) with
    | Some err => (inl err, h, [EvNewRequest (Method config) (URL config) p])
    | None =>
        (inr {| reqMethod := if String.eqb (Method config) "" then "GET"
                             else Method config;
                reqURL := URL config; reqHeader := fresh (dom h);
                reqBody := p |},
         <[fresh (dom h) := CHeader ∅]> h,
         [EvNewRequest (Method config) (URL config) p])
    end).
  { intros p. unfold http_NewRequest, bind, emit, alloc, ret.
    by destruct (NewRequest_error _ _). }
  assert (Hfirst :
    (if sendsBody config
     then m <~ read_strmap (Body config) ;;
          http_NewRequest (Method config) (URL config)
            (Some (json_Marshal m))
     else http_NewRequest (Method config) (URL config) None) h =
    http_NewRequest (Method config) (URL config) (payloadOf h config) h).
  { unfold payloadOf. destruct (sendsBody config); [|done].
    unfold bind at 1, read_strmap.
    by destruct (http_NewRequest _ _ _ h) as [[??]?]. }
  unfold bind at 1. unfold bind at 1. rewrite Hfirst, Hnew.
  destruct (NewRequest_error _ _) as [err|] eqn:Herr.
  { by unfold send, emit. }
  set (req := {| reqHeader := fresh (dom h) |}).
  set (h1 := <[fresh (dom h) := CHeader ∅]> h).
  unfold bind at 1, read_strmap at 1.
  assert (Hs : strmap_at h1 (Headers config) = strmap_at h (Headers config)).
  { unfold strmap_at, h1. destruct (Headers config) as [l|]; [|done].
    destruct (decide (l = fresh (dom h))) as [->|Hne].
    - by rewrite lookup_insert_eq, fresh_dom_None.
    - by rewrite lookup_insert_ne. }
  rewrite Hs. fold hs.
  unfold bind at 1.
  rewrite (forEach_Header_Set req hs h1 ∅) by apply lookup_insert_eq.
  unfold h1. rewrite insert_insert_eq. simpl.
  fold (applyHeaders hs ∅).
  unfold bind at 1, Do, bind at 1, read_header, header_at. simpl.
  rewrite lookup_insert_eq. unfold bind at 1, emit, ret. simpl.
  change {| wMethod := _; wURL := _; wHeader := _; wBody := _ |}
    with (wireOf h config).
  destruct (client_Do (wireOf h config)) as [err|resp].
  { unfold send, emit. simpl. by rewrite <- app_assoc. }
  unfold bind, ReadAll, bind, emit, ret, send, emit. simpl.
  destruct (ioutil_ReadAll resp); simpl; by rewrite <- app_assoc.
Qed.

(** The log of a run: calls of this goroutine alone, the send, calls of
    this goroutine alone, the deferred [wg.Done()]. *)
Lemma beforeSend_local line A rest :
  Forall (λ e, isLocal e = true) A →
  beforeSend line (A ++ rest) = beforeSend line rest.
Proof.
  induction 1 as [|e A He _ IH]; [done|].
  simpl. by destruct e.
Qed.

Lemma afterSend_local A rest :
  Forall (λ e, isLocal e = true) A →
  afterSend (A ++ rest) = afterSend rest.
Proof.
  induction 1 as [|e A He _ IH]; [done|].
  simpl. by destruct e.
Qed.

Lemma resultLog_beforeSend h config :
  beforeSend (resultLine h config) (resultLog h config) = true.
Proof.
  unfold resultLog. simpl.
  destruct (NewRequest_error _ _); simpl.
  { by rewrite String.eqb_refl. }
  rewrite <- app_assoc, beforeSend_local.
  2:{ apply Forall_forall. intros e [kv [-> _]]%list_elem_of_fmap. done. }
  simpl. destruct (client_Do _); simpl; by rewrite String.eqb_refl.
Qed.

(** *** Heaps that extend the caller's heap *)

Lemma heap_ext_refl h0 : heap_ext h0 h0.
Proof. intros l. by left. Qed.

Lemma strmap_at_ext h0 h r :
  heap_ext h0 h → strmap_at h r = strmap_at h0 r.
Proof.
  intros Hext. destruct r as [l|]; [|done]. simpl.
  destruct (Hext l) as [->|[-> [hd ->]]]; done.
Qed.

Lemma payloadOf_ext h0 h config :
  heap_ext h0 h → payloadOf h config = payloadOf h0 config.
Proof. intros Hext. unfold payloadOf. by rewrite (strmap_at_ext h0 h). Qed.

Lemma wireOf_ext h0 h config :
  heap_ext h0 h → wireOf h config = wireOf h0 config.
Proof.
  intros Hext. unfold wireOf.
  by rewrite (payloadOf_ext h0 h), (strmap_at_ext h0 h).
Qed.

Lemma resultLine_ext h0 h config :
  heap_ext h0 h → resultLine h config = resultLine h0 config.
Proof. intros Hext. unfold resultLine. by rewrite (wireOf_ext h0 h). Qed.

Lemma resultLog_ext h0 h config :
  heap_ext h0 h → resultLog h config = resultLog h0 config.
Proof.
  intros Hext. unfold resultLog.
  by rewrite (payloadOf_ext h0 h), (wireOf_ext h0 h),
    (resultLine_ext h0 h), (strmap_at_ext h0 h).
Qed.

Lemma heap_ext_resultHeap h0 h config :
  heap_ext h0 h → heap_ext h0 (resultHeap h config).
Proof.
  intros Hext l. unfold resultHeap.
  destruct (NewRequest_error _ _); [apply Hext|].
  destruct (decide (l = fresh (dom h))) as [->|Hne].
  - rewrite lookup_insert_eq. right. split; [|eauto].
    destruct (Hext (fresh (dom h))) as [<-|[? _]]; [|done].
    apply fresh_dom_None.
  - rewrite lookup_insert_ne by done. apply Hext.
Qed.

(** ** Proofs: the engine *)

Lemma insert_split {A} (l : list A) k x y :
  l !! k = Some x →
  ∃ l1 l2, l = l1 ++ x :: l2 ∧ <[k := y]> l = l1 ++ y :: l2.
Proof.
  intros Hk. exists (take k l), (drop (S k) l). split.
  - by rewrite take_drop_middle.
  - apply insert_take_drop. by eapply lookup_lt_Some.
Qed.

Section EngineProofs.
Variable batch : list RequestConfig.
Variable h0 : heap.

Lemma doneCount_app ws1 ws2 :
  doneCount (ws1 ++ ws2) = doneCount ws1 + doneCount ws2.
Proof. unfold doneCount. by rewrite filter_app, length_app. Qed.

Lemma doneCount_cons w ws :
  doneCount (w :: ws) = (if needsDone w then 1 else 0) + doneCount ws.
Proof.
  unfold doneCount. rewrite filter_cons.
  destruct (needsDone w); by case_decide.
Qed.

Lemma doneCount_0 ws :
  doneCount ws = 0 → Forall (λ w, finished w = true) ws.
Proof.
  induction ws as [|w ws IH]; [by constructor|].
  rewrite doneCount_cons. unfold needsDone at 1.
  destruct (finished w) eqn:Hf; simpl; [|lia].
  intros H. constructor; auto.
Qed.

Lemma doneCount_finished ws :
  Forall (λ w, finished w = true) ws → doneCount ws = 0.
Proof.
  induction 1 as [|w ws Hw _ IH]; [done|].
  rewrite doneCount_cons. unfold needsDone. by rewrite Hw.
Qed.

Lemma sentLines_app ws1 ws2 :
  sentLines h0 (ws1 ++ ws2) = sentLines h0 ws1 ++ sentLines h0 ws2.
Proof. apply omap_app. Qed.

Lemma sentLines_cons w ws :
  sentLines h0 (w :: ws) =
  (if needsSend h0 w then [] else [resultLine h0 (config_of w)])
  ++ sentLines h0 ws.
Proof. unfold sentLines. simpl. by destruct (needsSend h0 w). Qed.

Lemma sentLines_finished ws :
  Forall (worker_ok h0) ws → Forall (λ w, finished w = true) ws →
  sentLines h0 ws = resultLine h0 <$> (config_of <$> ws).
Proof.
  induction 1 as [|w ws Hw _ IH]; intros Hf; [done|].
  apply Forall_cons in Hf as [Hf1 Hf2].
  rewrite sentLines_cons, IH by done.
  destruct w as [|c [|]]; try done.
Qed.

Lemma afterSend_not_before line todo :
  afterSend todo = true → beforeSend line todo = false.
Proof. induction todo as [|[] todo IH]; simpl; auto; done. Qed.

Lemma afterSend_nonempty c todo :
  afterSend todo = true → finished (WRun c todo) = false.
Proof. by destruct todo. Qed.

Lemma beforeSend_nonempty line c todo :
  beforeSend line todo = true → finished (WRun c todo) = false.
Proof. by destruct todo. Qed.

Lemma inv_init : inv batch h0 (init batch h0).
Proof.
  constructor; simpl; try done.
  - apply heap_ext_refl.
  - unfold main_ok. simpl. split_and!; [by rewrite take_0|lia|done].
Qed.

(** A goroutine moves: what changes in the sums over the goroutines. *)
Lemma insert_config_of (ws : list worker) (k : nat) w w' :
  ws !! k = Some w → config_of w' = config_of w →
  config_of <$> <[k := w']> ws = config_of <$> ws.
Proof.
  intros Hk Hcfg. destruct (insert_split ws k w w' Hk)
    as (l1 & l2 & E1 & ->). rewrite E1 at 1.
  rewrite !fmap_app, !fmap_cons. by rewrite Hcfg.
Qed.

Lemma insert_doneCount (ws : list worker) (k : nat) w w' :
  ws !! k = Some w →
  doneCount (<[k := w']> ws) + (if needsDone w then 1 else 0) =
  doneCount ws + (if needsDone w' then 1 else 0).
Proof.
  intros Hk. destruct (insert_split ws k w w' Hk)
    as (l1 & l2 & E1 & ->). rewrite E1 at 1.
  rewrite !doneCount_app, !doneCount_cons. lia.
Qed.

Lemma insert_sentLines (ws : list worker) (k : nat) w w' :
  ws !! k = Some w → needsSend h0 w' = needsSend h0 w →
  config_of w' = config_of w →
  sentLines h0 (<[k := w']> ws) = sentLines h0 ws.
Proof.
  intros Hk Hs Hcfg. destruct (insert_split ws k w w' Hk)
    as (l1 & l2 & E1 & ->). rewrite E1 at 1.
  rewrite !sentLines_app, !sentLines_cons. by rewrite Hs, Hcfg.
Qed.

Lemma insert_sentLines_send (ws : list worker) (k : nat) w w' :
  ws !! k = Some w → needsSend h0 w = true → needsSend h0 w' = false →
  sentLines h0 (<[k := w']> ws) ≡ₚ
  sentLines h0 ws ++ [resultLine h0 (config_of w')].
Proof.
  intros Hk Hs Hs'. destruct (insert_split ws k w w' Hk)
    as (l1 & l2 & E1 & ->). rewrite E1 at 1.
  rewrite !sentLines_app, !sentLines_cons, Hs, Hs'. simpl.
  rewrite <- app_assoc. apply Permutation_app_head.
  by rewrite Permutation_app_comm.
Qed.

Lemma insert_workerWeight (ws : list worker) (k : nat) w w' :
  ws !! k = Some w →
  sum_list_with (workerWeight h0) (<[k := w']> ws) + workerWeight h0 w =
  sum_list_with (workerWeight h0) ws + workerWeight h0 w'.
Proof.
  intros Hk. destruct (insert_split ws k w w' Hk)
    as (l1 & l2 & E1 & ->). rewrite E1 at 1.
  rewrite !sum_list_with_app. simpl. lia.
Qed.

Lemma not_all_finished (ws : list worker) (k : nat) w :
  ws !! k = Some w → finished w = false →
  ¬ Forall (λ w, finished w = true) ws.
Proof.
  intros Hk Hf Hall. rewrite Forall_lookup in Hall.
  specialize (Hall k w Hk). congruence.
Qed.

Lemma doneCount_pos (ws : list worker) (k : nat) w :
  ws !! k = Some w → finished w = false → 0 < doneCount ws.
Proof.
  intros Hk Hf. destruct (doneCount ws) eqn:E; [|lia].
  apply doneCount_0 in E. by destruct (not_all_finished ws k w).
Qed.

(** The calling goroutine stays where it is while a [sendRequest]
    goroutine, not yet at its end, moves. *)
Lemma main_ok_worker s s' (k : nat) w :
  main_ok batch s → mainS s' = mainS s →
  workersS s !! k = Some w → finished w = false →
  config_of <$> workersS s' = config_of <$> workersS s →
  wgS s + doneCount (workersS s') = wgS s' + doneCount (workersS s) →
  main_ok batch s'.
Proof.
  unfold main_ok. intros Hm -> Hk Hf -> Hwg.
  pose proof (not_all_finished _ _ _ Hk Hf) as Hnot.
  destruct (mainS s); try (destruct Hm as (?&?&?); done).
  - destruct Hm as (?&?&?). split_and!; try done. lia.
  - destruct Hm as (?&?&?). split_and!; try done. lia.
  - destruct Hm as (?&?). split_and!; try done. lia.
Qed.

(** What the invariant says of a goroutine about to make a call. *)
Lemma worker_ok_local c e todo :
  isLocal e = true → worker_ok h0 (WRun c (e :: todo)) →
  worker_ok h0 (WRun c todo) ∧
  needsSend h0 (WRun c todo) = needsSend h0 (WRun c (e :: todo)) ∧
  finished (WRun c todo) = false.
Proof.
  unfold worker_ok. intros He Hok.
  assert (beforeSend (resultLine h0 c) (e :: todo) =
          beforeSend (resultLine h0 c) todo) as Hb by by destruct e.
  assert (afterSend (e :: todo) = afterSend todo) as Ha by by destruct e.
  rewrite Hb, Ha in Hok. simpl in Hok. rewrite orb_false_r in Hok.
  split_and!.
  - by rewrite Hok.
  - unfold needsSend. by rewrite Hb.
  - apply orb_true_iff in Hok as [?|?];
      eauto using beforeSend_nonempty, afterSend_nonempty.
Qed.

Lemma worker_ok_send c line todo :
  worker_ok h0 (WRun c (EvSend line :: todo)) →
  line = resultLine h0 c ∧ afterSend todo = true.
Proof.
  unfold worker_ok. simpl. rewrite !orb_false_r.
  intros [?%String.eqb_eq ?]%andb_true_iff. done.
Qed.

Lemma worker_ok_done c todo :
  worker_ok h0 (WRun c (EvWgDone :: todo)) → todo = [].
Proof. unfold worker_ok. simpl. by destruct todo. Qed.

Lemma inv_step s s' : inv batch h0 s → step s s' → inv batch h0 s'.
Proof.
  intros [Hb Hp Hh Hw Hm Hc Hd Hk] Hstep.
  destruct Hstep as
    [s i c _ Hpc Hi | s i c _ Hpc | s i _ Hpc Hi | s _ Hpc Hwg | s _ Hpc
    | s k c _ Hk' | s k c e todo _ Hk' He | s k c line todo _ Hk' Hcl Hco
    | s k c line todo _ Hk' Hcl | s k c todo n _ Hk' Hwg
    | s k c todo _ Hk' Hwg | s line _ Hco | s _ Hco Hcl].
  - (* main_add *)
    rewrite Hb in Hi. unfold main_ok in Hm. rewrite Hpc in Hm.
    destruct Hm as (Hcfg & Hle & Hwg).
    constructor; simpl; try done.
    + unfold main_ok. simpl. split_and!.
      * by rewrite (take_S_r _ _ _ Hi), Hcfg.
      * by apply lookup_lt_Some in Hi.
      * by rewrite Hwg.
    + rewrite Hc, Hpc. split; discriminate.
  - (* main_go *)
    unfold main_ok in Hm. rewrite Hpc in Hm.
    destruct Hm as (Hcfg & Hle & Hwg).
    constructor; simpl; try done.
    + apply Forall_app. split; [done|]. by repeat constructor.
    + unfold main_ok. simpl. split_and!; [|done|].
      * by rewrite fmap_app.
      * rewrite doneCount_app, doneCount_cons. simpl.
        unfold doneCount at 2. simpl. lia.
    + rewrite Hc, Hpc. split; discriminate.
    + rewrite sentLines_app, sentLines_cons. simpl.
      by rewrite app_nil_r.
  - (* main_loop_end *)
    rewrite Hb in Hi. unfold main_ok in Hm. rewrite Hpc in Hm.
    destruct Hm as (Hcfg & Hle & Hwg).
    constructor; simpl; try done.
    + unfold main_ok. simpl. split; [|done].
      apply lookup_ge_None in Hi. by rewrite Hcfg, take_ge.
    + rewrite Hc, Hpc. split; discriminate.
  - (* main_wait *)
    unfold main_ok in Hm. rewrite Hpc in Hm. destruct Hm as (Hcfg & Hwg').
    constructor; simpl; try done.
    + unfold main_ok. simpl. split_and!; try done.
      apply doneCount_0. congruence.
    + rewrite Hc, Hpc. split; discriminate.
  - (* main_close *)
    unfold main_ok in Hm. rewrite Hpc in Hm.
    constructor; simpl; try done.
    unfold consumer_ok in *. simpl.
    destruct (consumerS s); try done. by destruct Hk.
  - (* worker_start *)
    rewrite sendRequest_run. unfold heap_of, log_of. simpl.
    rewrite (resultLog_ext h0) by done.
    assert (Hok : worker_ok h0 (WRun c (resultLog h0 c))).
    { unfold worker_ok. by rewrite resultLog_beforeSend. }
    assert (Hnf : finished (WRun c (resultLog h0 c)) = false).
    { by eapply beforeSend_nonempty, resultLog_beforeSend. }
    constructor; simpl; try done.
    + by apply heap_ext_resultHeap.
    + by apply Forall_insert.
    + eapply (main_ok_worker s _ k (WStart c)); simpl; try done.
      * by eapply insert_config_of.
      * pose proof (insert_doneCount _ k _ (WRun c (resultLog h0 c)) Hk')
          as Hdc. unfold needsDone in Hdc. rewrite Hnf in Hdc.
        simpl in Hdc. lia.
    + erewrite insert_sentLines; [done..| |done]. simpl.
      apply resultLog_beforeSend.
  - (* worker_local *)
    pose proof (Forall_lookup_1 _ _ _ _ Hw Hk') as Hok.
    destruct (worker_ok_local _ _ _ He Hok) as (Hok' & Hs & Hnf).
    constructor; simpl; try done.
    + by apply Forall_insert.
    + eapply (main_ok_worker s _ k); simpl; try done.
      * by eapply insert_config_of.
      * pose proof (insert_doneCount _ k _ (WRun c todo) Hk') as Hdc.
        unfold needsDone in Hdc. rewrite Hnf in Hdc.
        simpl in Hdc. lia.
    + by erewrite insert_sentLines.
  - (* worker_send *)
    pose proof (Forall_lookup_1 _ _ _ _ Hw Hk') as Hok.
    destruct (worker_ok_send _ _ _ Hok) as (-> & Hafter).
    pose proof (afterSend_nonempty c _ Hafter) as Hnf.
    constructor; simpl; try done.
    + apply Forall_insert; [done|]. unfold worker_ok.
      by rewrite Hafter, orb_true_r.
    + eapply (main_ok_worker s _ k); simpl; try done.
      * by eapply insert_config_of.
      * pose proof (insert_doneCount _ k _ (WRun c todo) Hk') as Hdc.
        unfold needsDone in Hdc. rewrite Hnf in Hdc.
        simpl in Hdc. lia.
    + rewrite (insert_sentLines_send _ k _ (WRun c todo) Hk').
      * simpl. by rewrite Hd.
      * simpl. by rewrite String.eqb_refl, Hafter.
      * simpl. by apply afterSend_not_before.
    + unfold consumer_ok in *. rewrite Hco in Hk. simpl. by rewrite Hk.
  - (* worker_send_closed: not from a state of the invariant *)
    apply Hc in Hcl. unfold main_ok in Hm. rewrite Hcl in Hm.
    destruct Hm as (_ & _ & Hall).
    by destruct (not_all_finished _ _ _ Hk' eq_refl).
  - (* worker_done *)
    pose proof (Forall_lookup_1 _ _ _ _ Hw Hk') as Hok.
    apply worker_ok_done in Hok as ->.
    constructor; simpl; try done.
    + by apply Forall_insert.
    + eapply (main_ok_worker s _ k); simpl; try done.
      * by eapply insert_config_of.
      * pose proof (insert_doneCount _ k _ (WRun c []) Hk') as Hdc.
        simpl in Hdc. lia.
    + by erewrite insert_sentLines.
  - (* worker_done_negative: not from a state of the invariant *)
    pose proof (doneCount_pos _ _ _ Hk' eq_refl) as Hpos.
    pose proof (not_all_finished _ _ _ Hk' eq_refl) as Hnot.
    unfold main_ok in Hm.
    destruct (mainS s); destruct Hm as (?&?&?) || destruct Hm as (?&?);
      done || lia.
  - (* consumer_print *)
    constructor; simpl; try done.
    unfold consumer_ok in *. rewrite Hco in Hk. by simpl.
  - (* consumer_exit *)
    constructor; simpl; try done.
    unfold consumer_ok in *. rewrite Hco in Hk. by simpl.
Qed.

Lemma inv_reachable s : reachable batch h0 s → inv batch h0 s.
Proof.
  intros [n Hn]. remember (init batch h0) as s0 eqn:E.
  assert (Hinv : inv batch h0 s0) by (subst; apply inv_init).
  clear E. induction Hn; eauto using inv_step.
Qed.

(** The function makes the moves of [step], and all of them. *)
Lemma exec_step m s s' : exec m s = Some s' → step s s'.
Proof.
  unfold exec. destruct (panicS s) eqn:Hp; [done|].
  destruct m as [|k|].
  - unfold exec_main. destruct (mainS s) as [i|c i| | |] eqn:Hpc.
    + destruct (batchS s !! i) eqn:Hi; intros [= <-].
      * by eapply main_add.
      * by eapply main_loop_end.
    + intros [= <-]. by eapply main_go.
    + destruct (wgS s) eqn:Hwg; intros [= <-]. by eapply main_wait.
    + intros [= <-]. by eapply main_close.
    + done.
  - unfold exec_worker.
    destruct (workersS s !! k) as [[config|c [|e todo]]|] eqn:Hk; try done.
    + intros [= <-]. by eapply worker_start.
    + destruct e; try (intros [= <-]; by eapply worker_local).
      * destruct (closedS s) eqn:Hcl.
        { intros [= <-]. by eapply worker_send_closed. }
        destruct (consumerS s) eqn:Hco; try done.
        intros [= <-]. by eapply worker_send.
      * destruct (wgS s) eqn:Hwg; intros [= <-].
        { by eapply worker_done_negative. }
        by eapply worker_done.
  - unfold exec_consumer. destruct (consumerS s) eqn:Hco; try done.
    + destruct (closedS s) eqn:Hcl; [|done].
      intros [= <-]. by eapply consumer_exit.
    + intros [= <-]. by eapply consumer_print.
Qed.

Lemma step_exec s s' : step s s' → ∃ m, exec m s = Some s'.
Proof.
  intros Hstep. destruct Hstep as
    [s i c Hp Hpc Hi | s i c Hp Hpc | s i Hp Hpc Hi | s Hp Hpc Hwg | s Hp Hpc
    | s k c Hp Hk' | s k c e todo Hp Hk' He | s k c line todo Hp Hk' Hcl Hco
    | s k c line todo Hp Hk' Hcl | s k c todo n Hp Hk' Hwg
    | s k c todo Hp Hk' Hwg | s line Hp Hco | s Hp Hco Hcl].
  - exists MvMain. unfold exec, exec_main. by rewrite Hp, Hpc, Hi.
  - exists MvMain. unfold exec, exec_main. by rewrite Hp, Hpc.
  - exists MvMain. unfold exec, exec_main. by rewrite Hp, Hpc, Hi.
  - exists MvMain. unfold exec, exec_main. by rewrite Hp, Hpc, Hwg.
  - exists MvMain. unfold exec, exec_main. by rewrite Hp, Hpc.
  - exists (MvWorker k). unfold exec, exec_worker. by rewrite Hp, Hk'.
  - exists (MvWorker k). unfold exec, exec_worker. rewrite Hp, Hk'.
    by destruct e.
  - exists (MvWorker k). unfold exec, exec_worker.
    by rewrite Hp, Hk', Hcl, Hco.
  - exists (MvWorker k). unfold exec, exec_worker. by rewrite Hp, Hk', Hcl.
  - exists (MvWorker k). unfold exec, exec_worker. by rewrite Hp, Hk', Hwg.
  - exists (MvWorker k). unfold exec, exec_worker. by rewrite Hp, Hk', Hwg.
  - exists MvConsumer. unfold exec, exec_consumer. by rewrite Hp, Hco.
  - exists MvConsumer. unfold exec, exec_consumer. by rewrite Hp, Hco, Hcl.
Qed.

Lemma run_steps ms s s' : run ms s = Some s' → steps (length ms) s s'.
Proof.
  revert s. induction ms as [|m ms IH]; intros s; simpl.
  - intros [= <-]. apply steps_O.
  - destruct (exec m s) as [s1|] eqn:E; [|done].
    intros Hrun. eapply steps_S; eauto using exec_step.
Qed.

Lemma run_reachable ms s :
  run ms (init batch h0) = Some s → reachable batch h0 s.
Proof. intros Hrun. eexists. by apply run_steps. Qed.

(** What is written is what was received, but for a line that the
    printing goroutine holds. *)
Lemma sink_behind s :
  inv batch h0 s →
  sinkS s `prefix_of` deliveredS s ∧
  length (deliveredS s) ≤ S (length (sinkS s)) ∧
  (final s → sinkS s = deliveredS s).
Proof.
  intros [_ _ _ _ _ _ _ Hk]. unfold consumer_ok in Hk. unfold final.
  destruct (consumerS s) as [|line|].
  - rewrite Hk. split_and!; [done|lia|done].
  - rewrite Hk, length_app. simpl. split_and!; [|lia|].
    + by apply prefix_app_r.
    + by intros (_ & ? & _).
  - destruct Hk as [-> _]. split_and!; [done|lia|done].
Qed.
(** Every step takes the weight down: runs are finite. *)
Lemma step_weight s s' :
  inv batch h0 s → step s s' → weight batch h0 s' < weight batch h0 s.
Proof.
  intros [Hb Hp Hh Hw Hm Hc Hd Hk] Hstep. unfold weight.
  destruct Hstep as
    [s i c _ Hpc Hi | s i c _ Hpc | s i _ Hpc Hi | s _ Hpc Hwg | s _ Hpc
    | s k c _ Hk' | s k c e todo _ Hk' He | s k c line todo _ Hk' Hcl Hco
    | s k c line todo _ Hk' Hcl | s k c todo n _ Hk' Hwg
    | s k c todo _ Hk' Hwg | s line _ Hco | s _ Hco Hcl];
    simpl; rewrite ?Hp, ?Hpc, ?Hco; simpl.
  - rewrite Hb in Hi. rewrite (drop_S _ _ _ Hi). simpl. lia.
  - rewrite sum_list_with_app. simpl. lia.
  - rewrite Hb in Hi. apply lookup_ge_None in Hi.
    rewrite drop_ge by done. simpl. lia.
  - lia.
  - lia.
  - rewrite sendRequest_run. unfold log_of. simpl.
    rewrite (resultLog_ext h0) by done.
    pose proof (insert_workerWeight _ k _ (WRun c (resultLog h0 c)) Hk')
      as Hww. cbn [workerWeight] in Hww. unfold startWeight in Hww. lia.
  - pose proof (insert_workerWeight _ k _ (WRun c todo) Hk') as Hww.
    cbn [workerWeight length] in Hww. lia.
  - pose proof (insert_workerWeight _ k _ (WRun c todo) Hk') as Hww.
    cbn [workerWeight length] in Hww. lia.
  - lia.
  - pose proof (insert_workerWeight _ k _ (WRun c todo) Hk') as Hww.
    cbn [workerWeight length] in Hww. lia.
  - lia.
  - lia.
  - lia.
Qed.

Lemma steps_inv n s s' :
  inv batch h0 s → steps n s s' → inv batch h0 s'.
Proof. intros Hinv Hn. induction Hn; eauto using inv_step. Qed.

Lemma steps_weight n s s' :
  inv batch h0 s → steps n s s' →
  n + weight batch h0 s' ≤ weight batch h0 s.
Proof.
  intros Hinv Hn. induction Hn as [|n s1 s2 s3 H12 _ IH]; [done|].
  pose proof (step_weight _ _ Hinv H12).
  specialize (IH (inv_step _ _ Hinv H12)). lia.
Qed.

(** No state of the invariant is stuck before every goroutine has
    ended: there is no deadlock. *)
Lemma progress s : inv batch h0 s → final s ∨ ∃ s', step s s'.
Proof.
  intros [Hb Hp Hh Hw Hm Hc Hd Hk].
  destruct (consumerS s) as [|line|] eqn:Hco.
  2:{ right. eexists. by eapply consumer_print. }
  2:{ (* the printing goroutine has ended: the channel is closed *)
    left. unfold consumer_ok in Hk. rewrite Hco in Hk.
    destruct Hk as [_ Hcl]. apply Hc in Hcl.
    unfold main_ok in Hm. rewrite Hcl in Hm. by destruct Hm as (_&_&?). }
  destruct (mainS s) as [i|c i| | |] eqn:Hpc.
  - right. destruct (batchS s !! i) eqn:Hi; eexists.
    + by eapply main_add.
    + by eapply main_loop_end.
  - right. eexists. by eapply main_go.
  - unfold main_ok in Hm. rewrite Hpc in Hm. destruct Hm as [_ Hwg].
    right. destruct (wgS s) as [|n] eqn:Hn.
    { eexists. by eapply main_wait. }
    assert (closedS s = false) as Hcl.
    { destruct (closedS s); [|done]. destruct Hc as [Hc _].
      specialize (Hc eq_refl). congruence. }
    assert (∃ k w, workersS s !! k = Some w ∧ finished w = false)
      as (k & w & Hk' & Hnf).
    { destruct (decide (Forall (λ w, finished w = true) (workersS s)))
        as [Hall|Hnot].
      - apply doneCount_finished in Hall. lia.
      - apply not_Forall_Exists in Hnot; [|apply _].
        apply Exists_exists in Hnot as (w & Hin & Hnf).
        apply list_elem_of_lookup in Hin as [k Hk'].
        exists k, w. split; [done|]. unfold compose in Hnf.
        by destruct (finished w). }
    destruct w as [c|c [|e todo]]; [| done |].
    + eexists. by eapply worker_start.
    + destruct e; try (eexists; by eapply worker_local).
      * eexists. by eapply worker_send.
      * eexists. by eapply worker_done.
  - right. eexists. by eapply main_close.
  - right. eexists. eapply consumer_exit; try done. by apply Hc.
Qed.

(** When the channel is closed every descriptor has had its line
    received, once. *)
Lemma closed_delivered s :
  inv batch h0 s → closedS s = true →
  deliveredS s ≡ₚ resultLine h0 <$> batch.
Proof.
  intros [Hb Hp Hh Hw Hm Hc Hd Hk] Hcl. apply Hc in Hcl.
  unfold main_ok in Hm. rewrite Hcl in Hm. destruct Hm as (Hcfg & _ & Hall).
  by rewrite Hd, sentLines_finished, Hcfg.
Qed.

(** Before that, the lines received are lines of descriptors of the
    batch, none more often than it is in the batch. *)
Lemma sentLines_submseteq ws :
  sentLines h0 ws ⊆+ resultLine h0 <$> (config_of <$> ws).
Proof.
  induction ws as [|w ws IH]; [done|].
  rewrite sentLines_cons, !fmap_cons.
  destruct (needsSend h0 w); simpl.
  - by apply submseteq_cons.
  - by apply submseteq_skip.
Qed.

Lemma main_ok_prefix s :
  main_ok batch s → ∃ rest, batch = (config_of <$> workersS s) ++ rest.
Proof.
  unfold main_ok. destruct (mainS s) as [i|c i| | |].
  - intros (Hcfg & _). exists (drop i batch).
    by rewrite Hcfg, take_drop.
  - intros (Hcfg & _). exists (c :: drop i batch).
    by rewrite cons_middle, app_assoc, Hcfg, take_drop.
  - intros (Hcfg & _). exists []. by rewrite app_nil_r.
  - intros (Hcfg & _). exists []. by rewrite app_nil_r.
  - intros (Hcfg & _). exists []. by rewrite app_nil_r.
Qed.

Lemma delivered_submseteq s :
  inv batch h0 s → deliveredS s ⊆+ resultLine h0 <$> batch.
Proof.
  intros [Hb Hp Hh Hw Hm Hc Hd Hk].
  destruct (main_ok_prefix _ Hm) as [rest Hrest].
  rewrite Hd. etrans; [apply sentLines_submseteq|].
  rewrite Hrest, fmap_app. by apply submseteq_inserts_r.
Qed.

End EngineProofs.

(** ** The claims on the executor *)

Lemma sends_app l1 l2 : sends (l1 ++ l2) = sends l1 ++ sends l2.
Proof. apply omap_app. Qed.

Lemma wires_app l1 l2 : wires (l1 ++ l2) = wires l1 ++ wires l2.
Proof. apply omap_app. Qed.

Lemma headerSets_app l1 l2 :
  headerSets (l1 ++ l2) = headerSets l1 ++ headerSets l2.
Proof. apply omap_app. Qed.

Lemma sends_HeaderSet (kvs : list (string * string)) :
  sends (map (λ kv, EvHeaderSet kv.1 kv.2) kvs) = [].
Proof. by induction kvs. Qed.

Lemma wires_HeaderSet (kvs : list (string * string)) :
  wires (map (λ kv, EvHeaderSet kv.1 kv.2) kvs) = [].
Proof. by induction kvs. Qed.

Lemma headerSets_HeaderSet (kvs : list (string * string)) :
  headerSets (map (λ kv, EvHeaderSet kv.1 kv.2) kvs) = kvs.
Proof. induction kvs as [|[??] ? IH]; [done|]. simpl. by rewrite IH. Qed.

Lemma sendRequest_log config h :
  log_of (sendRequest config h) = resultLog h config.
Proof. by rewrite sendRequest_run. Qed.

Lemma sendRequest_heap config h :
  heap_of (sendRequest config h) = resultHeap h config.
Proof. by rewrite sendRequest_run. Qed.

Lemma sends_resultLog h config :
  sends (resultLog h config) = [resultLine h config].
Proof.
  unfold resultLog. rewrite app_comm_cons, sends_app. simpl.
  destruct (NewRequest_error _ _); [done|].
  rewrite sends_app, sends_HeaderSet. simpl.
  by destruct (client_Do _).
Qed.

(** C2.  Whatever the descriptor and whatever the library calls answer,
    a call of [sendRequest] returns, having sent exactly one line on
    [results] and having called [wg.Done()] last; the line is a response
    line or one of the three error lines, so every error of
    [http.NewRequest], [client.Do] and [ioutil.ReadAll] ends up in the
    line and nowhere else. *)
Theorem sendRequest_one_outcome config h :
  ∃ line,
    sends (log_of (sendRequest config h)) = [line] ∧
    last (log_of (sendRequest config h)) = Some EvWgDone ∧
    val_of (sendRequest config h) = tt ∧
    ((∃ body, line = "Response from " +:+ URL config +:+ ": " +:+ body) ∨
     (∃ err, line = "Error creating request for " +:+ URL config +:+ ": "
                    +:+ err) ∨
     (∃ err, line = "Error sending request to " +:+ URL config +:+ ": "
                    +:+ err) ∨
     (∃ err, line = "Error reading response from " +:+ URL config +:+ ": "
                    +:+ err)).
Proof.
  exists (resultLine h config). rewrite sendRequest_log. split_and!.
  - apply sends_resultLog.
  - unfold resultLog. by rewrite app_comm_cons, last_snoc.
  - by rewrite sendRequest_run.
  - unfold resultLine.
    destruct (NewRequest_error _ _) as [err|]; [right; left; by eexists|].
    destruct (client_Do _) as [err|resp]; [right; right; left; by eexists|].
    destruct (ioutil_ReadAll resp) as [err|body].
    + right; right; right. by eexists.
    + left. by eexists.
Qed.

(** C3, as the code has it.  The line sent for a descriptor with target
    [t] is ["Response from t: body"] when the response was read, and on
    failure ["Error creating request for t: msg"], ["Error sending request
    to t: msg"] or ["Error reading response from t: msg"], by the call
    that failed. *)
Theorem sendRequest_line config h :
  sends (log_of (sendRequest config h)) =
  [ match NewRequest_error (Method config) (URL config) with
    | Some msg =>
        "Error creating request for " +:+ URL config +:+ ": " +:+ msg
    | None =>
        match client_Do (wireOf h config) with
        | inl msg =>
            "Error sending request to " +:+ URL config +:+ ": " +:+ msg
        | inr resp =>
            match ioutil_ReadAll resp with
            | inl msg =>
                "Error reading response from " +:+ URL config +:+ ": "
                +:+ msg
            | inr body =>
                "Response from " +:+ URL config +:+ ": " +:+ body
            end
        end
    end ].
Proof.
  by rewrite sendRequest_log, sends_resultLog.
Qed.

(** C6.  When [http.NewRequest] fails, the run is the call of
    [http.NewRequest], the send of the line ["Error creating request for
    ..."] and the deferred [wg.Done()]: no header is set and [client.Do]
    is not called.  When it succeeds, [client.Do] is called exactly
    once. *)
Theorem construction_failure_no_round_trip config h :
  match NewRequest_error (Method config) (URL config) with
  | Some msg =>
      log_of (sendRequest config h) =
        [ EvNewRequest (Method config) (URL config) (payloadOf h config);
          EvSend ("Error creating request for " +:+ URL config +:+ ": "
                  +:+ msg);
          EvWgDone ] ∧
      wires (log_of (sendRequest config h)) = [] ∧
      headerSets (log_of (sendRequest config h)) = []
  | None =>
      length (wires (log_of (sendRequest config h))) = 1
  end.
Proof.
  rewrite sendRequest_log. unfold resultLog, resultLine. simpl.
  destruct (NewRequest_error _ _) as [msg|]; [done|].
  rewrite !wires_app, wires_HeaderSet. simpl.
  by destruct (client_Do _).
Qed.

(** C8.  A call of [sendRequest] leaves every cell of the heap it was
    started in as it was: the one cell it writes is the header of its own
    request, which it has made.  So in every state of a dispatch the
    caller's slice is the batch that was handed over, and the cells of the
    caller's heap, the header map and the body map of each descriptor
    among them, hold what they held. *)
Theorem descriptors_not_mutated :
  (∀ config (h : heap) l c,
     h !! l = Some c → heap_of (sendRequest config h) !! l = Some c) ∧
  (∀ batch (h0 : heap) n s,
     steps n (init batch h0) s →
     batchS s = batch ∧
     (∀ l c, h0 !! l = Some c → heapS s !! l = Some c) ∧
     (∀ config, config ∈ batch →
        strmap_at (heapS s) (Headers config) = strmap_at h0 (Headers config)
        ∧ strmap_at (heapS s) (Body config) = strmap_at h0 (Body config))).
Proof.
  split.
  - intros config h l c Hl. rewrite sendRequest_heap.
    destruct (heap_ext_resultHeap h h config (heap_ext_refl h) l)
      as [->|[Hn _]]; congruence.
  - intros batch h0 n s Hn.
    destruct (inv_reachable batch h0 s (ex_intro _ n Hn))
      as [Hb _ Hh _ _ _ _ _].
    split_and!; [done| |].
    + intros l c Hl. destruct (Hh l) as [->|[Hnone _]]; congruence.
    + intros config _. split; by apply strmap_at_ext.
Qed.

(** C1.  In every state a dispatch of [batch] can reach: no goroutine has
    panicked; the lines received from [results] are lines of descriptors
    of the batch, none more often than its descriptor is in the batch;
    once [results] is closed they are the lines of all the descriptors,
    each once, whatever the lines say; and as long as [results] is open
    some goroutine can move.  Every run is finite.  So every run closes
    the channel, after exactly [length batch] lines.  For the empty batch
    the three moves of the calling goroutine close the channel with
    nothing received. *)
Theorem dispatch_delivers_all batch (h0 : heap) :
  (∀ s, reachable batch h0 s →
     panicS s = false ∧
     deliveredS s ⊆+ resultLine h0 <$> batch ∧
     (closedS s = true →
        deliveredS s ≡ₚ resultLine h0 <$> batch ∧
        length (deliveredS s) = length batch) ∧
     (closedS s = false → ∃ s', step s s')) ∧
  (∀ n s, steps n (init batch h0) s → n ≤ weight batch h0 (init batch h0)) ∧
  (∃ s, steps 3 (init [] h0) s ∧ closedS s = true ∧ deliveredS s = []).
Proof.
  split_and!.
  - intros s Hs. pose proof (inv_reachable _ _ _ Hs) as Hinv.
    split_and!.
    + by destruct Hinv.
    + by apply delivered_submseteq.
    + intros Hcl. pose proof (closed_delivered _ _ _ Hinv Hcl) as Hperm.
      split; [done|]. by rewrite Hperm, length_fmap.
    + intros Hcl. destruct (progress _ _ _ Hinv) as [(Hm & _)|]; [|done].
      destruct Hinv as [_ _ _ _ _ Hc _ _]. apply Hc in Hm. congruence.
  - intros n s Hn.
    pose proof (steps_weight _ _ _ _ _ (inv_init batch h0) Hn). lia.
  - eexists. split_and!.
    + eapply steps_S; [by eapply main_loop_end|].
      eapply steps_S; [by eapply main_wait|].
      eapply steps_S; [by eapply main_close|].
      apply steps_O.
    + done.
    + done.
Qed.

(** The lines written to [w] follow the lines received from [results]:
    in every state of a dispatch they are the lines received, in the order
    received, but for at most the last one; when every goroutine has ended
    they are all written, one line per descriptor of the batch. *)
Theorem written_lines_follow batch (h0 : heap) :
  (∀ s, reachable batch h0 s →
     sinkS s `prefix_of` deliveredS s ∧
     length (deliveredS s) ≤ S (length (sinkS s))) ∧
  (∀ s, reachable batch h0 s → final s →
     sinkS s = deliveredS s ∧ sinkS s ≡ₚ resultLine h0 <$> batch).
Proof.
  split.
  - intros s Hs%inv_reachable.
    destruct (sink_behind _ _ _ Hs) as (? & ? & _). done.
  - intros s Hs%inv_reachable Hfin.
    destruct (sink_behind _ _ _ Hs) as (_ & _ & Heq).
    rewrite (Heq Hfin). split; [done|].
    apply closed_delivered; [done|].
    destruct Hs as [_ _ _ _ _ Hc _ _]. apply Hc. by destruct Hfin.
Qed.

(** C10.  A request whose method is not [POST] is answered with
    [http.Error(w, "Only POST method is supported", 405)] and nothing
    else: the body is not read, no configuration is loaded, no dispatch is
    started. *)
Theorem non_post_rejected r (h : heap) :
  inMethod r ≠ "POST" →
  handleAPIRequest r h =
    ([HError "Only POST method is supported" 405], Refused).
Proof.
  intros Hm. unfold handleAPIRequest.
  destruct (String.eqb (inMethod r) "POST") eqn:E; [|done].
  by apply String.eqb_eq in E.
Qed.

(** *** The payload *)

Lemma wires_resultLog h config :
  wires (resultLog h config) =
  match NewRequest_error (Method config) (URL config) with
  | Some _ => []
  | None => [wireOf h config]
  end.
Proof.
  unfold resultLog. rewrite app_comm_cons, wires_app. simpl.
  destruct (NewRequest_error _ _); [done|].
  rewrite wires_app, wires_HeaderSet. simpl.
  by destruct (client_Do _).
Qed.

Lemma sendsBody_spec config :
  sendsBody config = true ↔ Method config = "POST" ∧ Body config ≠ None.
Proof.
  unfold sendsBody.
  by rewrite andb_true_iff, String.eqb_eq, bool_decide_eq_true.
Qed.

Lemma decodeEntries_strings l kvs (h : heap) m0 :
  h !! l = Some (CStrMap m0) →
  decodeEntries l (stringEntries kvs) h =
    (None,
     <[l := CStrMap (foldl (λ m kv, <[kv.1 := kv.2]> m) m0 kvs)]> h, []).
Proof.
  revert h m0. induction kvs as [|[k v] kvs IH]; intros h m0 Hl; simpl.
  - unfold ret. by rewrite insert_id.
  - unfold bind, decodeEntry at 1. simpl. rewrite Hl.
    erewrite IH by apply lookup_insert_eq. simpl.
    by rewrite insert_insert_eq.
Qed.

Lemma foldl_insert_to_map (kvs : list (string * string)) :
  foldl (λ m kv, <[kv.1 := kv.2]> m) (∅ : gmap string string) kvs =
  list_to_map (reverse kvs).
Proof.
  induction kvs as [|[k v] kvs IH] using rev_ind; [done|].
  by rewrite foldl_app, reverse_snoc, IH.
Qed.

Lemma Unmarshal_map_strings payload kvs (m : gmap string string) :
  kvs ≡ₚ map_to_list m →
  json_parse payload = Some (json.Object (stringEntries kvs)) →
  Unmarshal_map payload = (m, None).
Proof.
  intros Hkvs Hparse. unfold Unmarshal_map. rewrite Hparse.
  unfold decodeStringMap, bind at 1, alloc.
  unfold bind.
  erewrite decodeEntries_strings by apply lookup_insert_eq.
  unfold ret, heap_of, val_of. simpl. rewrite lookup_insert_eq.
  f_equal. rewrite foldl_insert_to_map.
  rewrite <- (list_to_map_to_list m).
  apply list_to_map_proper.
  - rewrite reverse_Permutation, Hkvs. apply NoDup_fst_map_to_list.
  - by rewrite reverse_Permutation.
Qed.

(** The request is constructed with the serialized body as its payload
    exactly when the method is the string [POST] and the body map is not
    nil, and with no payload otherwise; the payload is what [client.Do] is
    handed.  For any writer and reader of JSON: where the text written
    reads as the object of the entries of the map, decoding the payload
    into a [map[string]string] gives the map back, without error. *)
Lemma payload_of_request config (h : heap) :
  let m := strmap_at h (Body config) in
  let log := log_of (sendRequest config h) in
  (Method config = "POST" ∧ Body config ≠ None →
     head log = Some (EvNewRequest (Method config) (URL config)
                        (Some (json_Marshal m))) ∧
     (∀ w, w ∈ wires log → wBody w = Some (json_Marshal m)) ∧
     (∀ kvs, kvs ≡ₚ map_to_list m →
        json_parse (json_Marshal m) = Some (json.Object (stringEntries kvs)) →
        Unmarshal_map (json_Marshal m) = (m, None))) ∧
  (¬ (Method config = "POST" ∧ Body config ≠ None) →
     head log = Some (EvNewRequest (Method config) (URL config) None) ∧
     (∀ w, w ∈ wires log → wBody w = None)).
Proof.
  intros m log. unfold log. rewrite sendRequest_log, wires_resultLog.
  assert (Hw : ∀ w p,
    payloadOf h config = p →
    w ∈ match NewRequest_error (Method config) (URL config) with
        | Some _ => []
        | None => [wireOf h config]
        end → wBody w = p).
  { intros w p <-. destruct (NewRequest_error _ _).
    - by intros ?%elem_of_nil.
    - by intros ->%list_elem_of_singleton. }
  split.
  - intros Hb%sendsBody_spec.
    assert (payloadOf h config = Some (json_Marshal m)) as Hp.
    { unfold payloadOf. by rewrite Hb. }
    split_and!.
    + unfold resultLog. simpl. by rewrite Hp.
    + intros w. by apply Hw.
    + intros kvs. apply Unmarshal_map_strings.
  - intros Hb. assert (sendsBody config = false) as Hf.
    { destruct (sendsBody config) eqn:E; [|done].
      by apply sendsBody_spec in E. }
    assert (payloadOf h config = None) as Hp.
    { unfold payloadOf. by rewrite Hf. }
    split.
    + unfold resultLog. simpl. by rewrite Hp.
    + intros w. by apply Hw.
Qed.

(** *** The headers *)

Section Headers.
(** A [range] over a map visits every entry once. *)
Hypothesis rangeOrder_perm : ∀ m, rangeOrder m ≡ₚ map_to_list m.

Local Abbreviation canon := textproto.CanonicalMIMEHeaderKey.

Lemma applyHeaders_snoc kvs kv hd :
  applyHeaders (kvs ++ [kv]) hd =
  <[canon kv.1 := [kv.2]]> (applyHeaders kvs hd).
Proof. unfold applyHeaders. by rewrite foldl_app. Qed.

(** The header under a canonical key holds the value of some entry
    with that canonical key. *)
Lemma applyHeaders_some kvs hd K :
  (∃ kv, kv ∈ kvs ∧ canon kv.1 = K) →
  ∃ kv, kv ∈ kvs ∧ canon kv.1 = K ∧
        applyHeaders kvs hd !! K = Some [kv.2].
Proof.
  induction kvs as [|kv0 kvs IH] using rev_ind.
  { by intros (? & ?%elem_of_nil & _). }
  intros (kv & Hin & HK). rewrite applyHeaders_snoc.
  destruct (decide (canon kv0.1 = K)) as [E|E].
  - exists kv0. rewrite <- E, lookup_insert_eq.
    split_and!; [|done..].
    apply elem_of_app. right. by apply list_elem_of_singleton.
  - rewrite lookup_insert_ne by done.
    destruct IH as (kv' & Hin' & HK' & Hl).
    { exists kv. split; [|done].
      apply elem_of_app in Hin as [?|Hin]; [done|].
      apply list_elem_of_singleton in Hin as ->. done. }
    exists kv'. split_and!; [|done..].
    apply elem_of_app. by left.
Qed.

(** C7, as the code has it.  When the request has been constructed,
    [req.Header.Set] is called once for every entry of the header map
    of the descriptor, and [client.Do] is handed the result.
    [Header.Set] files a value under the canonical form of the key.  So
    for a key that is the only one of the map with its canonical form,
    the request carries that header with the mapped value; for any key
    of the map, it carries that header with the value of a key of the
    map with the same canonical form.  A later [Set] for the same header
    replaces the earlier value: [X=1] then [X=2] leaves [X: 2]. *)
Theorem headers_applied config (h : heap) :
  NewRequest_error (Method config) (URL config) = None →
  let hs := strmap_at h (Headers config) in
  let log := log_of (sendRequest config h) in
  ∃ w, wires log = [w] ∧
    headerSets log ≡ₚ map_to_list hs ∧
    (∀ k v, hs !! k = Some v →
       (∀ k', is_Some (hs !! k') → canon k' = canon k → k' = k) →
       Header_Get (wHeader w) k = v) ∧
    (∀ k, is_Some (hs !! k) →
       ∃ k' v', hs !! k' = Some v' ∧ canon k' = canon k ∧
                Header_Get (wHeader w) k = v') ∧
    (∀ kvs k v hd,
       Header_Get (applyHeaders (kvs ++ [(k, v)]) hd) k = v) ∧
    Header_Get (applyHeaders [("X", "1"); ("X", "2")] ∅) "X" = "2".
Proof.
  intros Hnew hs log. exists (wireOf h config).
  assert (Hsome : ∀ k, is_Some (hs !! k) →
    ∃ k' v', hs !! k' = Some v' ∧ canon k' = canon k ∧
             wHeader (wireOf h config) !! canon k = Some [v']).
  { intros k [v Hk].
    destruct (applyHeaders_some (rangeOrder hs) ∅ (canon k))
      as ([k' v'] & Hin & HK & Hl).
    { exists (k, v). split; [|done].
      rewrite rangeOrder_perm. by apply elem_of_map_to_list. }
    exists k', v'. split_and!; [|done..].
    rewrite rangeOrder_perm in Hin. by apply elem_of_map_to_list in Hin. }
  unfold log. rewrite sendRequest_log, wires_resultLog, Hnew.
  split_and!.
  - done.
  - unfold resultLog. rewrite Hnew. simpl.
    rewrite <- app_assoc, headerSets_app, headerSets_HeaderSet.
    replace (headerSets _) with (@nil (string * string)).
    + by rewrite app_nil_r.
    + simpl. by destruct (client_Do _).
  - intros k v Hk Huniq.
    destruct (Hsome k (mk_is_Some _ _ Hk)) as (k' & v' & Hk' & HK & Hl).
    unfold Header_Get. rewrite Hl.
    rewrite (Huniq k' (mk_is_Some _ _ Hk') HK) in Hk'. congruence.
  - intros k Hk. destruct (Hsome k Hk) as (k' & v' & Hk' & HK & Hl).
    exists k', v'. split_and!; [done..|].
    unfold Header_Get. by rewrite Hl.
  - intros kvs k v hd. unfold Header_Get.
    by rewrite applyHeaders_snoc, lookup_insert_eq.
  - done.
Qed.

Lemma applyHeaders_lookup_inv kvs hd K vs :
  applyHeaders kvs hd !! K = Some vs →
  hd !! K = Some vs ∨ ∃ kv, kv ∈ kvs ∧ canon kv.1 = K ∧ vs = [kv.2].
Proof.
  induction kvs as [|kv0 kvs IH] using rev_ind; [by left|].
  rewrite applyHeaders_snoc.
  destruct (decide (canon kv0.1 = K)) as [E|E].
  - rewrite <- E, lookup_insert_eq. intros [= <-]. right.
    exists kv0. split_and!; [|done..].
    apply elem_of_app. right. by apply list_elem_of_singleton.
  - rewrite lookup_insert_ne by done. intros [?|(kv & Hin & ? & ?)]%IH.
    + by left.
    + right. exists kv. split_and!; [|done..]. apply elem_of_app. by left.
Qed.

(** The request handed to [client.Do] carries no header but those of the
    header map of the descriptor: every header on it is the canonical form
    of a key of the map and holds the one value mapped to such a key.  The
    executor adds no header of its own, no [Content-Type] for a body
    either. *)
Theorem request_headers_from_map config (h : heap) w K vs :
  w ∈ wires (log_of (sendRequest config h)) →
  wHeader w !! K = Some vs →
  ∃ k v, strmap_at h (Headers config) !! k = Some v ∧ canon k = K ∧
         vs = [v].
Proof.
  intros Hw HK.
  rewrite sendRequest_log, wires_resultLog in Hw.
  destruct (NewRequest_error (Method config) (URL config));
    [by apply elem_of_nil in Hw|].
  apply list_elem_of_singleton in Hw as ->. simpl in HK.
  apply applyHeaders_lookup_inv in HK as [HK|([k v] & Hin & Hc & ->)].
  - by rewrite lookup_empty in HK.
  - exists k, v. split_and!; [|done..].
    rewrite rangeOrder_perm in Hin. by apply elem_of_map_to_list in Hin.
Qed.

End Headers.

(** ** The claims on decoding *)

Lemma saveError_None e : json.saveError None e = e.
Proof. done. Qed.

Lemma decodeConfigFields_skip members cur spare (h : heap) :
  Forall (λ kv, json.lookupField Config_tags kv.1 = None) members →
  decodeConfigFields cur spare members h = (((cur, spare), None), h, []).
Proof.
  induction 1 as [|kv members Hkv _ IH]; [done|].
  simpl. unfold bind, decodeConfigField. rewrite Hkv.
  unfold ret at 1. simpl. by rewrite IH.
Qed.

Lemma decodeConfig_skip members cur (h : heap) :
  Forall (λ kv, json.lookupField Config_tags kv.1 = None) members →
  decodeConfig (json.Object members) cur h = ((cur, None), h, []).
Proof.
  intros Hall. simpl. unfold bind.
  by rewrite decodeConfigFields_skip.
Qed.

Lemma decodeRequestField_skip cur kv (h : heap) :
  json.lookupField RequestConfig_tags kv.1 = None →
  decodeRequestField cur kv h = ((cur, None), h, []).
Proof. intros Hkv. unfold decodeRequestField. by rewrite Hkv. Qed.

Lemma decodeRequestFields_skip members cur (h : heap) :
  Forall (λ kv, json.lookupField RequestConfig_tags kv.1 = None) members →
  decodeRequestFields cur members h = ((cur, None), h, []).
Proof.
  induction 1 as [|kv members Hkv _ IH]; [done|].
  simpl. unfold bind. rewrite decodeRequestField_skip by done.
  simpl. by rewrite IH.
Qed.

(** A member that selects no field can be left out. *)
Lemma decodeRequestFields_unknown ms1 kv ms2 cur (h : heap) :
  json.lookupField RequestConfig_tags kv.1 = None →
  decodeRequestFields cur (ms1 ++ kv :: ms2) h =
  decodeRequestFields cur (ms1 ++ ms2) h.
Proof.
  intros Hkv. revert cur h.
  induction ms1 as [|kv0 ms1 IH]; intros cur h; simpl; unfold bind.
  - rewrite decodeRequestField_skip by done. simpl.
    destruct (decodeRequestFields cur ms2 h) as [[[??]?]?]. simpl.
    by rewrite app_nil_r.
  - destruct (decodeRequestField cur kv0 h) as [[[c0 e0] h1] t1].
    simpl. by rewrite IH.
Qed.

Lemma keeps_intro {A} (proj : RequestConfig → A) tag :
  (∀ cur kv (h : heap),
     json.lookupField RequestConfig_tags kv.1 ≠ Some tag →
     proj (val_of (decodeRequestField cur kv h)).1 = proj cur) →
  keeps proj tag.
Proof.
  intros Hone members. induction members as [|kv members IH];
    intros cur h Hall; [done|].
  apply Forall_cons in Hall as [Hkv Hall].
  simpl. unfold bind. specialize (Hone cur kv h Hkv).
  destruct (decodeRequestField cur kv h) as [[[c0 e0] h1] t1] eqn:E1.
  simpl. specialize (IH c0 h1 Hall).
  destruct (decodeRequestFields c0 members h1) as [[[c1 e1] h2] t2] eqn:E2.
  unfold val_of in *. simpl in *. congruence.
Qed.

Lemma decodeRequestField_cases cur kv (h : heap) :
  ∃ u m hd b, (val_of (decodeRequestField cur kv h)).1 =
              {| URL := u; Method := m; Headers := hd; Body := b |} ∧
    (json.lookupField RequestConfig_tags kv.1 ≠ Some "url" →
       u = URL cur) ∧
    (json.lookupField RequestConfig_tags kv.1 ≠ Some "method" →
       m = Method cur) ∧
    (json.lookupField RequestConfig_tags kv.1 ≠ Some "headers" →
       hd = Headers cur) ∧
    (json.lookupField RequestConfig_tags kv.1 ≠ Some "body" →
       b = Body cur).
Proof.
  unfold decodeRequestField.
  destruct (json.lookupField RequestConfig_tags kv.1) as [tag|] eqn:Htag.
  2:{ exists (URL cur), (Method cur), (Headers cur), (Body cur).
      by destruct cur. }
  assert (tag ∈ RequestConfig_tags) as Hin.
  { unfold json.lookupField in Htag.
    destruct (List.find _ _) eqn:E1 in Htag.
    - simplify_eq. apply List.find_some in E1 as [? _].
      by apply list_elem_of_In.
    - apply List.find_some in Htag as [? _]. by apply list_elem_of_In. }
  unfold RequestConfig_tags in Hin.
  repeat (apply elem_of_cons in Hin as [->|Hin]); [..|by apply elem_of_nil in Hin];
    simpl.
  - destruct (decodeString kv.2 (URL cur)) as [u e].
    exists u, (Method cur), (Headers cur), (Body cur). by split_and!.
  - destruct (decodeString kv.2 (Method cur)) as [m e].
    exists (URL cur), m, (Headers cur), (Body cur). by split_and!.
  - unfold bind.
    destruct (decodeStringMap kv.2 (Headers cur) h) as [[[hd e] h1] t1].
    exists (URL cur), (Method cur), hd, (Body cur). by split_and!.
  - unfold bind.
    destruct (decodeStringMap kv.2 (Body cur) h) as [[[b e] h1] t1].
    exists (URL cur), (Method cur), (Headers cur), b. by split_and!.
Qed.

(** C9.  Decoding is lenient.  A JSON object none of whose keys selects
    the field [requests] decodes without error to the empty batch, and
    the handler, given a [POST] with such a body ([{}] for one), goes on
    to a dispatch of the empty batch, in which no line is received or
    written.  In a descriptor, a member whose key selects no field is
    skipped, and a field that no member selects keeps the zero value:
    the empty string for [url] and [method], the nil map for [headers]
    and [body]. *)
Theorem decoding_is_lenient :
  (∀ members (h : heap),
     Forall (λ kv, json.lookupField Config_tags kv.1 = None) members →
     decodeConfig (json.Object members) Config_zero h =
       (({| Requests := [] |}, None), h, [])) ∧
  (∀ body members (h : heap),
     json_parse body = Some (json.Object members) →
     Forall (λ kv, json.lookupField Config_tags kv.1 = None) members →
     handleAPIRequest {| inMethod := "POST"; inBody := inr body |} h =
       ([HReadAll; HLoadConfig body], Dispatching (init [] h)) ∧
     ∀ s, reachable [] h s → deliveredS s = [] ∧ sinkS s = []) ∧
  (∀ ms1 kv ms2 cur (h : heap),
     json.lookupField RequestConfig_tags kv.1 = None →
     decodeRequestConfig (json.Object (ms1 ++ kv :: ms2)) cur h =
     decodeRequestConfig (json.Object (ms1 ++ ms2)) cur h) ∧
  (∀ members (h : heap),
     Forall (λ kv, json.lookupField RequestConfig_tags kv.1 = None)
            members →
     decodeRequestConfig (json.Object members) RequestConfig_zero h =
       (({| URL := ""; Method := ""; Headers := None; Body := None |},
         None), h, [])) ∧
  keeps URL "url" ∧ keeps Method "method" ∧
  keeps Headers "headers" ∧ keeps Body "body".
Proof.
  split_and!.
  - intros members h Hall. by apply decodeConfig_skip.
  - intros body members h Hparse Hall. split.
    + unfold handleAPIRequest, loadConfigFromBody. simpl.
      rewrite Hparse. by rewrite decodeConfig_skip.
    + intros s Hs. pose proof (inv_reachable _ _ _ Hs) as Hinv.
      pose proof (delivered_submseteq _ _ _ Hinv) as Hsub.
      apply submseteq_nil_r in Hsub.
      split; [done|]. destruct Hinv as [_ _ _ _ _ _ _ Hk].
      unfold consumer_ok in Hk. rewrite Hsub in Hk.
      destruct (consumerS s); [done| |by destruct Hk].
      by destruct (sinkS s).
  - intros. simpl. by apply decodeRequestFields_unknown.
  - intros members h Hall. simpl. by apply decodeRequestFields_skip.
  - apply keeps_intro. intros cur kv h Hkv.
    destruct (decodeRequestField_cases cur kv h)
      as (u & m & hd & b & -> & Hu & _). simpl. auto.
  - apply keeps_intro. intros cur kv h Hkv.
    destruct (decodeRequestField_cases cur kv h)
      as (u & m & hd & b & -> & _ & Hm & _). simpl. auto.
  - apply keeps_intro. intros cur kv h Hkv.
    destruct (decodeRequestField_cases cur kv h)
      as (u & m & hd & b & -> & _ & _ & Hh & _). simpl. auto.
  - apply keeps_intro. intros cur kv h Hkv.
    destruct (decodeRequestField_cases cur kv h)
      as (u & m & hd & b & -> & _ & _ & _ & Hb). simpl. auto.
Qed.

(** ** Further properties of the executor *)

Lemma readAlls_app l1 l2 : readAlls (l1 ++ l2) = readAlls l1 ++ readAlls l2.
Proof. apply omap_app. Qed.

Lemma bodyCloses_app l1 l2 :
  bodyCloses (l1 ++ l2) = bodyCloses l1 ++ bodyCloses l2.
Proof. apply omap_app. Qed.

Lemma readAlls_HeaderSet (kvs : list (string * string)) :
  readAlls (map (λ kv, EvHeaderSet kv.1 kv.2) kvs) = [].
Proof. by induction kvs. Qed.

Lemma bodyCloses_HeaderSet (kvs : list (string * string)) :
  bodyCloses (map (λ kv, EvHeaderSet kv.1 kv.2) kvs) = [].
Proof. by induction kvs. Qed.

(** The body of a response is read once and closed once, after the line
    has been sent and before [wg.Done()], on the path where reading fails
    too; where there is no response, because the request could not be
    constructed or [client.Do] failed, nothing is read and nothing is
    closed. *)
Theorem response_body_closed config (h : heap) :
  let log := log_of (sendRequest config h) in
  match NewRequest_error (Method config) (URL config),
        client_Do (wireOf h config) with
  | None, inr resp =>
      readAlls log = [()] ∧ bodyCloses log = [()] ∧
      ∃ pre line,
        log = pre ++ [EvReadAll; EvSend line; EvBodyClose; EvWgDone]
  | _, _ => readAlls log = [] ∧ bodyCloses log = []
  end.
Proof.
  intros log. unfold log. rewrite sendRequest_log. unfold resultLog.
  destruct (NewRequest_error _ _) as [err|] eqn:Hnew.
  { by destruct (client_Do (wireOf h config)). }
  rewrite !app_comm_cons, readAlls_app, bodyCloses_app.
  rewrite <- !app_comm_cons. simpl.
  rewrite readAlls_app, bodyCloses_app.
  rewrite readAlls_HeaderSet, bodyCloses_HeaderSet. simpl.
  destruct (client_Do (wireOf h config)) as [err|resp]; [done|]. simpl.
  split_and!; [done..|].
  exists (EvNewRequest (Method config) (URL config) (payloadOf h config)
          :: map (λ kv, EvHeaderSet kv.1 kv.2)
               (rangeOrder (strmap_at h (Headers config)))
          ++ [EvDo (wireOf h config)]).
  eexists. simpl. by rewrite <- !app_assoc.
Qed.

(** ** Further properties of decoding *)

Lemma saveError_None_iff a b :
  json.saveError a b = None ↔ a = None ∧ b = None.
Proof. destruct a, b; simpl; split; try done; by intros []. Qed.

Lemma decodeString_ok v cur :
  (decodeString v cur).2 = None ↔ isStringOrNull v = true.
Proof. by destruct v. Qed.

Lemma decodeEntries_ok l kvs (h : heap) :
  val_of (decodeEntries l kvs h) = None ↔
  forallb (λ kv, isStringOrNull kv.2) kvs = true.
Proof.
  revert h. induction kvs as [|kv kvs IH]; intros h; [done|].
  simpl. unfold bind, decodeEntry.
  pose proof (decodeString_ok kv.2 "") as Hs.
  destruct (decodeString kv.2 "") as [str e]. simpl in Hs.
  specialize (IH (<[l:=CStrMap (<[kv.1:=str]> (strmap_at h (Some l)))]> h)).
  destruct (decodeEntries l kvs _) as [[e2 h2] t2].
  unfold val_of in *. simpl in *.
  rewrite saveError_None_iff, andb_true_iff. by rewrite Hs, IH.
Qed.

Lemma decodeStringMap_ok v cur (h : heap) :
  (val_of (decodeStringMap v cur h)).2 = None ↔ mapOK v = true.
Proof.
  destruct v as [| | | |elems|members]; try done.
  simpl. unfold bind.
  destruct (match cur with Some l => ret l | None => alloc (CStrMap ∅) end h)
    as [[l h1] t1].
  pose proof (decodeEntries_ok l members h1) as He.
  destruct (decodeEntries l members h1) as [[e h2] t2].
  unfold val_of in *. simpl in *. done.
Qed.

Lemma lookupField_In tags key tag :
  json.lookupField tags key = Some tag → tag ∈ tags.
Proof.
  unfold json.lookupField. destruct (List.find _ _) eqn:E1.
  - intros [= <-]. apply List.find_some in E1 as [? _].
    by apply list_elem_of_In.
  - intros [? _]%List.find_some. by apply list_elem_of_In.
Qed.

Lemma decodeRequestField_ok cur kv (h : heap) :
  (val_of (decodeRequestField cur kv h)).2 = None ↔ fieldOK kv = true.
Proof.
  unfold decodeRequestField, fieldOK.
  destruct (json.lookupField RequestConfig_tags kv.1) as [tag|] eqn:Htag;
    [|done].
  apply lookupField_In in Htag. unfold RequestConfig_tags in Htag.
  repeat (apply elem_of_cons in Htag as [->|Htag]);
    [..|by apply elem_of_nil in Htag]; simpl.
  - pose proof (decodeString_ok kv.2 (URL cur)) as Hs.
    by destruct (decodeString kv.2 (URL cur)).
  - pose proof (decodeString_ok kv.2 (Method cur)) as Hs.
    by destruct (decodeString kv.2 (Method cur)).
  - unfold bind.
    pose proof (decodeStringMap_ok kv.2 (Headers cur) h) as Hm.
    by destruct (decodeStringMap kv.2 (Headers cur) h) as [[[??]?]?].
  - unfold bind.
    pose proof (decodeStringMap_ok kv.2 (Body cur) h) as Hm.
    by destruct (decodeStringMap kv.2 (Body cur) h) as [[[??]?]?].
Qed.

Lemma decodeRequestFields_ok members cur (h : heap) :
  (val_of (decodeRequestFields cur members h)).2 = None ↔
  forallb fieldOK members = true.
Proof.
  revert cur h. induction members as [|kv members IH]; intros cur h; [done|].
  simpl. unfold bind.
  pose proof (decodeRequestField_ok cur kv h) as H1.
  destruct (decodeRequestField cur kv h) as [[[c1 e1] h1] t1]. simpl.
  specialize (IH c1 h1).
  destruct (decodeRequestFields c1 members h1) as [[[c2 e2] h2] t2].
  unfold val_of in *. simpl in *.
  rewrite saveError_None_iff, andb_true_iff. by rewrite H1, IH.
Qed.

Lemma decodeRequestConfig_ok v cur (h : heap) :
  (val_of (decodeRequestConfig v cur h)).2 = None ↔ descOK v = true.
Proof.
  destruct v as [| | | |elems|members]; try done.
  apply decodeRequestFields_ok.
Qed.

Lemma decodeElems_ok elems old (h : heap) :
  (val_of (decodeElems elems old h)).2 = None ↔ forallb descOK elems = true.
Proof.
  revert old h. induction elems as [|v elems IH]; intros old h; [done|].
  simpl. unfold bind.
  pose proof (decodeRequestConfig_ok v (default RequestConfig_zero (head old))
                h) as H1.
  destruct (decodeRequestConfig v (default RequestConfig_zero (head old)) h)
    as [[[c1 e1] h1] t1]. simpl.
  specialize (IH (tail old) h1).
  destruct (decodeElems elems (tail old) h1) as [[[cs e2] h2] t2].
  unfold val_of in *. simpl in *.
  rewrite saveError_None_iff, andb_true_iff. by rewrite H1, IH.
Qed.

Lemma decodeRequests_ok v cur spare (h : heap) :
  (val_of (decodeRequests v cur spare h)).2 = None ↔ requestsOK v = true.
Proof.
  destruct v as [| | | |elems|members]; try done.
  destruct elems as [|v elems]; [done|].
  unfold decodeRequests, bind.
  pose proof (decodeElems_ok (v :: elems) (cur ++ spare) h) as H1.
  by destruct (decodeElems (v :: elems) (cur ++ spare) h) as [[[??]?]?].
Qed.

Lemma decodeConfigField_ok cur spare kv (h : heap) :
  (val_of (decodeConfigField cur spare kv h)).2 = None ↔
  configFieldOK kv = true.
Proof.
  unfold decodeConfigField, configFieldOK.
  destruct (json.lookupField Config_tags kv.1); [|done].
  unfold bind.
  pose proof (decodeRequests_ok kv.2 (Requests cur) spare h) as H1.
  by destruct (decodeRequests kv.2 (Requests cur) spare h) as [[[??]?]?].
Qed.

Lemma decodeConfigFields_ok members cur spare (h : heap) :
  (val_of (decodeConfigFields cur spare members h)).2 = None ↔
  forallb configFieldOK members = true.
Proof.
  revert cur spare h.
  induction members as [|kv members IH]; intros cur spare h; [done|].
  simpl. unfold bind.
  pose proof (decodeConfigField_ok cur spare kv h) as H1.
  destruct (decodeConfigField cur spare kv h) as [[[[c1 s1] e1] h1] t1].
  simpl. specialize (IH c1 s1 h1).
  destruct (decodeConfigFields c1 s1 members h1) as [[[c2 e2] h2] t2].
  unfold val_of in *. simpl in *.
  rewrite saveError_None_iff, andb_true_iff. by rewrite H1, IH.
Qed.

(** Decoding a JSON value into a [Config] returns no error exactly when
    the value is well typed throughout.  One member of a wrong kind
    anywhere, in any descriptor, is reported, whatever comes before or
    after it; a [null] in the place of the batch, of a descriptor, of a
    map or of a string is none. *)
Theorem decode_ok_iff_well_typed v cur (h : heap) :
  (val_of (decodeConfig v cur h)).2 = None ↔ configOK v = true.
Proof.
  destruct v as [| | | |elems|members]; try done.
  simpl. unfold bind.
  pose proof (decodeConfigFields_ok members cur [] h) as H1.
  by destruct (decodeConfigFields cur [] members h) as [[[??]?]?].
Qed.

(** What the handler does with a request, case by case: a method other
    than [POST] is answered 405; a body that cannot be read is answered 400
    and not decoded; a body that is not JSON, or is JSON that is not well
    typed in one place, is answered 400 and nothing is dispatched, the
    well-formed descriptors beside the ill-typed one included; any other
    body is dispatched as decoded. *)
Theorem handler_outcomes r (h : heap) :
  handleAPIRequest r h =
  if negb (String.eqb (inMethod r) "POST") then
    ([HError "Only POST method is supported" 405], Refused)
  else
    match inBody r with
    | inl err =>
        ([HReadAll; HError "Failed to read request body" 400], Refused)
    | inr body =>
        match json_parse body with
        | Some v =>
            if configOK v then
              ([HReadAll; HLoadConfig body],
               Dispatching
                 (init (Requests (val_of (decodeConfig v Config_zero h)).1)
                    (heap_of (decodeConfig v Config_zero h))))
            else
              ([HReadAll; HLoadConfig body;
                HError "Failed to parse request body" 400], Refused)
        | None =>
            ([HReadAll; HLoadConfig body;
              HError "Failed to parse request body" 400], Refused)
        end
    end.
Proof.
  unfold handleAPIRequest, loadConfigFromBody.
  destruct (negb _); [done|]. destruct (inBody r) as [err|body]; [done|].
  destruct (json_parse body) as [v|]; [|done].
  pose proof (decode_ok_iff_well_typed v Config_zero h) as Hok.
  destruct ((val_of (decodeConfig v Config_zero h)).2) as [e|].
  - destruct (configOK v); [|done]. destruct Hok as [_ Hok].
    by specialize (Hok eq_refl).
  - destruct (configOK v); [done|]. destruct Hok as [Hok _].
    by specialize (Hok eq_refl).
Qed.

Lemma NoDup_fmap_eq {A B} (f : A → B) (l : list A) x y :
  NoDup (f <$> l) → x ∈ l → y ∈ l → f x = f y → x = y.
Proof.
  induction l as [|a l IH]; [by intros _ ?%elem_of_nil|].
  rewrite fmap_cons, NoDup_cons. intros [Ha Hl].
  intros [->|Hx]%elem_of_cons [->|Hy]%elem_of_cons Hf; auto.
  - destruct Ha. rewrite Hf. by apply list_elem_of_fmap_2.
  - destruct Ha. rewrite <- Hf. by apply list_elem_of_fmap_2.
Qed.

Lemma lookupField_iff tags key tag :
  NoDup (json.foldName <$> tags) →
  json.lookupField tags key = Some tag ↔
  tag ∈ tags ∧ json.foldName key = json.foldName tag.
Proof.
  intros Hnd. unfold json.lookupField. split.
  - destruct (List.find (String.eqb key) tags) as [n|] eqn:E1.
    + intros [= ->]. apply List.find_some in E1 as [Hin ->%String.eqb_eq].
      split; [by apply list_elem_of_In|done].
    + intros [Hin ->%String.eqb_eq]%List.find_some.
      split; [by apply list_elem_of_In|done].
  - intros [Hin Hf].
    destruct (List.find (String.eqb key) tags) as [n|] eqn:E1.
    + apply List.find_some in E1 as [Hn ->%String.eqb_eq].
      f_equal. apply list_elem_of_In in Hn.
      by apply (NoDup_fmap_eq json.foldName tags).
    + destruct (List.find (λ n, String.eqb (json.foldName n)
                            (json.foldName key)) tags) as [n|] eqn:E2.
      * apply List.find_some in E2 as [Hn Hn'%String.eqb_eq].
        f_equal. apply list_elem_of_In in Hn.
        apply (NoDup_fmap_eq json.foldName tags); congruence.
      * apply list_elem_of_In in Hin.
        pose proof (List.find_none _ _ E2 _ Hin) as Hne. simpl in Hne.
        rewrite Hf, String.eqb_refl in Hne. done.
Qed.

(** A key of a JSON object selects a field exactly when it folds to the
    same name as the tag of the field, that is, equals it up to the case of
    its ASCII letters, with U+017F read as [s] and U+212A as [k]: [URL],
    [Url] and [url] all select [url]; no other key selects a field. *)
Theorem field_selected_iff key tag :
  (json.lookupField RequestConfig_tags key = Some tag ↔
   tag ∈ RequestConfig_tags ∧ json.foldName key = json.foldName tag) ∧
  (json.lookupField Config_tags key = Some tag ↔
   tag ∈ Config_tags ∧ json.foldName key = json.foldName tag).
Proof.
  split; apply lookupField_iff; apply (bool_decide_unpack _); by vm_compute.
Qed.

(** *** Decoding and the heap *)

Lemma decodeEntries_heap l kvs (h : heap) :
  (∀ l', l' ≠ l → heap_of (decodeEntries l kvs h) !! l' = h !! l') ∧
  (isStrMap h l → isStrMap (heap_of (decodeEntries l kvs h)) l).
Proof.
  revert h. induction kvs as [|kv kvs IH]; intros h; [done|].
  simpl. unfold bind, decodeEntry.
  destruct (decodeString kv.2 "") as [str e].
  specialize (IH (<[l:=CStrMap (<[kv.1:=str]> (strmap_at h (Some l)))]> h)).
  destruct (decodeEntries l kvs _) as [[e2 h2] t2].
  unfold heap_of in *. simpl in *. destruct IH as [IH1 IH2]. split.
  - intros l' Hne. rewrite IH1 by done. by rewrite lookup_insert_ne.
  - intros _. apply IH2. eexists. apply lookup_insert_eq.
Qed.

Lemma decodeStringMap_heap v cur (h0 h : heap) :
  h0 ⊆ h → madeAfter h0 h cur →
  h0 ⊆ heap_of (decodeStringMap v cur h) ∧
  (∀ l, isStrMap h l → isStrMap (heap_of (decodeStringMap v cur h)) l) ∧
  madeAfter h0 (heap_of (decodeStringMap v cur h))
    (val_of (decodeStringMap v cur h)).1.
Proof.
  intros Hsub Hcur.
  destruct v as [| | | |elems|members];
    try (split_and!; [exact Hsub|intros l Hl; exact Hl|exact Hcur]).
  { split_and!; [exact Hsub|intros l Hl; exact Hl|intros l Hl; discriminate]. }
  simpl. unfold bind.
  assert (∃ l h1,
    match cur with Some l => ret l | None => alloc (CStrMap ∅) end h
      = (l, h1, []) ∧ h0 ⊆ h1 ∧ h0 !! l = None ∧ isStrMap h1 l ∧
    (∀ l', isStrMap h l' → isStrMap h1 l')) as (l & h1 & -> & H1 & H2 & H3 & H4).
  { destruct cur as [l|].
    - exists l, h. destruct (Hcur l eq_refl). by split_and!.
    - exists (fresh (dom h)), (<[fresh (dom h) := CStrMap ∅]> h).
      pose proof (fresh_dom_None h) as Hf.
      assert (h0 !! fresh (dom h) = None) as Hf0.
      { by eapply lookup_weaken_None. }
      split_and!; try done.
      + by apply insert_subseteq_r.
      + eexists. apply lookup_insert_eq.
      + intros l' [m Hm]. exists m. rewrite lookup_insert_ne; [done|].
        intros <-. congruence. }
  destruct (decodeEntries_heap l members h1) as [He1 He2].
  destruct (decodeEntries l members h1) as [[e h2] t2].
  unfold heap_of, val_of in *. simpl in *. split_and!.
  - apply map_subseteq_spec. intros l' c Hl'.
    rewrite He1; [by eapply lookup_weaken|]. intros ->. congruence.
  - intros l' Hl'%H4. destruct (decide (l' = l)) as [->|Hne]; [auto|].
    unfold isStrMap. by rewrite He1.
  - intros ? [= <-]. auto.
Qed.

Lemma madeAfter_mono (h0 h h' : heap) r :
  (∀ l, isStrMap h l → isStrMap h' l) → madeAfter h0 h r → madeAfter h0 h' r.
Proof. intros Hm Hr l Hl. destruct (Hr l Hl). auto. Qed.

Lemma madeBy_mono (h0 h h' : heap) c :
  (∀ l, isStrMap h l → isStrMap h' l) → madeBy h0 h c → madeBy h0 h' c.
Proof. intros Hm [??]. split; by eapply madeAfter_mono. Qed.

Lemma decodeRequestField_heap cur kv (h0 h : heap) :
  h0 ⊆ h → madeBy h0 h cur →
  h0 ⊆ heap_of (decodeRequestField cur kv h) ∧
  (∀ l, isStrMap h l → isStrMap (heap_of (decodeRequestField cur kv h)) l) ∧
  madeBy h0 (heap_of (decodeRequestField cur kv h))
    (val_of (decodeRequestField cur kv h)).1.
Proof.
  intros Hsub [Hh Hb]. unfold decodeRequestField.
  destruct (json.lookupField RequestConfig_tags kv.1) as [tag|];
    [|by split_and!].
  destruct (String.eqb tag "url").
  { destruct (decodeString kv.2 (URL cur)). by split_and!. }
  destruct (String.eqb tag "method").
  { destruct (decodeString kv.2 (Method cur)). by split_and!. }
  destruct (String.eqb tag "headers"); unfold bind.
  - destruct (decodeStringMap_heap kv.2 (Headers cur) h0 h Hsub Hh)
      as (H1 & H2 & H3).
    destruct (decodeStringMap kv.2 (Headers cur) h) as [[[r e] h1] t1].
    unfold heap_of, val_of in *. simpl in *. split_and!; try done.
    split; [done|]. simpl. by eapply madeAfter_mono.
  - destruct (decodeStringMap_heap kv.2 (Body cur) h0 h Hsub Hb)
      as (H1 & H2 & H3).
    destruct (decodeStringMap kv.2 (Body cur) h) as [[[r e] h1] t1].
    unfold heap_of, val_of in *. simpl in *. split_and!; try done.
    split; [|done]. simpl. by eapply madeAfter_mono.
Qed.

Lemma decodeRequestFields_heap members cur (h0 h : heap) :
  h0 ⊆ h → madeBy h0 h cur →
  h0 ⊆ heap_of (decodeRequestFields cur members h) ∧
  (∀ l, isStrMap h l →
        isStrMap (heap_of (decodeRequestFields cur members h)) l) ∧
  madeBy h0 (heap_of (decodeRequestFields cur members h))
    (val_of (decodeRequestFields cur members h)).1.
Proof.
  revert cur h. induction members as [|kv members IH]; intros cur h Hsub Hcur.
  { by split_and!. }
  simpl. unfold bind.
  destruct (decodeRequestField_heap cur kv h0 h Hsub Hcur) as (H1 & H2 & H3).
  destruct (decodeRequestField cur kv h) as [[[c1 e1] h1] t1].
  unfold heap_of, val_of in H1, H2, H3. simpl in H1, H2, H3. simpl.
  destruct (IH c1 h1 H1 H3) as (H4 & H5 & H6).
  destruct (decodeRequestFields c1 members h1) as [[[c2 e2] h2] t2].
  unfold heap_of, val_of in *. simpl in *. split_and!; auto.
Qed.

Lemma madeBy_zero (h0 h : heap) : madeBy h0 h RequestConfig_zero.
Proof. split; by intros l. Qed.

Lemma decodeRequestConfig_heap v cur (h0 h : heap) :
  h0 ⊆ h → madeBy h0 h cur →
  h0 ⊆ heap_of (decodeRequestConfig v cur h) ∧
  (∀ l, isStrMap h l →
        isStrMap (heap_of (decodeRequestConfig v cur h)) l) ∧
  madeBy h0 (heap_of (decodeRequestConfig v cur h))
    (val_of (decodeRequestConfig v cur h)).1.
Proof.
  intros Hsub Hcur.
  destruct v as [| | | |elems|members]; try (by split_and!).
  by apply decodeRequestFields_heap.
Qed.

Lemma madeBy_head (h0 h : heap) old :
  Forall (madeBy h0 h) old →
  madeBy h0 h (default RequestConfig_zero (head old)).
Proof.
  destruct 1 as [|c old Hc _]; [apply madeBy_zero|done].
Qed.

Lemma Forall_madeBy_mono (h0 h h' : heap) cs :
  (∀ l, isStrMap h l → isStrMap h' l) →
  Forall (madeBy h0 h) cs → Forall (madeBy h0 h') cs.
Proof.
  intros Hm Hcs. eapply Forall_impl; [exact Hcs|].
  intros c. by apply madeBy_mono.
Qed.

Lemma decodeElems_heap elems : ∀ old (h0 h : heap),
  h0 ⊆ h → Forall (madeBy h0 h) old →
  h0 ⊆ heap_of (decodeElems elems old h) ∧
  (∀ l, isStrMap h l → isStrMap (heap_of (decodeElems elems old h)) l) ∧
  Forall (madeBy h0 (heap_of (decodeElems elems old h)))
    (val_of (decodeElems elems old h)).1.
Proof.
  induction elems as [|v elems IH]; intros old h0 h Hsub Hold.
  { by split_and!. }
  simpl. unfold bind.
  destruct (decodeRequestConfig_heap v (default RequestConfig_zero (head old))
              h0 h Hsub (madeBy_head _ _ _ Hold)) as (H1 & H2 & H3).
  destruct (decodeRequestConfig v (default RequestConfig_zero (head old)) h)
    as [[[c1 e1] h1] t1].
  unfold heap_of, val_of in H1, H2, H3. simpl in H1, H2, H3. simpl.
  destruct (IH (tail old) h0 h1 H1) as (H4 & H5 & H6).
  { apply (Forall_madeBy_mono h0 h h1); [done|].
    destruct Hold; [constructor|done]. }
  destruct (decodeElems elems (tail old) h1) as [[[cs e2] h2] t2].
  unfold heap_of, val_of in *. simpl in *. split_and!; auto.
  constructor; [|done]. by eapply madeBy_mono.
Qed.

Lemma decodeRequests_heap v cur spare (h0 h : heap) :
  h0 ⊆ h → Forall (madeBy h0 h) (cur ++ spare) →
  h0 ⊆ heap_of (decodeRequests v cur spare h) ∧
  Forall (madeBy h0 (heap_of (decodeRequests v cur spare h)))
    ((val_of (decodeRequests v cur spare h)).1.1 ++
     (val_of (decodeRequests v cur spare h)).1.2).
Proof.
  intros Hsub Hold.
  destruct v as [| | | |elems|members]; try (by split).
  destruct elems as [|v elems]; [by split|].
  unfold decodeRequests, bind.
  destruct (decodeElems_heap (v :: elems) (cur ++ spare) h0 h Hsub Hold)
    as (H1 & H2 & H3).
  destruct (decodeElems (v :: elems) (cur ++ spare) h) as [[[cs e] h1] t1].
  unfold heap_of, val_of in *. cbn [fst snd] in *.
  split; [done|]. apply Forall_app. split; [done|].
  apply Forall_drop. by apply (Forall_madeBy_mono h0 h h1).
Qed.

Lemma decodeConfigFields_heap members : ∀ cur spare (h0 h : heap),
  h0 ⊆ h → Forall (madeBy h0 h) (Requests cur ++ spare) →
  h0 ⊆ heap_of (decodeConfigFields cur spare members h) ∧
  Forall (madeBy h0 (heap_of (decodeConfigFields cur spare members h)))
    (Requests (val_of (decodeConfigFields cur spare members h)).1.1 ++
     (val_of (decodeConfigFields cur spare members h)).1.2).
Proof.
  induction members as [|kv members IH]; intros cur spare h0 h Hsub Hcur.
  { by split. }
  simpl. unfold bind.
  assert (h0 ⊆ heap_of (decodeConfigField cur spare kv h) ∧
          Forall (madeBy h0 (heap_of (decodeConfigField cur spare kv h)))
            (Requests (val_of (decodeConfigField cur spare kv h)).1.1 ++
             (val_of (decodeConfigField cur spare kv h)).1.2)) as [H1 H2].
  { unfold decodeConfigField.
    destruct (json.lookupField Config_tags kv.1); [|by split].
    unfold bind.
    destruct (decodeRequests_heap kv.2 (Requests cur) spare h0 h Hsub Hcur)
      as (H1 & H2).
    destruct (decodeRequests kv.2 (Requests cur) spare h)
      as [[[[cs sp] e] h1] t1].
    unfold heap_of, val_of in *. simpl in *. done. }
  destruct (decodeConfigField cur spare kv h) as [[[[c1 s1] e1] h1] t1].
  unfold heap_of, val_of in H1, H2. simpl in H1, H2. simpl.
  destruct (IH c1 s1 h0 h1 H1 H2) as (H4 & H5).
  destruct (decodeConfigFields c1 s1 members h1) as [[[[c2 s2] e2] h2] t2].
  unfold heap_of, val_of in *. simpl in *. done.
Qed.

(** Decoding a batch writes no map that exists: every cell of the heap it
    starts in is unchanged afterwards, so the descriptors of batches
    decoded before keep their maps; and every header map and body map of a
    decoded descriptor is a cell made by this decoding, which holds a
    [map[string]string].  It makes no call that is logged. *)
Theorem decode_makes_new_maps v (h : heap) :
  (∀ l c, h !! l = Some c →
          heap_of (decodeConfig v Config_zero h) !! l = Some c) ∧
  (∀ c l, c ∈ Requests (val_of (decodeConfig v Config_zero h)).1 →
          l ∈ mapLocs c →
          h !! l = None ∧
          isStrMap (heap_of (decodeConfig v Config_zero h)) l).
Proof.
  assert (h ⊆ heap_of (decodeConfig v Config_zero h) ∧
          Forall (madeBy h (heap_of (decodeConfig v Config_zero h)))
            (Requests (val_of (decodeConfig v Config_zero h)).1)) as [H1 H2].
  { destruct v as [| | | |elems|members]; try (by split).
    simpl. unfold bind.
    destruct (decodeConfigFields_heap members Config_zero [] h h)
      as (H1 & H2); [done|by constructor|].
    destruct (decodeConfigFields Config_zero [] members h)
      as [[[[c2 s2] e2] h2] t2].
    unfold heap_of, val_of in *. simpl in *. split; [done|].
    by apply Forall_app in H2 as [? _]. }
  split.
  - intros l c Hl. by eapply lookup_weaken.
  - intros c l Hc Hl. rewrite Forall_forall in H2.
    destruct (H2 c Hc) as [Hh Hb]. unfold mapLocs in Hl.
    apply elem_of_app in Hl as [Hl|Hl].
    + apply Hh. destruct (Headers c); [|by apply elem_of_nil in Hl].
      by apply list_elem_of_singleton in Hl as ->.
    + apply Hb. destruct (Body c); [|by apply elem_of_nil in Hl].
      by apply list_elem_of_singleton in Hl as ->.
Qed.

(** *** Reading back a batch *)

Lemma decodeStringMap_strings kvs (h : heap) :
  decodeStringMap (json.Object (stringEntries kvs)) None h =
    ((Some (fresh (dom h)), None),
     <[fresh (dom h) := CStrMap (filled kvs)]> h, []).
Proof.
  unfold decodeStringMap, bind, alloc.
  erewrite decodeEntries_strings by apply lookup_insert_eq.
  unfold ret. simpl. by rewrite insert_insert_eq.
Qed.

Lemma holds_weaken (h h' : heap) r kvs : h ⊆ h' → holds h r kvs → holds h' r kvs.
Proof.
  intros Hsub (l & -> & Hl). exists l. split; [done|].
  by eapply lookup_weaken.
Qed.

Lemma reads_weaken (h h' : heap) d c : h ⊆ h' → reads h d c → reads h' d c.
Proof.
  intros Hsub (Hu & Hm & Hh & Hb). split_and!; try done.
  - by eapply holds_weaken.
  - destruct (wrBody d); [by eapply holds_weaken|done].
Qed.

Lemma decodeRequestConfig_written d (h : heap) :
  ∃ c h1,
    decodeRequestConfig (writtenJSON d) RequestConfig_zero h
      = ((c, None), h1, []) ∧
    h ⊆ h1 ∧ reads h1 d c.
Proof.
  unfold decodeRequestConfig, writtenJSON.
  destruct d as [u m hs b]. cbn [wrURL wrMethod wrHeaders wrBody].
  set (l1 := fresh (dom h)).
  set (h1 := <[l1 := CStrMap (filled hs)]> h).
  assert (h ⊆ h1) as Hsub1.
  { apply insert_subseteq_r; [apply fresh_dom_None|done]. }
  assert (h1 !! l1 = Some (CStrMap (filled hs))) as Hl1.
  { apply lookup_insert_eq. }
  destruct b as [b|]; cbn [app decodeRequestFields].
  - set (l2 := fresh (dom h1)).
    set (h2 := <[l2 := CStrMap (filled b)]> h1).
    assert (h1 ⊆ h2) as Hsub2.
    { apply insert_subseteq_r; [apply fresh_dom_None|done]. }
    exists {| URL := u; Method := m; Headers := Some l1; Body := Some l2 |}, h2.
    split_and!.
    + unfold bind, decodeRequestField. cbn [fst snd].
      change (json.lookupField RequestConfig_tags "url") with (Some "url").
      change (json.lookupField RequestConfig_tags "method")
        with (Some "method").
      change (json.lookupField RequestConfig_tags "headers")
        with (Some "headers").
      change (json.lookupField RequestConfig_tags "body") with (Some "body").
      cbn [String.eqb Ascii.eqb Bool.eqb decodeString ret RequestConfig_zero
           URL Method Headers Body fst snd].
      unfold bind. rewrite decodeStringMap_strings. fold l1. fold h1.
      cbn [ret fst snd app json.saveError URL Method Headers Body].
      rewrite decodeStringMap_strings. fold l2. fold h2.
      reflexivity.
    + by etrans.
    + split_and!; try done.
      * exists l1. split; [done|]. by eapply lookup_weaken.
      * exists l2. split; [done|]. apply lookup_insert_eq.
  - exists {| URL := u; Method := m; Headers := Some l1; Body := None |}, h1.
    split_and!; try done.
    + unfold bind, decodeRequestField. cbn [fst snd].
      change (json.lookupField RequestConfig_tags "url") with (Some "url").
      change (json.lookupField RequestConfig_tags "method")
        with (Some "method").
      change (json.lookupField RequestConfig_tags "headers")
        with (Some "headers").
      cbn [String.eqb Ascii.eqb Bool.eqb decodeString ret RequestConfig_zero
           URL Method Headers Body fst snd].
      unfold bind. rewrite decodeStringMap_strings. fold l1. fold h1.
      reflexivity.
    + split_and!; try done. by exists l1.
Qed.

Lemma decodeElems_written ds (h : heap) :
  ∃ cs h',
    decodeElems (writtenJSON <$> ds) [] h = ((cs, None), h', []) ∧
    h ⊆ h' ∧ Forall2 (reads h') ds cs.
Proof.
  revert h. induction ds as [|d ds IH]; intros h.
  { exists [], h. by split_and!. }
  destruct (decodeRequestConfig_written d h) as (c & h1 & E1 & Hsub1 & Hr).
  destruct (IH h1) as (cs & h' & E2 & Hsub2 & Hrs).
  exists (c :: cs), h'. split_and!.
  - rewrite fmap_cons. cbn [decodeElems head tail default]. unfold bind.
    rewrite E1. cbn [fst snd]. rewrite E2. reflexivity.
  - by etrans.
  - constructor; [|done]. by eapply reads_weaken.
Qed.

Lemma decodeConfig_written ds (h : heap) :
  ∃ cs h',
    decodeConfig (batchJSON ds) Config_zero h
      = (({| Requests := cs |}, None), h', []) ∧
    h ⊆ h' ∧ Forall2 (reads h') ds cs.
Proof.
  destruct (decodeElems_written ds h) as (cs & h' & E & Hsub & Hrs).
  exists cs, h'. split_and!; [|done..].
  unfold batchJSON, decodeConfig. cbn [decodeConfigFields].
  unfold bind, decodeConfigField. cbn [fst snd].
  change (json.lookupField Config_tags "requests") with (Some "requests").
  destruct ds as [|d ds].
  { cbn in E. injection E as <- <-. reflexivity. }
  rewrite fmap_cons in *. cbn [decodeRequests Requests Config_zero app].
  unfold bind. rewrite E. by cbn.
Qed.

(** A batch written in the format of the README, with [url], [method],
    [headers] and for some descriptors [body], decodes without error to
    one descriptor per written one, in the order written: the same target
    and method, a header map that holds the written entries (the later of
    two entries with one key), a body map that holds the written body or
    the nil map where none was written. *)
Theorem written_batch_reads_back ds (h : heap) :
  (val_of (decodeConfig (batchJSON ds) Config_zero h)).2 = None ∧
  Forall2 (reads (heap_of (decodeConfig (batchJSON ds) Config_zero h))) ds
    (Requests (val_of (decodeConfig (batchJSON ds) Config_zero h)).1).
Proof.
  destruct (decodeConfig_written ds h) as (cs & h' & E & _ & Hrs).
  rewrite E. unfold val_of, heap_of. cbn [fst snd Requests].
  split; [reflexivity|exact Hrs].
Qed.

Lemma reads_wireOf (h : heap) d c :
  reads h d c → wireOf h c = wireWritten d.
Proof.
  intros (Hu & Hm & (l & Hl & Hhl) & Hb).
  unfold wireOf, wireWritten, payloadOf, sendsBody.
  rewrite Hu, Hm, Hl. simpl. rewrite Hhl. f_equal.
  destruct (wrBody d) as [b|].
  - destruct Hb as (l2 & Hl2 & Hb). rewrite Hl2. simpl. rewrite Hb.
    by destruct (String.eqb (wrMethod d) "POST").
  - rewrite Hb. simpl. by rewrite andb_false_r.
Qed.

(** From the configuration to the wire: decoding a written batch and
    running [sendRequest] on a decoded descriptor, in the heap that the
    decoding leaves, hands [client.Do] one request: the written target,
    the written method ([GET] for an empty one), one header per written
    header under its canonical key, and as payload the serialized body
    when a body was written and the method is [POST], none otherwise.
    When the request cannot be constructed nothing is handed over. *)
Theorem written_batch_wires ds (h : heap) :
  Forall2
    (λ d c,
       wires (log_of (sendRequest c
                        (heap_of (decodeConfig (batchJSON ds) Config_zero h))))
       = match NewRequest_error (wrMethod d) (wrURL d) with
         | Some _ => []
         | None => [wireWritten d]
         end)
    ds (Requests (val_of (decodeConfig (batchJSON ds) Config_zero h)).1).
Proof.
  destruct (decodeConfig_written ds h) as (cs & h' & E & _ & Hrs).
  rewrite E. unfold val_of, heap_of. cbn [fst snd Requests].
  eapply Forall2_impl; [exact Hrs|]. intros d c Hr. cbn beta.
  rewrite sendRequest_log, wires_resultLog.
  pose proof (reads_wireOf _ d c Hr) as Hw. destruct Hr as (Hu & Hm & _).
  rewrite Hu, Hm. destruct (NewRequest_error _ _); [done|]. by rewrite Hw.
Qed.

(** ** Schedules of the engine *)

Ltac state_simpl :=
  cbn [set_main set_wg set_workers set_heap set_closed set_consumer deliver
       print set_panic batchS heapS mainS wgS workersS closedS consumerS
       deliveredS sinkS panicS].

Lemma steps_trans n m s1 s2 s3 :
  steps n s1 s2 → steps m s2 s3 → steps (n + m) s1 s3.
Proof.
  induction 1 as [|n s1 s2 s2' Hstep _ IH]; [done|].
  intros H3. simpl. eapply steps_S; [exact Hstep|]. by apply IH.
Qed.

(** The loop of lines 102-105 runs to its end whatever the goroutines it
    has started do. *)
Lemma spawn_all rest : ∀ pre (h : heap) wg ws,
  ∃ n, steps n
    (Build_state (pre ++ rest) h (MLoop (length pre)) wg ws false CRecv
       [] [] false)
    (Build_state (pre ++ rest) h MWait (length rest + wg)
       (ws ++ (WStart <$> rest)) false CRecv [] [] false).
Proof.
  induction rest as [|c rest IH]; intros pre h wg ws.
  - exists 1. eapply steps_S; [|apply steps_O].
    rewrite !app_nil_r. simpl.
    apply (main_loop_end
             (Build_state pre h (MLoop (length pre)) wg ws false CRecv
                [] [] false) (length pre)); [done..|].
    by apply lookup_ge_None_2.
  - destruct (IH (pre ++ [c]) h (S wg) (ws ++ [WStart c])) as [n Hn].
    rewrite <- !app_assoc, length_app in Hn. simpl in Hn.
    rewrite Nat.add_1_r in Hn.
    replace (length rest + S wg) with (length (c :: rest) + wg) in Hn
      by (simpl; lia).
    exists (S (S n)).
    eapply steps_S.
    { apply (main_add
               (Build_state (pre ++ c :: rest) h (MLoop (length pre)) wg ws
                  false CRecv [] [] false) (length pre) c); [done..|].
      simpl. by rewrite list_lookup_middle. }
    state_simpl.
    eapply steps_S; [|exact Hn].
    by apply (main_go
                (Build_state (pre ++ c :: rest) h
                   (MGo c (S (length pre))) (S wg) ws false CRecv [] []
                   false) (S (length pre)) c).
Qed.

Lemma play_locals A : ∀ b (h : heap) pc wg (ws : list worker) (k : nat) c rest
    cl co dl sk,
  Forall (λ e, isLocal e = true) A →
  ws !! k = Some (WRun c (A ++ rest)) →
  ∃ n, steps n (Build_state b h pc wg ws cl co dl sk false)
         (Build_state b h pc wg (<[k := WRun c rest]> ws) cl co dl sk false).
Proof.
  induction A as [|e A IH]; intros b h pc wg ws k c rest cl co dl sk HA Hk.
  - exists 0. rewrite list_insert_id by done. apply steps_O.
  - apply Forall_cons in HA as [He HA].
    destruct (IH b h pc wg (<[k := WRun c (A ++ rest)]> ws) k c rest
                cl co dl sk HA) as [n Hn].
    { apply list_lookup_insert_eq. by eapply lookup_lt_Some. }
    rewrite list_insert_insert_eq in Hn.
    exists (S n). eapply steps_S; [|exact Hn].
    by apply (worker_local (Build_state b h pc wg ws cl co dl sk false)
                k c e (A ++ rest)).
Qed.

Lemma resultLog_split (h : heap) c :
  ∃ A B, resultLog h c = A ++ EvSend (resultLine h c) :: B ++ [EvWgDone] ∧
         Forall (λ e, isLocal e = true) A ∧
         Forall (λ e, isLocal e = true) B.
Proof.
  unfold resultLog.
  destruct (NewRequest_error (Method c) (URL c)) as [err|].
  { exists [EvNewRequest (Method c) (URL c) (payloadOf h c)], [].
    split_and!; [done| |done]. by repeat constructor. }
  assert (Forall (λ e, isLocal e = true)
            (map (λ kv, EvHeaderSet kv.1 kv.2)
               (rangeOrder (strmap_at h (Headers c))))) as Hhs.
  { apply Forall_forall. by intros e [kv [-> _]]%list_elem_of_fmap. }
  destruct (client_Do (wireOf h c)) as [err|resp].
  - exists (EvNewRequest (Method c) (URL c) (payloadOf h c)
            :: map (λ kv, EvHeaderSet kv.1 kv.2)
                 (rangeOrder (strmap_at h (Headers c)))
            ++ [EvDo (wireOf h c)]), [].
    split_and!; [|..|done].
    + simpl. by rewrite <- !app_assoc.
    + constructor; [done|]. apply Forall_app. split; [done|].
      by repeat constructor.
  - exists (EvNewRequest (Method c) (URL c) (payloadOf h c)
            :: map (λ kv, EvHeaderSet kv.1 kv.2)
                 (rangeOrder (strmap_at h (Headers c)))
            ++ [EvDo (wireOf h c); EvReadAll]), [EvBodyClose].
    split_and!.
    + simpl. by rewrite <- !app_assoc.
    + constructor; [done|]. apply Forall_app. split; [done|].
      by repeat constructor.
    + by repeat constructor.
Qed.

(** One [sendRequest] goroutine from its start to its end, the printing
    goroutine ready to receive. *)
Lemma play_worker (h0 : heap) b h pc n (ws : list worker) (k : nat) c dl sk :
  heap_ext h0 h → ws !! k = Some (WStart c) →
  ∃ m, steps m (Build_state b h pc (S n) ws false CRecv dl sk false)
         (Build_state b (resultHeap h c) pc n (<[k := WRun c []]> ws) false
            (CPrint (resultLine h0 c)) (dl ++ [resultLine h0 c]) sk false).
Proof.
  intros Hext Hk. pose proof (lookup_lt_Some _ _ _ Hk) as Hlt.
  destruct (resultLog_split h c) as (A & B & Hlog & HA & HB).
  rewrite (resultLine_ext h0 h) in Hlog by done.
  set (line := resultLine h0 c) in *.
  destruct (play_locals A b (resultHeap h c) pc (S n)
              (<[k := WRun c (A ++ EvSend line :: B ++ [EvWgDone])]> ws)
              k c (EvSend line :: B ++ [EvWgDone]) false CRecv dl sk HA)
    as [n1 H1].
  { by apply list_lookup_insert_eq. }
  rewrite list_insert_insert_eq in H1.
  destruct (play_locals B b (resultHeap h c) pc (S n)
              (<[k := WRun c (B ++ [EvWgDone])]> ws)
              k c [EvWgDone] false (CPrint line) (dl ++ [line]) sk HB)
    as [n2 H2].
  { by apply list_lookup_insert_eq. }
  rewrite list_insert_insert_eq in H2.
  exists (1 + (n1 + (1 + (n2 + 1)))).
  eapply steps_trans.
  { eapply steps_S; [|apply steps_O].
    apply (worker_start (Build_state b h pc (S n) ws false CRecv dl sk false)
             k c); done. }
  state_simpl. rewrite sendRequest_log, sendRequest_heap, Hlog.
  eapply steps_trans; [exact H1|].
  eapply steps_trans.
  { eapply steps_S; [|apply steps_O].
    apply (worker_send
             (Build_state b (resultHeap h c) pc (S n)
                (<[k := WRun c (EvSend line :: B ++ [EvWgDone])]> ws)
                false CRecv dl sk false) k c line (B ++ [EvWgDone]));
      [done| |done..].
    by apply list_lookup_insert_eq. }
  state_simpl. rewrite list_insert_insert_eq.
  eapply steps_trans; [exact H2|].
  eapply steps_S; [|apply steps_O].
  pose proof (worker_done
           (Build_state b (resultHeap h c) pc (S n)
              (<[k := WRun c [EvWgDone]]> ws) false (CPrint line)
              (dl ++ [line]) sk false) k c [] n) as Hd.
  cbn [set_wg set_workers workersS wgS batchS heapS mainS closedS consumerS
       deliveredS sinkS panicS] in Hd.
  rewrite list_insert_insert_eq in Hd.
  apply Hd; [done| |done]. by apply list_lookup_insert_eq.
Qed.

Lemma insert_Permutation {A} (ws : list A) (k : nat) x y rest :
  ws !! k = Some x → ws ≡ₚ x :: rest → <[k := y]> ws ≡ₚ y :: rest.
Proof.
  intros Hk Hp. destruct (insert_split ws k x y Hk) as (l1 & l2 & -> & ->).
  rewrite <- Permutation_middle in Hp. apply Permutation_cons_inv in Hp.
  by rewrite <- Permutation_middle, Hp.
Qed.

(** The goroutines that have been started, run one after the other in the
    order [perm]. *)
Lemma play_perm (h0 : heap) perm : ∀ b h pc w (ws : list worker) co dl sk done,
  co ≠ CExit → heap_ext h0 h →
  ws ≡ₚ (WStart <$> perm) ++ done →
  ∃ m h' ws' co' sk',
    steps m (Build_state b h pc (length perm + w) ws false co dl sk false)
      (Build_state b h' pc w ws' false co'
         (dl ++ (resultLine h0 <$> perm)) sk' false) ∧
    co' = match last perm with
          | Some c => CPrint (resultLine h0 c)
          | None => co
          end.
Proof.
  induction perm as [|c perm IH];
    intros b h pc w ws co dl sk done Hco Hext Hp.
  { exists 0, h, ws, co, sk. rewrite app_nil_r. split; [apply steps_O|done]. }
  assert (∃ m0 sk0,
    steps m0
      (Build_state b h pc (length (c :: perm) + w) ws false co dl sk false)
      (Build_state b h pc (length (c :: perm) + w) ws false CRecv dl sk0
         false)) as (m0 & sk0 & H0).
  { destruct co as [|l|]; [| |done].
    - exists 0, sk. apply steps_O.
    - exists 1, (sk ++ [l]). eapply steps_S; [|apply steps_O].
      by apply (consumer_print
                  (Build_state b h pc (length (c :: perm) + w) ws false
                     (CPrint l) dl sk false) l). }
  assert (WStart c ∈ ws) as [k Hk]%list_elem_of_lookup_1.
  { rewrite Hp. simpl. apply elem_of_cons. by left. }
  destruct (play_worker h0 b h pc (length perm + w) ws k c dl sk0 Hext Hk)
    as [m1 H1].
  destruct (IH b (resultHeap h c) pc w (<[k := WRun c []]> ws)
              (CPrint (resultLine h0 c)) (dl ++ [resultLine h0 c]) sk0
              (WRun c [] :: done)) as (m2 & h' & ws' & co' & sk' & H2 & Hco').
  { done. }
  { by apply heap_ext_resultHeap. }
  { rewrite <- Permutation_middle.
    eapply insert_Permutation; [exact Hk|]. by rewrite Hp. }
  exists (m0 + (m1 + m2)), h', ws', co', sk'. split.
  - eapply steps_trans; [exact H0|].
    eapply steps_trans; [exact H1|].
    rewrite <- app_assoc in H2. exact H2.
  - rewrite Hco'. destruct perm as [|c' perm]; [done|].
    rewrite last_cons_cons.
    destruct (last (c' :: perm)) eqn:E; [done|]. by apply last_None in E.
Qed.

(** A run in which the lines are received in a given order. *)
Lemma run_in_order batch (h0 : heap) perm :
  perm ≡ₚ batch →
  ∃ s, reachable batch h0 s ∧ mainS s = MDone ∧ closedS s = true ∧
       deliveredS s = resultLine h0 <$> perm ∧
       consumerS s = match last perm with
                     | Some c => CPrint (resultLine h0 c)
                     | None => CRecv
                     end.
Proof.
  intros Hp.
  destruct (spawn_all batch [] h0 0 []) as [n1 H1]. simpl in H1.
  destruct (play_perm h0 perm batch h0 MWait 0 (WStart <$> batch) CRecv [] []
              []) as (n2 & h' & ws' & co' & sk' & H2 & Hco');
    [done|apply heap_ext_refl|by rewrite app_nil_r, Hp|].
  rewrite Nat.add_0_r in H1, H2. rewrite (Permutation_length Hp) in H2.
  eexists. split_and!.
  - exists (n1 + (n2 + 2)). eapply steps_trans; [exact H1|].
    eapply steps_trans; [exact H2|].
    eapply steps_S; [by eapply main_wait|].
    eapply steps_S; [by eapply main_close|]. apply steps_O.
  - done.
  - done.
  - done.
  - done.
Qed.

(** The caller gets past [wg.Wait()] only when every request is
    complete: in a state in which the caller is at [close(results)] or has
    returned, one [sendRequest] goroutine has been started for every
    descriptor of the batch and each has run to its end (its line sent,
    the body of its response closed, [wg.Done()] called), the counter is
    zero and all the lines have been received.  So as long as one
    goroutine has not ended, [results] is open, the caller has not reached
    [close(results)] and the counter is positive. *)
Theorem requests_complete_before_close batch (h0 : heap) :
  (∀ s, reachable batch h0 s → mainS s = MClose ∨ mainS s = MDone →
     config_of <$> workersS s = batch ∧ wgS s = 0 ∧
     Forall (λ w, finished w = true) (workersS s) ∧
     deliveredS s ≡ₚ resultLine h0 <$> batch) ∧
  (∀ s (k : nat) w, reachable batch h0 s →
     workersS s !! k = Some w → finished w = false →
     closedS s = false ∧ mainS s ≠ MClose ∧ mainS s ≠ MDone ∧ 0 < wgS s).
Proof.
  split.
  - intros s [Hb Hp Hh Hw Hm Hc Hd Hk]%inv_reachable Hpc.
    unfold main_ok in Hm.
    assert (config_of <$> workersS s = batch ∧ wgS s = 0 ∧
            Forall (λ w, finished w = true) (workersS s))
      as (Hcfg & Hwg & Hall).
    { by destruct Hpc as [Hpc|Hpc]; rewrite Hpc in Hm. }
    split_and!; [done..|].
    by rewrite Hd, (sentLines_finished h0), Hcfg.
  - intros s k w [Hb Hp Hh Hw Hm Hc Hd Hk]%inv_reachable Hlook Hf.
    pose proof (doneCount_pos _ _ _ Hlook Hf) as Hpos.
    pose proof (not_all_finished _ _ _ Hlook Hf) as Hnot.
    assert (Hopen : mainS s ≠ MDone → closedS s = false).
    { intros Hne. destruct (closedS s) eqn:E; [|done].
      destruct Hne. by apply Hc. }
    unfold main_ok in Hm.
    destruct (mainS s) as [i|c i| | |].
    + destruct Hm as (_ & _ & ->). split_and!; [by apply Hopen|done..|lia].
    + destruct Hm as (_ & _ & ->). split_and!; [by apply Hopen|done..|lia].
    + destruct Hm as (_ & ->). split_and!; [by apply Hopen|done..].
    + by destruct Hm as (_ & _ & ?).
    + by destruct Hm as (_ & _ & ?).
Qed.

(** The order in which the lines are received is not the order of the
    batch: for every arrangement of the descriptors there is a run in which
    the lines are received in that order, and the caller returns after
    it. *)
Theorem lines_in_any_order batch (h0 : heap) perm :
  perm ≡ₚ batch →
  ∃ s, reachable batch h0 s ∧ mainS s = MDone ∧ closedS s = true ∧
       deliveredS s = resultLine h0 <$> perm.
Proof.
  intros Hp.
  destruct (run_in_order batch h0 perm Hp) as (s & ? & ? & ? & ? & _).
  by exists s.
Qed.

(** The caller does not wait for the last line to be written: for every
    batch that is not empty there is a run in which the caller has closed
    [results] and returned, every line has been received, and the last
    one is still to be written.  In [main], returning ends the program. *)
Theorem last_line_unwritten_at_return c batch (h0 : heap) :
  ∃ s line,
    reachable (c :: batch) h0 s ∧ mainS s = MDone ∧ closedS s = true ∧
    consumerS s = CPrint line ∧
    deliveredS s = sinkS s ++ [line] ∧
    length (sinkS s) = length batch.
Proof.
  destruct (run_in_order (c :: batch) h0 (c :: batch)) as
    (s & Hs & Hm & Hcl & Hd & Hco); [done|].
  pose proof (inv_reachable _ _ _ Hs) as [_ _ _ _ _ _ _ Hk].
  unfold consumer_ok in Hk. rewrite Hco in Hk.
  destruct (last (c :: batch)) as [c'|] eqn:Hlast.
  2:{ by apply last_None in Hlast. }
  exists s, (resultLine h0 c'). split_and!; try done.
  apply (f_equal length) in Hk. rewrite Hd, length_app, length_fmap in Hk.
  simpl in Hk. lia.
Qed.

(** ** The command *)

Lemma pexec_step flags who p p' :
  pexec flags who p = Some p' → pstep flags p p'.
Proof.
  unfold pexec. destruct (exitedP p) eqn:He; [done|].
  destruct who.
  - destruct (mainT p) as [|a rest] eqn:Hm; [done|].
    intros [= <-]. by apply p_main.
  - destruct (goT p) as [[|a rest]|] eqn:Hg; try done.
    intros [= <-]. by apply p_go.
Qed.

Lemma prun_rtc flags sched p p' :
  prun flags sched p = Some p' → rtc (pstep flags) p p'.
Proof.
  revert p. induction sched as [|who sched IH]; intros p; simpl.
  - intros [= <-]. apply rtc_refl.
  - destruct (pexec flags who p) as [p1|] eqn:E; [|done].
    intros Hrun. eapply rtc_l; [by eapply pexec_step|by apply IH].
Qed.

Lemma fatals_app l1 l2 : fatals (l1 ++ l2) = fatals l1 ++ fatals l2.
Proof. apply omap_app. Qed.

Lemma fatals_snoc l a :
  fatals (l ++ [a]) =
  fatals l ++ match a with AFatal msg => [msg] | _ => [] end.
Proof. rewrite fatals_app. by destruct a. Qed.

(** What the calling goroutine does under [-http3], path by path. *)
Lemma main_http3_paths flags :
  let log := (main_http3 flags).1 in
  Forall (λ a, isConfigRead a = false) log ∧
  (∀ a c k, AListenAndServeTLS a c k ∉ log) ∧
  (∀ a c k, AGoServe a c k ∈ log →
     a = addr flags ∧ c = certPath ∧ k = keyPath ∧
     os_IsNotExist (os_Stat certPath) = false ∧
     os_IsNotExist (os_Stat keyPath) = false) ∧
  (∀ a c k, AServeHTTP3 a c k ∈ log →
     os_IsNotExist (os_Stat certPath) = false ∧
     os_IsNotExist (os_Stat keyPath) = false ∧
     tls_LoadX509KeyPair certPath keyPath = None) ∧
  (os_IsNotExist (os_Stat certPath) || os_IsNotExist (os_Stat keyPath) = true →
     Forall (λ a, isServe a = false) log).
Proof.
  unfold main_http3, andThen. cbn [fst snd app].
  destruct (os_IsNotExist (os_Stat certPath)); cbn [fst snd app orb].
  { split_and!.
    - by repeat constructor.
    - intros a c k Hin. by repeat (apply elem_of_cons in Hin as [?|Hin]);
        try apply elem_of_nil in Hin.
    - intros a c k Hin. by repeat (apply elem_of_cons in Hin as [?|Hin]);
        try apply elem_of_nil in Hin.
    - intros a c k Hin. by repeat (apply elem_of_cons in Hin as [?|Hin]);
        try apply elem_of_nil in Hin.
    - intros _. by repeat constructor. }
  destruct (os_IsNotExist (os_Stat keyPath)); cbn [fst snd app orb].
  { split_and!.
    - by repeat constructor.
    - intros a c k Hin. by repeat (apply elem_of_cons in Hin as [?|Hin]);
        try apply elem_of_nil in Hin.
    - intros a c k Hin. by repeat (apply elem_of_cons in Hin as [?|Hin]);
        try apply elem_of_nil in Hin.
    - intros a c k Hin. by repeat (apply elem_of_cons in Hin as [?|Hin]);
        try apply elem_of_nil in Hin.
    - intros _. by repeat constructor. }
  destruct (tls_LoadX509KeyPair certPath keyPath) as [err|];
    cbn [fst snd app].
  { split_and!.
    - by repeat constructor.
    - intros a c k Hin. by repeat (apply elem_of_cons in Hin as [?|Hin]);
        try apply elem_of_nil in Hin.
    - intros a c k Hin.
      repeat (apply elem_of_cons in Hin as [Hin|Hin]); try done;
        [by injection Hin as -> -> ->|by apply elem_of_nil in Hin].
    - intros a c k Hin. by repeat (apply elem_of_cons in Hin as [?|Hin]);
        try apply elem_of_nil in Hin.
    - done. }
  destruct (quic_ListenAndServeTLS (http3Addr flags) certPath keyPath)
    as [err|]; cbn [fst snd app].
  - split_and!.
    + by repeat constructor.
    + intros a c k Hin. by repeat (apply elem_of_cons in Hin as [?|Hin]);
        try apply elem_of_nil in Hin.
    + intros a c k Hin.
      repeat (apply elem_of_cons in Hin as [Hin|Hin]); try done;
        [by injection Hin as -> -> ->|by apply elem_of_nil in Hin].
    + done.
    + done.
  - split_and!.
    + by repeat constructor.
    + intros a c k Hin. by repeat (apply elem_of_cons in Hin as [?|Hin]);
        try apply elem_of_nil in Hin.
    + intros a c k Hin.
      repeat (apply elem_of_cons in Hin as [Hin|Hin]); try done;
        [by injection Hin as -> -> ->|by apply elem_of_nil in Hin].
    + done.
    + done.
Qed.

Lemma http1_goroutine_paths flags :
  Forall (λ a, isConfigRead a = false) (http1_goroutine flags) ∧
  (∀ a c k, AServeHTTP3 a c k ∉ http1_goroutine flags).
Proof.
  unfold http1_goroutine.
  destruct (server_ListenAndServeTLS (addr flags) certPath keyPath);
    cbn [app]; split; try (by repeat constructor);
    intros a c k Hin;
    by repeat (apply elem_of_cons in Hin as [?|Hin]);
      try apply elem_of_nil in Hin.
Qed.

(** Every call made so far is a call of one of the two goroutines, the
    goroutine of the HTTP/1.1 server makes none before it is started, and
    the program has exited exactly when a [log.Fatal] has been called. *)
Lemma preachable_inv flags p :
  preachable flags p →
  (∃ m, (main_http3 flags).1 = m ++ mainT p ∧
        (goT p = None → traceP p = m)) ∧
  (∀ rest, goT p = Some rest →
     AGoServe (addr flags) certPath keyPath ∈ (main_http3 flags).1) ∧
  Forall (λ a, a ∈ (main_http3 flags).1 ∨
               (a ∈ http1_goroutine flags ∧
                AGoServe (addr flags) certPath keyPath
                ∈ (main_http3 flags).1)) (traceP p) ∧
  (∀ rest, goT p = Some rest → ∃ g, http1_goroutine flags = g ++ rest) ∧
  (exitedP p = false → fatals (traceP p) = []) ∧
  (exitedP p = true →
     ∃ msg, fatals (traceP p) = [msg] ∧ last (traceP p) = Some (AFatal msg)).
Proof.
  unfold preachable. revert p.
  apply rtc_ind_r; [|intros p p' Hp Hstep IH].
  { split_and!; try done. by exists []. }
  destruct IH as ((m & Hm & Htr) & Hgo & Hall & Hg & Hno & Hex).
  destruct Hstep as [p a rest He Hmt|p a rest He Hgt];
    cbn [mainT goT traceP exitedP].
  - assert (a ∈ (main_http3 flags).1) as Ha.
    { rewrite Hm, Hmt. apply elem_of_app. right. by left. }
    split_and!.
    + exists (m ++ [a]). rewrite Hm, Hmt, <- app_assoc. split; [done|].
      destruct a; try (by intros ->%Htr). done.
    + intros rest'. destruct a; try apply Hgo. intros _.
      by destruct (proj1 (proj2 (proj2 (main_http3_paths flags))) _ _ _ Ha)
        as (<- & <- & <- & _).
    + apply Forall_app. split; [done|]. constructor; [by left|constructor].
    + intros rest'. destruct a; try apply Hg. intros [= <-]. by exists [].
    + intros Hf. rewrite fatals_snoc, (Hno He). by destruct a.
    + intros Hf. destruct a; try done. exists msg.
      by rewrite fatals_snoc, (Hno He), last_snoc.
  - destruct (Hg _ Hgt) as [g Hgo'].
    assert (a ∈ http1_goroutine flags) as Ha.
    { rewrite Hgo'. apply elem_of_app. right. by left. }
    split_and!.
    + exists m. by split.
    + intros _ _. by eapply Hgo.
    + apply Forall_app. split; [done|].
      constructor; [|constructor]. right. split; [done|]. by eapply Hgo.
    + intros rest' [= <-]. exists (g ++ [a]). by rewrite <- app_assoc.
    + intros Hf. rewrite fatals_snoc, (Hno He). by destruct a.
    + intros Hf. destruct a; try done. exists msg.
      by rewrite fatals_snoc, (Hno He), last_snoc.
Qed.

(** With [-http3] the command reads no configuration, whatever [-config]
    says.  When [os.Stat] reports a file missing, no goroutine and no
    server is started.  A server is started only when neither is reported
    missing (an error of [os.Stat] of another kind passes the check), the
    HTTP/3 server only when the key pair has loaded as well.  The program
    has exited exactly when a [log.Fatal] has been called, by the calling
    goroutine or by the goroutine of the HTTP/1.1 server.  When the
    HTTP/1.1 server cannot serve, the [log.Fatal] of its goroutine ends the
    whole program: there is a run in which it does so before the HTTP/3
    server is started. *)
Theorem http3_mode flags (h : heap) :
  useHTTP3 flags = true →
  main flags h = main_http3 flags ∧
  (∀ p, preachable flags p →
     Forall (λ a, isConfigRead a = false) (traceP p) ∧
     (os_IsNotExist (os_Stat certPath) || os_IsNotExist (os_Stat keyPath)
      = true →
        goT p = None ∧ Forall (λ a, isServe a = false) (traceP p)) ∧
     (∀ a c k, AListenAndServeTLS a c k ∈ traceP p ∨
               AServeHTTP3 a c k ∈ traceP p →
        os_IsNotExist (os_Stat certPath) = false ∧
        os_IsNotExist (os_Stat keyPath) = false) ∧
     (∀ a c k, AServeHTTP3 a c k ∈ traceP p →
        tls_LoadX509KeyPair certPath keyPath = None) ∧
     (exitedP p = true ↔ fatals (traceP p) ≠ [])) ∧
  (os_IsNotExist (os_Stat certPath) = false →
   os_IsNotExist (os_Stat keyPath) = false →
   ∀ err, server_ListenAndServeTLS (addr flags) certPath keyPath = Some err →
   ∃ p, preachable flags p ∧ exitedP p = true ∧
        fatals (traceP p) = [err] ∧
        ∀ a c k, AServeHTTP3 a c k ∉ traceP p).
Proof.
  intros Hf. split_and!.
  - unfold main. by rewrite Hf.
  - intros p Hp.
    destruct (preachable_inv flags p Hp)
      as ((m & Hm & Htr) & Hgo & Hall & _ & Hno & Hex).
    destruct (main_http3_paths flags) as (Hc & Hl & Hg & Hs & Hmiss).
    destruct (http1_goroutine_paths flags) as (Hc' & Hs').
    rewrite Forall_forall in Hall, Hc, Hc'.
    split_and!.
    + apply Forall_forall. intros a [Ha|[Ha _]]%Hall; auto.
    + intros Hmissing.
      assert (goT p = None) as Hnone.
      { destruct (goT p) as [rest|] eqn:E; [|done].
        destruct (Hg _ _ _ (Hgo _ eq_refl)) as (_ & _ & _ & H1 & H2).
        by rewrite H1, H2 in Hmissing. }
      split; [done|]. specialize (Hmiss Hmissing).
      rewrite Forall_forall in Hmiss. apply Forall_forall.
      intros a Ha. apply Hmiss. rewrite Hm. apply elem_of_app. left.
      by rewrite <- (Htr Hnone).
    + intros a c k [Ha|Ha].
      * destruct (Hall _ Ha) as [Ha'|[_ Ha']]; [by apply Hl in Ha'|].
        by destruct (Hg _ _ _ Ha') as (_ & _ & _ & ? & ?).
      * destruct (Hall _ Ha) as [Ha'|[Ha' _]]; [|by apply Hs' in Ha'].
        by destruct (Hs _ _ _ Ha') as (? & ? & _).
    + intros a c k Ha.
      destruct (Hall _ Ha) as [Ha'|[Ha' _]]; [|by apply Hs' in Ha'].
      by destruct (Hs _ _ _ Ha') as (_ & _ & ?).
    + split.
      * intros (msg & -> & _)%Hex. done.
      * intros Hne. destruct (exitedP p) eqn:He; [done|].
        by rewrite (Hno eq_refl) in Hne.
  - intros Hcert Hkey err Herr.
    assert (∃ tl, (main_http3 flags).1 =
              [APrintln ("Using cert.pem path:" +:+ " " +:+ certPath);
               APrintln ("Using key.pem path:" +:+ " " +:+ keyPath);
               AStat certPath; AStat keyPath;
               AGoServe (addr flags) certPath keyPath] ++ tl) as [tl Hm].
    { unfold main_http3, andThen. rewrite Hcert, Hkey. cbn [fst snd app].
      eexists. reflexivity. }
    assert (http1_goroutine flags =
              [ALogPrintf ("Starting HTTP/1.1 and HTTP/2 server on "
                           +:+ addr flags);
               AListenAndServeTLS (addr flags) certPath keyPath;
               AFatal err]) as Hg.
    { unfold http1_goroutine. by rewrite Herr. }
    exists {| mainT := tl; goT := Some [];
              traceP :=
                [APrintln ("Using cert.pem path:" +:+ " " +:+ certPath);
                 APrintln ("Using key.pem path:" +:+ " " +:+ keyPath);
                 AStat certPath; AStat keyPath;
                 AGoServe (addr flags) certPath keyPath;
                 ALogPrintf ("Starting HTTP/1.1 and HTTP/2 server on "
                             +:+ addr flags);
                 AListenAndServeTLS (addr flags) certPath keyPath;
                 AFatal err];
              exitedP := true |}.
    split_and!; [|done..|].
    + apply (prun_rtc flags
               [true; true; true; true; true; false; false; false]).
      unfold proc_init. rewrite Hm.
      cbn [prun pexec exitedP mainT goT traceP isFatal app].
      rewrite Hg.
      cbn [prun pexec exitedP mainT goT traceP isFatal app].
      reflexivity.
    + cbn [traceP]. intros a c k Hin.
      by repeat (apply elem_of_cons in Hin as [?|Hin]);
        try apply elem_of_nil in Hin.
Qed.

(** Without [-http3] the command starts no server.  With no [-config] it
    prints the usage and exits.  With [-config] it dispatches exactly when
    the file can be read, is JSON and is well typed throughout, and then
    the batch is the decoded one; in every other case it exits with one
    [log.Fatalf] and sends no request. *)
Theorem config_mode flags (h : heap) :
  useHTTP3 flags = false →
  let log := (main flags h).1 in
  let res := (main flags h).2 in
  List.filter isServe log = [] ∧
  (configFile flags = "" →
     main flags h =
       ([AFatal
           "Usage: api-dispatcher -config=<config-file> or api-dispatcher -http3"],
        Exited)) ∧
  (configFile flags ≠ "" →
     match ioutil_ReadFile (configFile flags) with
     | inl err =>
         main flags h =
           ([AReadFile (configFile flags);
             AFatal ("Error reading config file: " +:+ err)], Exited)
     | inr data =>
         match json_parse data with
         | Some v =>
             if configOK v then
               main flags h =
                 ([AReadFile (configFile flags); ALoadConfig data],
                  DispatchingCLI
                    (init (Requests (val_of (decodeConfig v Config_zero h)).1)
                       (heap_of (decodeConfig v Config_zero h))))
             else
               res = Exited ∧
               ∃ msg, log = [AReadFile (configFile flags); ALoadConfig data;
                             AFatal ("Error loading config: " +:+ msg)]
         | None =>
             main flags h =
               ([AReadFile (configFile flags); ALoadConfig data;
                 AFatal ("Error loading config: "
                         +:+ json_errorText json.SyntaxError)], Exited)
         end
     end).
Proof.
  intros Hf log res. unfold log, res, main. rewrite Hf.
  destruct (String.eqb (configFile flags) "") eqn:Hc.
  { apply String.eqb_eq in Hc. by split_and!. }
  apply String.eqb_neq in Hc. simpl. unfold main_cli, loadConfigFromBody.
  destruct (ioutil_ReadFile (configFile flags)) as [err|data].
  { by split_and!. }
  destruct (json_parse data) as [v|]; [|by split_and!].
  pose proof (decode_ok_iff_well_typed v Config_zero h) as Hok.
  destruct ((val_of (decodeConfig v Config_zero h)).2) as [e|].
  - destruct (configOK v).
    { destruct Hok as [_ Hok]. by specialize (Hok eq_refl). }
    split_and!; [done|done|]. intros _. split; [done|]. by eexists.
  - destruct (configOK v); [by split_and!|].
    destruct Hok as [Hok _]. by specialize (Hok eq_refl).
Qed.

End Dispatcher.

(** ** JSON written and read back *)

Lemma append_cons c s t :
  String.String c s +:+ t = String.String c (s +:+ t).
Proof. reflexivity. Qed.

Lemma append_assoc (s t u : string) : (s +:+ t) +:+ u = s +:+ (t +:+ u).
Proof.
  induction s as [|c s IH]; [reflexivity|].
  by rewrite !append_cons, IH.
Qed.

Lemma length_append (s t : string) :
  String.length (s +:+ t) = String.length s + String.length t.
Proof.
  induction s as [|c s IH]; [reflexivity|].
  rewrite append_cons. simpl. by rewrite IH.
Qed.

Lemma parseChars_escapeByte c t :
  TestDouble.parseChars (TestDouble.escapeByte c +:+ t) =
  prod_map (String.String c) id <$> TestDouble.parseChars t.
Proof.
  destruct c as [[] [] [] [] [] [] [] []]; reflexivity.
Qed.

Lemma parseChars_escape s t :
  TestDouble.parseChars
    (TestDouble.escape s +:+ String.String TestDouble.dq t) = Some (s, t).
Proof.
  induction s as [|c s IH]; [reflexivity|].
  cbn [TestDouble.escape].
  by rewrite append_assoc, parseChars_escapeByte, IH.
Qed.

Lemma encodeString_append s t :
  TestDouble.encodeString s +:+ t =
  String.String TestDouble.dq
    (TestDouble.escape s +:+ String.String TestDouble.dq t).
Proof.
  unfold TestDouble.encodeString, TestDouble.quoted.
  by rewrite append_cons, append_assoc.
Qed.

Lemma parseValue_string fuel s t :
  TestDouble.parseValue (S fuel) (TestDouble.encodeString s +:+ t) =
  Some (json.String s, t).
Proof.
  rewrite encodeString_append. cbn [TestDouble.parseValue TestDouble.skipWS].
  change (TestDouble.isWS TestDouble.dq) with false. cbv iota.
  change (Ascii.eqb TestDouble.dq TestDouble.dq) with true. cbv iota.
  by rewrite parseChars_escape.
Qed.

Lemma parseMember_entry pv k v t :
  (∀ s t, pv (TestDouble.encodeString s +:+ t) = Some (json.String s, t)) →
  TestDouble.parseMember pv
    (TestDouble.encodeString k +:+ ":" +:+ TestDouble.encodeString v +:+ t)
  = Some ((k, json.String v), t).
Proof.
  intros Hpv. rewrite encodeString_append.
  unfold TestDouble.parseMember. cbn [TestDouble.skipWS].
  change (TestDouble.isWS TestDouble.dq) with false. cbv iota.
  change (Ascii.eqb TestDouble.dq TestDouble.dq) with true. cbv iota.
  rewrite parseChars_escape, append_cons. cbn [TestDouble.skipWS].
  change (TestDouble.isWS ":") with false. cbv iota.
  change ("" +:+ ?x) with x.
  by rewrite Hpv.
Qed.

Lemma joinMembers_cons2 kv kv' l :
  TestDouble.joinMembers (kv :: kv' :: l) =
  TestDouble.encodeString kv.1 +:+ ":" +:+ TestDouble.encodeString kv.2
  +:+ "," +:+ TestDouble.joinMembers (kv' :: l).
Proof. reflexivity. Qed.

Lemma joinMembers_tail kv l :
  TestDouble.joinMembers (kv :: l) +:+ "}" =
  TestDouble.encodeString kv.1 +:+ ":" +:+ TestDouble.encodeString kv.2
  +:+ TestDouble.membersTail l.
Proof.
  revert kv. induction l as [|kv' l IH]; intros kv.
  - cbn [TestDouble.joinMembers TestDouble.membersTail]. by rewrite !append_assoc.
  - rewrite joinMembers_cons2. cbn [TestDouble.membersTail].
    rewrite !append_assoc. do 3 f_equal.
    rewrite append_cons. f_equal. change ("" +:+ ?x) with x.
    rewrite IH. reflexivity.
Qed.

Lemma length_membersTail l : length l < String.length (TestDouble.membersTail l).
Proof.
  induction l as [|kv l IH]; [simpl; lia|].
  cbn [TestDouble.membersTail length]. rewrite !length_append. simpl. lia.
Qed.

Lemma parseMembers_tail pv n l :
  (∀ s t, pv (TestDouble.encodeString s +:+ t) = Some (json.String s, t)) →
  length l < n →
  TestDouble.parseMembers pv n (TestDouble.membersTail l) =
  Some ((λ kv, (kv.1, json.String kv.2)) <$> l, "").
Proof.
  intros Hpv. revert n. induction l as [|kv l IH]; intros n Hn.
  - destruct n as [|n]; [simpl in Hn; lia|]. reflexivity.
  - destruct n as [|n]; [simpl in Hn; lia|].
    cbn [TestDouble.membersTail TestDouble.parseMembers].
    rewrite append_cons. cbn [TestDouble.skipWS].
    change (TestDouble.isWS ",") with false. cbv iota.
    change ("" +:+ ?x) with x.
    rewrite parseMember_entry by done.
    rewrite IH by (simpl in Hn; lia). reflexivity.
Qed.

Lemma parseValue_object fuel r :
  TestDouble.parseValue (S fuel)
    (String.String "{" (String.String TestDouble.dq r)) =
  match TestDouble.parseMember (TestDouble.parseValue fuel)
          (String.String TestDouble.dq r) with
  | Some (kv, rest) =>
      prod_map (λ kvs, json.Object (kv :: kvs)) id
        <$> TestDouble.parseMembers (TestDouble.parseValue fuel)
              (String.length rest) rest
  | None => None
  end.
Proof. reflexivity. Qed.

Lemma json_parse_Marshal (m : gmap string string) :
  TestDouble.json_parse (TestDouble.json_Marshal m) =
  Some (json.Object
          ((λ kv, (kv.1, json.String kv.2)) <$>
             TestDouble.sortEntries (map_to_list m))).
Proof.
  unfold TestDouble.json_Marshal.
  destruct (TestDouble.sortEntries (map_to_list m)) as [|kv l]; [reflexivity|].
  rewrite append_cons. change ("" +:+ ?x) with x.
  rewrite joinMembers_tail.
  unfold TestDouble.json_parse.
  rewrite encodeString_append.
  change (String.length (String.String "{" (String.String TestDouble.dq ?r)))
    with (S (S (String.length r))).
  rewrite parseValue_object, <- encodeString_append.
  rewrite parseMember_entry by (intros; apply parseValue_string).
  rewrite parseMembers_tail;
    [reflexivity|intros; apply parseValue_string|apply length_membersTail].
Qed.

Lemma insertEntry_perm kv l : TestDouble.insertEntry kv l ≡ₚ kv :: l.
Proof.
  induction l as [|x l IH]; [done|]. simpl.
  destruct (String.leb kv.1 x.1); [done|].
  by rewrite IH, Permutation_swap.
Qed.

Lemma sortEntries_perm l : TestDouble.sortEntries l ≡ₚ l.
Proof.
  induction l as [|kv l IH]; [done|].
  unfold TestDouble.sortEntries in *. simpl.
  by rewrite insertEntry_perm, IH.
Qed.

(** What the writer writes for a map, the reader reads as the object of
    its entries. *)
Lemma Unmarshal_Marshal (m : gmap string string) :
  Unmarshal_map TestDouble.json_parse (TestDouble.json_Marshal m) = (m, None).
Proof.
  apply (Unmarshal_map_strings TestDouble.json_parse _
           (TestDouble.sortEntries (map_to_list m))).
  - apply sortEntries_perm.
  - apply json_parse_Marshal.
Qed.

(** C4, as the code has it.  The request is constructed with the
    serialized body as its payload exactly when the method is the string
    [POST] and the body map is not nil, and with no payload otherwise, for
    a [PUT] or a [PATCH] with a body too; the payload is what [client.Do]
    is handed.  The payload is the text that [json.Marshal] writes for the
    map, and when the keys and the values of the map are ASCII, reading
    that text as JSON and decoding it into a [map[string]string] gives
    the map back, without error. *)
Theorem post_body_is_payload
    (NewRequest_error : string → string → option string) (Response : Type)
    (client_Do : Wire → string + Response)
    (ioutil_ReadAll : Response → string + string)
    (rangeOrder : gmap string string → list (string * string))
    config (h : heap) :
  let m := strmap_at h (Body config) in
  let log := log_of (sendRequest NewRequest_error Response client_Do
                       ioutil_ReadAll TestDouble.json_Marshal rangeOrder
                       config h) in
  (Method config = "POST" ∧ Body config ≠ None →
     head log = Some (EvNewRequest (Method config) (URL config)
                        (Some (TestDouble.json_Marshal m))) ∧
     (∀ w, w ∈ wires log → wBody w = Some (TestDouble.json_Marshal m)) ∧
     ((∀ k v, m !! k = Some v → isASCII k = true ∧ isASCII v = true) →
        Unmarshal_map TestDouble.json_parse (TestDouble.json_Marshal m)
        = (m, None))) ∧
  (¬ (Method config = "POST" ∧ Body config ≠ None) →
     head log = Some (EvNewRequest (Method config) (URL config) None) ∧
     (∀ w, w ∈ wires log → wBody w = None)).
Proof.
  intros m log.
  destruct (payload_of_request NewRequest_error Response client_Do
              ioutil_ReadAll TestDouble.json_Marshal TestDouble.json_parse
              rangeOrder config h) as [Hpost Hother].
  split; [|exact Hother].
  intros Hb. destruct (Hpost Hb) as (Hhead & Hwire & _).
  split_and!; [exact Hhead|exact Hwire|].
  intros _. apply Unmarshal_Marshal.
Qed.


(** ** Two networks

    The same program against two networks that answer alike for one
    descriptor and in any way for the others. *)
Section Isolation.
Variable NewRequest_error : string → string → option string.
Variable Response : Type.
Variables client_Do client_Do' : Wire → string + Response.
Variable ioutil_ReadAll : Response → string + string.
Variable json_Marshal : gmap string string → string.
Variable rangeOrder : gmap string string → list (string * string).

Local Abbreviation line :=
  (resultLine NewRequest_error Response client_Do ioutil_ReadAll
     json_Marshal rangeOrder).
Local Abbreviation line' :=
  (resultLine NewRequest_error Response client_Do' ioutil_ReadAll
     json_Marshal rangeOrder).
Local Abbreviation reach :=
  (reachable NewRequest_error Response client_Do ioutil_ReadAll
     json_Marshal rangeOrder).
Local Abbreviation reach' :=
  (reachable NewRequest_error Response client_Do' ioutil_ReadAll
     json_Marshal rangeOrder).

Lemma resultLine_agree (h : heap) c :
  client_Do (wireOf json_Marshal rangeOrder h c) =
  client_Do' (wireOf json_Marshal rangeOrder h c) →
  line h c = line' h c.
Proof. intros Hc. unfold resultLine. by rewrite Hc. Qed.

(** C5.  Take a descriptor [c] and two dispatches that contain it: other
    descriptors around it, in other numbers, and a network that answers
    the others differently (or not at all), but [c] alike.  When [results]
    is closed, each dispatch has received the same line for [c], next to
    the lines of its other descriptors.  In no state of any dispatch has a
    goroutine panicked, and as long as [results] is open some goroutine can
    move: no line, whatever it reports, stops the others. *)
Theorem siblings_do_not_interfere c pre post pre' post' (h0 : heap) :
  client_Do (wireOf json_Marshal rangeOrder h0 c) =
  client_Do' (wireOf json_Marshal rangeOrder h0 c) →
  (∀ s, reach (pre ++ c :: post) h0 s → closedS s = true →
     deliveredS s ≡ₚ line h0 c :: (line h0 <$> (pre ++ post))) ∧
  (∀ s, reach' (pre' ++ c :: post') h0 s → closedS s = true →
     deliveredS s ≡ₚ line h0 c :: (line' h0 <$> (pre' ++ post'))) ∧
  (∀ batch s, reach batch h0 s →
     panicS s = false ∧
     (closedS s = false →
      ∃ s', step NewRequest_error Response client_Do ioutil_ReadAll
              json_Marshal rangeOrder s s')).
Proof.
  intros Hagree. split_and!.
  - intros s Hs Hcl. apply inv_reachable in Hs.
    rewrite (closed_delivered _ _ _ _ _ _ _ _ _ Hs Hcl).
    by rewrite !fmap_app, fmap_cons, Permutation_middle.
  - intros s Hs Hcl. apply inv_reachable in Hs.
    rewrite (closed_delivered _ _ _ _ _ _ _ _ _ Hs Hcl).
    rewrite (resultLine_agree h0 c Hagree).
    by rewrite !fmap_app, fmap_cons, Permutation_middle.
  - intros batch s Hs. apply inv_reachable in Hs. split.
    + by destruct Hs.
    + intros Hcl.
      destruct (progress _ _ _ _ _ _ _ _ _ Hs) as [(Hm & _)|]; [|done].
      destruct Hs as [_ _ _ _ _ Hc _ _]. apply Hc in Hm. congruence.
Qed.

End Isolation.

(** ** The program against the test double *)

Abbreviation sendRequest_td :=
  (sendRequest TestDouble.NewRequest_error TestDouble.Response
     TestDouble.client_Do TestDouble.ioutil_ReadAll TestDouble.json_Marshal
     TestDouble.rangeOrder).

Abbreviation reachable_td :=
  (reachable TestDouble.NewRequest_error TestDouble.Response
     TestDouble.client_Do TestDouble.ioutil_ReadAll TestDouble.json_Marshal
     TestDouble.rangeOrder).

Lemma hasSuffix_app u t : hasSuffix (u +:+ t) t = true.
Proof.
  induction u as [|c u IH]; simpl.
  - destruct t; simpl; by rewrite ?Ascii.eqb_refl, ?String.eqb_refl.
  - by rewrite IH, orb_true_r.
Qed.

Lemma hasSuffix_prefixed p u t : hasSuffix (p +:+ u +:+ t) t = true.
Proof.
  induction p as [|c p IH].
  - exact (hasSuffix_app u t).
  - change (String.eqb (String.String c (p +:+ u +:+ t)) t
            || hasSuffix (p +:+ u +:+ t) t = true).
    by rewrite IH, orb_true_r.
Qed.

Abbreviation run_td :=
  (run TestDouble.NewRequest_error TestDouble.Response
     TestDouble.client_Do TestDouble.ioutil_ReadAll TestDouble.json_Marshal
     TestDouble.rangeOrder).

Abbreviation main_td :=
  (main TestDouble.json_parse TestDouble.os_Stat
     TestDouble.tls_LoadX509KeyPair TestDouble.ioutil_ReadFile
     TestDouble.quic_ListenAndServeTLS TestDouble.json_errorText).

(** The scenario of the specification, one descriptor at a time. *)
Example ok_line :
  sends (log_of (sendRequest_td TestDouble.okGet TestDouble.heap0)) =
  ["Response from https://example.test/ok: hello"].
Proof. by vm_compute. Qed.

Example down_line :
  sends (log_of (sendRequest_td TestDouble.downGet TestDouble.heap0)) =
  ["Error sending request to https://example.test/down: connection refused"].
Proof. by vm_compute. Qed.

(** C3, as the claim has it, fails.  The refused connection of the
    scenario is answered with a line that is not ["Error transmission for
    https://example.test/down: connection refused"], and that is
    ["Error " ++ stage ++ " for https://example.test/down: connection
    refused"] for no [stage] at all: the line reads [... to ...]. *)
Lemma transmission_line_counterexample :
  TestDouble.client_Do
    (wireOf TestDouble.json_Marshal TestDouble.rangeOrder TestDouble.heap0
       TestDouble.downGet) = inl "connection refused" ∧
  ¬ ∃ stage,
      sends (log_of (sendRequest_td TestDouble.downGet TestDouble.heap0)) =
      ["Error " +:+ stage +:+ " for " +:+ URL TestDouble.downGet +:+ ": "
       +:+ "connection refused"].
Proof.
  split; [by vm_compute|]. intros [stage H]. rewrite down_line in H.
  pose proof (hasSuffix_prefixed "Error " stage
    " for https://example.test/down: connection refused") as Hs.
  apply (f_equal (λ l, default "" (head l))) in H.
  change ("Error sending request to https://example.test/down: connection refused"
          = "Error " +:+ stage
            +:+ " for https://example.test/down: connection refused") in H.
  rewrite <- H in Hs. by vm_compute in Hs.
Qed.

(** C4, as the claim has it, fails for a method other than [POST] that
    carries a payload in HTTP: a [PUT] descriptor with a body map is
    constructed with no payload, and [client.Do] is handed none. *)
Lemma put_body_counterexample :
  Method TestDouble.echoPut = "PUT" ∧
  strmap_at TestDouble.heap0 (Body TestDouble.echoPut) = {[ "title" := "foo" ]} ∧
  head (log_of (sendRequest_td TestDouble.echoPut TestDouble.heap0)) =
    Some (EvNewRequest "PUT" "https://example.test/echo" None) ∧
  wBody <$> wires (log_of (sendRequest_td TestDouble.echoPut TestDouble.heap0))
    = [None] ∧
  ¬ ∃ w, w ∈ wires (log_of (sendRequest_td TestDouble.echoPut
                              TestDouble.heap0)) ∧
         wBody w = Some (TestDouble.json_Marshal {[ "title" := "foo" ]}).
Proof.
  split_and!; [by vm_compute..|]. intros (w & Hin & Hbody).
  apply (list_elem_of_fmap_2 wBody) in Hin. rewrite Hbody in Hin.
  remember (wBody <$> wires (log_of (sendRequest_td TestDouble.echoPut
                                       TestDouble.heap0))) as L eqn:HL.
  vm_compute in HL. subst L.
  apply list_elem_of_singleton in Hin. discriminate Hin.
Qed.

(** C7, as the claim has it, fails when two keys of the header map differ
    in case only: both are filed under [X-A], so the request cannot carry
    [1] for [x-a] and [2] for [X-A]. *)
Lemma header_collision_counterexample :
  TestDouble.NewRequest_error (Method TestDouble.okCollide)
    (URL TestDouble.okCollide) = None ∧
  strmap_at TestDouble.heap0 (Headers TestDouble.okCollide) =
    <["x-a" := "1"]> (<["X-A" := "2"]> ∅) ∧
  ¬ ∀ w, w ∈ wires (log_of (sendRequest_td TestDouble.okCollide
                              TestDouble.heap0)) →
      ∀ k v,
        strmap_at TestDouble.heap0 (Headers TestDouble.okCollide) !! k
          = Some v →
        Header_Get (wHeader w) k = v.
Proof.
  split_and!; [by vm_compute..|]. intros H.
  assert (∃ w, wires (log_of (sendRequest_td TestDouble.okCollide
                                TestDouble.heap0)) = [w] ∧
               Header_Get (wHeader w) "x-a" = Header_Get (wHeader w) "X-A")
    as (w & Hw & Heq).
  { eexists. split; [reflexivity|]. by vm_compute. }
  assert (w ∈ wires (log_of (sendRequest_td TestDouble.okCollide
                               TestDouble.heap0))) as Hin.
  { rewrite Hw. by apply list_elem_of_singleton. }
  pose proof (H w Hin "x-a" "1" ltac:(by vm_compute)) as H1.
  pose proof (H w Hin "X-A" "2" ltac:(by vm_compute)) as H2.
  congruence.
Qed.

(** Header keys of their own: each header arrives with its value. *)
Lemma headers_applied_witness :
  (∀ m, TestDouble.rangeOrder m ≡ₚ map_to_list m) ∧
  TestDouble.NewRequest_error (Method TestDouble.echoPost)
    (URL TestDouble.echoPost) = None ∧
  ∃ w, wires (log_of (sendRequest_td TestDouble.echoPost TestDouble.heap0))
       = [w] ∧
       Header_Get (wHeader w) "accept" = "application/json" ∧
       Header_Get (wHeader w) "x-token" = "abc".
Proof.
  assert (Hperm : ∀ m, TestDouble.rangeOrder m ≡ₚ map_to_list m) by done.
  assert (Hnew : TestDouble.NewRequest_error (Method TestDouble.echoPost)
                   (URL TestDouble.echoPost) = None) by (by vm_compute).
  split_and!; [done..|].
  destruct (headers_applied TestDouble.NewRequest_error TestDouble.Response
              TestDouble.client_Do TestDouble.ioutil_ReadAll
              TestDouble.json_Marshal TestDouble.rangeOrder Hperm
              TestDouble.echoPost TestDouble.heap0 Hnew)
    as (w & Hw & _ & Huniq & _).
  assert (Hkeys : ∀ k' : string,
    is_Some (strmap_at TestDouble.heap0 (Headers TestDouble.echoPost) !! k') →
    k' = "accept" ∨ k' = "x-token").
  { intros k' [v Hv]. apply elem_of_map_to_list in Hv.
    remember (map_to_list (strmap_at TestDouble.heap0
                             (Headers TestDouble.echoPost))) as L eqn:HL.
    vm_compute in HL. subst L.
    apply elem_of_cons in Hv as [Hv|Hv].
    { injection Hv as -> _. first [left; reflexivity | right; reflexivity]. }
    apply elem_of_cons in Hv as [Hv|Hv].
    { injection Hv as -> _. first [left; reflexivity | right; reflexivity]. }
    apply elem_of_nil in Hv. destruct Hv. }
  exists w. split_and!.
  - exact Hw.
  - apply Huniq.
    + by vm_compute.
    + intros k' Hk' Hc. apply Hkeys in Hk' as [->| ->].
      * reflexivity.
      * vm_compute in Hc. discriminate Hc.
  - apply Huniq.
    + by vm_compute.
    + intros k' Hk' Hc. apply Hkeys in Hk' as [->| ->].
      * vm_compute in Hc. discriminate Hc.
      * reflexivity.
Defined.

(** The scenario of the specification: [/ok] and [/down] in one batch,
    and [/ok] again in another batch on a network where [/down] is up. *)
Lemma siblings_do_not_interfere_witness :
  TestDouble.client_Do
    (wireOf TestDouble.json_Marshal TestDouble.rangeOrder TestDouble.heap0
       TestDouble.okGet) =
  TestDouble.client_Do_up
    (wireOf TestDouble.json_Marshal TestDouble.rangeOrder TestDouble.heap0
       TestDouble.okGet) ∧
  (∀ s, reachable_td [TestDouble.okGet; TestDouble.downGet]
          TestDouble.heap0 s →
        closedS s = true →
        deliveredS s ≡ₚ
          ["Response from https://example.test/ok: hello";
           "Error sending request to https://example.test/down: connection refused"]) ∧
  (∀ s, reachable TestDouble.NewRequest_error TestDouble.Response
          TestDouble.client_Do_up TestDouble.ioutil_ReadAll
          TestDouble.json_Marshal TestDouble.rangeOrder
          [TestDouble.downGet; TestDouble.okGet] TestDouble.heap0 s →
        closedS s = true →
        deliveredS s ≡ₚ
          ["Response from https://example.test/ok: hello";
           "Response from https://example.test/down: back"]).
Proof.
  assert (Hagree :
    TestDouble.client_Do
      (wireOf TestDouble.json_Marshal TestDouble.rangeOrder TestDouble.heap0
         TestDouble.okGet) =
    TestDouble.client_Do_up
      (wireOf TestDouble.json_Marshal TestDouble.rangeOrder TestDouble.heap0
         TestDouble.okGet)) by reflexivity.
  split; [exact Hagree|].
  destruct (siblings_do_not_interfere TestDouble.NewRequest_error
              TestDouble.Response TestDouble.client_Do
              TestDouble.client_Do_up TestDouble.ioutil_ReadAll
              TestDouble.json_Marshal TestDouble.rangeOrder
              TestDouble.okGet [] [TestDouble.downGet] [TestDouble.downGet] []
              TestDouble.heap0 Hagree) as (H1 & H2 & _).
  split.
  - intros s Hs Hcl. exact (H1 s Hs Hcl).
  - intros s Hs Hcl. exact (H2 s Hs Hcl).
Defined.

(** A [GET] on the server path. *)
Lemma non_post_rejected_witness :
  "GET" ≠ "POST" ∧
  handleAPIRequest TestDouble.json_parse
    {| inMethod := "GET"; inBody := inr "{}" |} TestDouble.heap0 =
  ([HError "Only POST method is supported" 405], Refused).
Proof.
  split; [discriminate|].
  apply non_post_rejected. simpl. discriminate.
Defined.

(** The empty object on the server path, read by the test double. *)
Example empty_object_dispatches_nothing :
  TestDouble.json_parse "{}" = Some (json.Object []) ∧
  handleAPIRequest TestDouble.json_parse
    {| inMethod := "POST"; inBody := inr "{}" |} TestDouble.heap0 =
  ([HReadAll; HLoadConfig "{}"], Dispatching (init [] TestDouble.heap0)).
Proof. split; by vm_compute. Qed.

(** A second [requests] member in one object is stored into the elements
    that the first has left: the descriptor keeps its target and its maps
    and gets the method. *)
Example repeated_requests_member :
  val_of (decodeConfig
            (json.Object
               [("requests",
                 json.Array
                   [json.Object
                      [("url", json.String "u1");
                       ("headers", json.Object [("a", json.String "1")]);
                       ("body", json.Object [("t", json.String "x")])]]);
                ("requests",
                 json.Array [json.Object [("method", json.String "GET")]])])
            Config_zero ∅) =
  ({| Requests := [{| URL := "u1"; Method := "GET";
                      Headers := Some 1%positive;
                      Body := Some 2%positive |}] |}, None).
Proof. by vm_compute. Qed.

(** The scenario of the specification, run to the end under one schedule:
    the two goroutines are started, [/down] fails first and its line is
    received and written first, then the line of [/ok]; the caller closes
    the channel and the printing goroutine ends. *)
Example scenario_run :
  option_map (λ s, (mainS s, consumerS s, sinkS s, panicS s))
    (run_td [MvMain; MvMain; MvWorker 0; MvMain; MvMain;
             MvWorker 1; MvWorker 1; MvWorker 1; MvWorker 1; MvWorker 0;
             MvMain; MvWorker 1; MvConsumer;
             MvWorker 0; MvWorker 0; MvWorker 0; MvWorker 0; MvWorker 0;
             MvMain; MvConsumer; MvMain; MvConsumer]
       (init [TestDouble.okGet; TestDouble.downGet] TestDouble.heap0)) =
  Some (MDone, CExit,
        ["Error sending request to https://example.test/down: connection refused";
         "Response from https://example.test/ok: hello"],
        false).
Proof. by vm_compute. Qed.

(** The caller does not wait for the printing goroutine: there is a run
    of a batch of one descriptor in which the caller has closed [results]
    and returned while the line, received, is not yet written. *)
Theorem return_before_last_line :
  ∃ s, reachable_td [TestDouble.okGet] TestDouble.heap0 s ∧
       mainS s = MDone ∧ closedS s = true ∧
       deliveredS s = ["Response from https://example.test/ok: hello"] ∧
       consumerS s = CPrint "Response from https://example.test/ok: hello" ∧
       sinkS s = [].
Proof.
  destruct (run_td [MvMain; MvMain; MvMain;
                    MvWorker 0; MvWorker 0; MvWorker 0; MvWorker 0;
                    MvWorker 0; MvWorker 0; MvWorker 0; MvMain; MvMain]
              (init [TestDouble.okGet] TestDouble.heap0)) as [s|] eqn:Hrun;
    [|by vm_compute in Hrun].
  exists s. split; [by eapply run_reachable|].
  assert (Some s = Some s) as Hs by reflexivity.
  rewrite <- Hrun in Hs at 1. vm_compute in Hs.
  injection Hs as <-. by split_and!.
Qed.

(** The request of [echoPost] carries [Accept], from the key [accept] of
    its header map. *)
Lemma request_headers_from_map_witness :
  (∀ m, TestDouble.rangeOrder m ≡ₚ map_to_list m) ∧
  wireOf TestDouble.json_Marshal TestDouble.rangeOrder TestDouble.heap0
    TestDouble.echoPost
  ∈ wires (log_of (sendRequest_td TestDouble.echoPost TestDouble.heap0)) ∧
  wHeader (wireOf TestDouble.json_Marshal TestDouble.rangeOrder
             TestDouble.heap0 TestDouble.echoPost) !! "Accept"
  = Some ["application/json"] ∧
  ∃ k v, strmap_at TestDouble.heap0 (Headers TestDouble.echoPost) !! k
         = Some v ∧
         textproto.CanonicalMIMEHeaderKey k = "Accept" ∧
         ["application/json"] = [v].
Proof.
  assert (Hperm : ∀ m, TestDouble.rangeOrder m ≡ₚ map_to_list m) by done.
  assert (Hin :
    wireOf TestDouble.json_Marshal TestDouble.rangeOrder TestDouble.heap0
      TestDouble.echoPost
    ∈ wires (log_of (sendRequest_td TestDouble.echoPost TestDouble.heap0))).
  { rewrite sendRequest_log, wires_resultLog.
    change (TestDouble.NewRequest_error (Method TestDouble.echoPost)
              (URL TestDouble.echoPost)) with (@None string).
    apply list_elem_of_singleton. reflexivity. }
  assert (Hlook :
    wHeader (wireOf TestDouble.json_Marshal TestDouble.rangeOrder
               TestDouble.heap0 TestDouble.echoPost) !! "Accept"
    = Some ["application/json"]) by (vm_compute; reflexivity).
  split_and!; [exact Hperm|exact Hin|exact Hlook|].
  exact (request_headers_from_map TestDouble.NewRequest_error
           TestDouble.Response TestDouble.client_Do TestDouble.ioutil_ReadAll
           TestDouble.json_Marshal TestDouble.rangeOrder Hperm
           TestDouble.echoPost TestDouble.heap0 _ _ _ Hin Hlook).
Defined.

(** The scenario of the specification with the line of [/down] received
    first. *)
Lemma lines_in_any_order_witness :
  [TestDouble.downGet; TestDouble.okGet]
    ≡ₚ [TestDouble.okGet; TestDouble.downGet] ∧
  ∃ s, reachable_td [TestDouble.okGet; TestDouble.downGet] TestDouble.heap0 s ∧
       mainS s = MDone ∧ closedS s = true ∧
       deliveredS s =
         resultLine TestDouble.NewRequest_error TestDouble.Response
           TestDouble.client_Do TestDouble.ioutil_ReadAll
           TestDouble.json_Marshal TestDouble.rangeOrder TestDouble.heap0
         <$> [TestDouble.downGet; TestDouble.okGet].
Proof.
  assert (Hp : [TestDouble.downGet; TestDouble.okGet]
                 ≡ₚ [TestDouble.okGet; TestDouble.downGet])
    by apply perm_swap.
  split; [exact Hp|].
  exact (lines_in_any_order TestDouble.NewRequest_error TestDouble.Response
           TestDouble.client_Do TestDouble.ioutil_ReadAll
           TestDouble.json_Marshal TestDouble.rangeOrder _ TestDouble.heap0 _
           Hp).
Defined.

(** [-http3 -config=config.json] with the port of the HTTP/1.1 server
    taken: the command can exit on the error of that server. *)
Lemma http3_mode_witness :
  useHTTP3 TestDouble.flags_http3 = true ∧
  main_td TestDouble.flags_http3 TestDouble.heap0 =
    main_http3 TestDouble.os_Stat TestDouble.tls_LoadX509KeyPair
      TestDouble.quic_ListenAndServeTLS TestDouble.flags_http3 ∧
  ∃ p, preachable TestDouble.os_Stat TestDouble.tls_LoadX509KeyPair
         TestDouble.server_ListenAndServeTLS
         TestDouble.quic_ListenAndServeTLS TestDouble.flags_http3 p ∧
       exitedP p = true ∧
       fatals (traceP p) = ["address already in use"].
Proof.
  destruct (http3_mode TestDouble.json_parse TestDouble.os_Stat
              TestDouble.tls_LoadX509KeyPair TestDouble.ioutil_ReadFile
              TestDouble.server_ListenAndServeTLS
              TestDouble.quic_ListenAndServeTLS
              TestDouble.json_errorText TestDouble.flags_http3
              TestDouble.heap0 eq_refl) as (H1 & _ & H3).
  split; [reflexivity|]. split; [exact H1|].
  destruct (H3 eq_refl eq_refl "address already in use" eq_refl)
    as (p & Hp & He & Hfat & _).
  exists p. split; [exact Hp|]. split; [exact He|exact Hfat].
Defined.

(** [-config=config.json], the file holding the empty object: the empty
    batch is dispatched. *)
Lemma config_mode_witness :
  useHTTP3 TestDouble.flags_config = false ∧
  configFile TestDouble.flags_config ≠ "" ∧
  main_td TestDouble.flags_config TestDouble.heap0 =
  ([AReadFile "config.json"; ALoadConfig "{}"],
   DispatchingCLI (init [] TestDouble.heap0)).
Proof.
  split; [reflexivity|]. split; [discriminate|].
  destruct (config_mode TestDouble.json_parse TestDouble.os_Stat
              TestDouble.tls_LoadX509KeyPair TestDouble.ioutil_ReadFile
              TestDouble.quic_ListenAndServeTLS
              TestDouble.json_errorText TestDouble.flags_config
              TestDouble.heap0 eq_refl) as (_ & _ & H).
  assert (Hne : configFile TestDouble.flags_config ≠ "") by discriminate.
  exact (H Hne).
Defined.

(** The scenario of the specification: the payload of a [POST] with the
    body [title: foo], decoded again. *)
Lemma post_body_is_payload_witness :
  (Method TestDouble.echoPost = "POST" ∧ Body TestDouble.echoPost ≠ None) ∧
  (∀ k v, strmap_at TestDouble.heap0 (Body TestDouble.echoPost) !! k = Some v →
          isASCII k = true ∧ isASCII v = true) ∧
  head (log_of (sendRequest_td TestDouble.echoPost TestDouble.heap0)) =
    Some (EvNewRequest "POST" "https://example.test/echo"
            (Some (TestDouble.json_Marshal {[ "title" := "foo" ]}))) ∧
  Unmarshal_map TestDouble.json_parse
    (TestDouble.json_Marshal {[ "title" := "foo" ]}) =
    ({[ "title" := "foo" ]}, None).
Proof.
  assert (Hb : Method TestDouble.echoPost = "POST" ∧
               Body TestDouble.echoPost ≠ None)
    by (split; [reflexivity|discriminate]).
  assert (Hascii : ∀ k v,
    strmap_at TestDouble.heap0 (Body TestDouble.echoPost) !! k = Some v →
    isASCII k = true ∧ isASCII v = true).
  { intros k v Hkv. apply elem_of_map_to_list in Hkv.
    remember (map_to_list (strmap_at TestDouble.heap0
                             (Body TestDouble.echoPost))) as L eqn:HL.
    vm_compute in HL. subst L.
    apply list_elem_of_singleton in Hkv. injection Hkv as -> ->.
    split; reflexivity. }
  destruct (post_body_is_payload TestDouble.NewRequest_error
              TestDouble.Response TestDouble.client_Do
              TestDouble.ioutil_ReadAll TestDouble.rangeOrder
              TestDouble.echoPost TestDouble.heap0) as [Hpost _].
  cbv zeta in Hpost. destruct (Hpost Hb) as (Hhead & _ & Hback).
  split; [exact Hb|]. split; [exact Hascii|].
  split; [exact Hhead|exact (Hback Hascii)].
Defined.
